(** * Resolution and caching engine of the Pandoc reference list plugin

    Shallow embedding of [src/bib/bibManager.ts] (the class [BibManager]
    and the helpers above it) and of the parts of [src/editorExtension.ts]
    that read what the manager stores.

    - A method is a computation over the state of the manager and of the
      application around it; it returns a value or throws, and it leaves a
      trace of the calls it makes on its collaborators.  Asynchronous calls
      are embedded in the order in which the awaits sequence them, and
      [getReferenceList] is embedded from the point where its two init
      promises have resolved.
    - The collaborators whose code lives in other files (the citation
      parser, the style engine, the style, locale and bibliography
      transport, the DOM parser) are the fields of the record [Env].  The
      construction of a style engine and the calls on it have no handler
      in the source: what they throw ends the method that makes them.
    - Of the loaders of the global bibliography, [loadGlobalZBib] is
      embedded, with [getLangAndStyle] and [setFuse].  [loadGlobalBibFile]
      is not: it calls [getLangAndStyle] without awaiting it, so what it
      does next depends on how far the helpers of another file run before
      they first suspend.  [reinit] is embedded up to the loader it runs,
      whose outcome each statement about it quantifies over.  [destroy],
      which detaches the manager from the plugin, is not embedded.
    - Of the editor extension, the state field [citeKeyCacheField] and the
      decorations that [mkDeco] hands to the range set builder are
      embedded; the builder and the widgets are outside. *)

From Stdlib Require Import ZArith List String Ascii Lia Bool.
From stdpp Require Import base gmap sets list strings sorting.

Local Open Scope string_scope.
Local Open Scope Z_scope.
Local Open Scope nat_scope.

(** ** JavaScript values and string primitives *)

Module JS.

(** ToBoolean on a string: only the empty string is falsy. *)
Definition truthy (s : string) : bool :=
  match s with EmptyString => false | String _ _ => true end.

(** ToBoolean on [string | undefined]. *)
Definition truthy_opt (o : option string) : bool :=
  match o with Some s => truthy s | None => false end.

(** [a || undefined] on [string | undefined]. *)
Definition or_undefined (o : option string) : option string :=
  if truthy_opt o then o else None.

(** [a || b] on [string | undefined]. *)
Definition or_else (a b : option string) : option string :=
  if truthy_opt a then a else b.

(** [a ?? b]: only [undefined] (and [null]) fall through. *)
Definition nullish (a : option string) (b : string) : string :=
  match a with Some s => s | None => b end.

(** A string holds the UTF-8 encoding of the JavaScript string.  The white
    space that [trim], [parseInt] and the class [\s] recognise, each
    character by the bytes of its encoding: TAB, LF, VT, FF, CR, SP, U+00A0,
    U+1680, U+2000 to U+200A, U+2028, U+2029, U+202F, U+205F, U+3000 and
    U+FEFF. *)
Definition white_space_codes : list (list nat) :=
  [ [9]; [10]; [11]; [12]; [13]; [32]; [194; 160]; [225; 154; 128];
    [226; 128; 128]; [226; 128; 129]; [226; 128; 130]; [226; 128; 131];
    [226; 128; 132]; [226; 128; 133]; [226; 128; 134]; [226; 128; 135];
    [226; 128; 136]; [226; 128; 137]; [226; 128; 138]; [226; 128; 168];
    [226; 128; 169]; [226; 128; 175]; [226; 129; 159]; [227; 128; 128];
    [239; 187; 191] ].

Definition white_space : list (list ascii) :=
  map (map ascii_of_nat) white_space_codes.

Fixpoint starts_with (p l : list ascii) : bool :=
  match p, l with
  | [], _ => true
  | a :: p', b :: l' => (Ascii.eqb a b && starts_with p' l')%bool
  | _ :: _, [] => false
  end.

(** The number of bytes of the character at the head of [l] when it is one
    of [chars]; 0 when it is none of them. *)
Definition head_length (chars : list (list ascii)) (l : list ascii) : nat :=
  match find (λ p, starts_with p l) chars with
  | Some p => length p
  | None => 0
  end.

(** [l] without the characters of [chars] at its head; [n] bounds the
    number of characters dropped, and the length of [l] is enough. *)
Fixpoint drop_chars (chars : list (list ascii)) (n : nat) (l : list ascii)
  : list ascii :=
  match n with
  | O => l
  | S n' =>
      match head_length chars l with
      | O => l
      | S k => drop_chars chars n' (drop (S k) l)
      end
  end.

(** The white space at the head of a string dropped. *)
Definition drop_ws (l : list ascii) : list ascii :=
  drop_chars white_space (length l) l.

(** The white space at the end of a string dropped: the same walk over the
    reversed string, for the reversed encodings. *)
Definition drop_ws_end (l : list ascii) : list ascii :=
  rev (drop_chars (map (@rev ascii) white_space) (length l) (rev l)).

(** [String.prototype.trim]. *)
Definition trim (s : string) : string :=
  string_of_list_ascii (drop_ws_end (drop_ws (list_ascii_of_string s))).

(** [s.split(sep)] for a one-character separator: never empty. *)
Fixpoint split_on_aux (sep : ascii) (cur : list ascii) (l : list ascii)
  : list string :=
  match l with
  | [] => [string_of_list_ascii (rev cur)]
  | c :: l' =>
      if Ascii.eqb c sep
      then string_of_list_ascii (rev cur) :: split_on_aux sep [] l'
      else split_on_aux sep (c :: cur) l'
  end.

Definition split_on (sep : ascii) (s : string) : list string :=
  split_on_aux sep [] (list_ascii_of_string s).

(** [s.split(/\s+/)]: a run of white space is one separator.  [skip] counts
    the bytes of a white space character still to pass. *)
Fixpoint split_ws_aux (skip : nat) (cur : list ascii) (in_ws : bool)
    (l : list ascii) : list string :=
  match l with
  | [] => [string_of_list_ascii (rev cur)]
  | c :: l' =>
      match skip with
      | S k => split_ws_aux k cur in_ws l'
      | O =>
          match head_length white_space l with
          | S k =>
              if in_ws then split_ws_aux k cur true l'
              else string_of_list_ascii (rev cur) :: split_ws_aux k [] true l'
          | O => split_ws_aux 0 (c :: cur) false l'
          end
      end
  end.

Definition split_ws (s : string) : list string :=
  split_ws_aux 0 [] false (list_ascii_of_string s).

(** [parts.join(sep)]. *)
Fixpoint join (sep : string) (parts : list string) : string :=
  match parts with
  | [] => EmptyString
  | [p] => p
  | p :: ps => p ++ sep ++ join sep ps
  end.

(** [/^http/.test(s)]. *)
Definition starts_with_http (s : string) : bool :=
  String.prefix "http" s.

(** The members that every plain object inherits from [Object.prototype]. *)
Definition object_prototype : list string :=
  [ "constructor"; "__defineGetter__"; "__defineSetter__"; "hasOwnProperty";
    "__lookupGetter__"; "__lookupSetter__"; "isPrototypeOf";
    "propertyIsEnumerable"; "toString"; "valueOf"; "__proto__";
    "toLocaleString" ].

(** What [table[key]] reads from a plain object that holds strings: a
    string of its own, a member it inherits (a function, or the prototype
    itself under [__proto__]), or [undefined]. *)
Inductive member : Type :=
  | Own (s : string)
  | Inherited
  | Undefined.

Definition get (table : gmap string string) (key : string) : member :=
  match table !! key with
  | Some s => Own s
  | None => if bool_decide (key ∈ object_prototype) then Inherited else Undefined
  end.

(** ToBoolean on what [table[key]] reads. *)
Definition truthy_member (m : member) : bool :=
  match m with
  | Own s => truthy s
  | Inherited => true
  | Undefined => false
  end.

(** A number as [parseInt] returns it: NaN, an infinity, or an integer
    that a double holds. *)
Inductive number : Type :=
  | NaN
  | Infinity (negative : bool)
  | Int (z : Z).

(** The double nearest to the integer [sign * a], for [a] that is not
    negative: the significand has 53 bits, a tie goes to the even
    significand, and a magnitude of 2^1024 or more is an infinity. *)
Definition to_double (sign a : Z) : number :=
  if (a <? 2 ^ 53)%Z then Int (sign * a)
  else
    let e := (Z.log2 a - 52)%Z in
    let q := Z.shiftr a e in
    let r := (a - Z.shiftl q e)%Z in
    let half := Z.shiftl 1 (e - 1) in
    let q :=
      if ((half <? r) || ((r =? half) && Z.odd q))%Z%bool then (q + 1)%Z
      else q in
    let v := Z.shiftl q e in
    if (2 ^ 1024 <=? v)%Z then Infinity (sign <? 0)%Z else Int (sign * v).

(** Value of a digit character in the given radix, if it is one. *)
Definition digit_val (radix : Z) (c : ascii) : option Z :=
  let n := Z.of_nat (nat_of_ascii c) in
  let v :=
    if ((48 <=? n) && (n <=? 57))%Z%bool then Some (n - 48)%Z
    else if ((97 <=? n) && (n <=? 122))%Z%bool then Some (n - 87)%Z
    else if ((65 <=? n) && (n <=? 90))%Z%bool then Some (n - 55)%Z
    else None in
  match v with
  | Some d => if (d <? radix)%Z then Some d else None
  | None => None
  end.

(** Longest prefix of digits, accumulated left to right; [None] when the
    prefix is empty. *)
Fixpoint digits (radix : Z) (acc : option Z) (l : list ascii) : option Z :=
  match l with
  | [] => acc
  | c :: l' =>
      match digit_val radix c with
      | Some d =>
          digits radix
            (Some (match acc with Some a => a * radix + d | None => d end)%Z)
            l'
      | None => acc
      end
  end.

(** The integer a property key stands for when it is an array index: the
    canonical decimal form of an integer below 2^32 - 1. *)
Definition array_index (k : string) : option Z :=
  match list_ascii_of_string k with
  | [] => None
  | c :: l =>
      let zero := Nat.eqb (nat_of_ascii c) 48 in
      let single := match l with [] => true | _ :: _ => false end in
      if (forallb (λ d, (48 <=? nat_of_ascii d) && (nat_of_ascii d <=? 57))
            (c :: l)
          && (negb zero || single))%bool
      then
        match digits 10 None (c :: l) with
        | Some n => if (n <? 2 ^ 32 - 1)%Z then Some n else None
        | None => None
        end
      else None
  end.

Definition is_x (c : ascii) : bool :=
  let n := nat_of_ascii c in (Nat.eqb n 120 || Nat.eqb n 88)%bool.

(** [parseInt(s)] without a radix argument: the white space at the head is
    passed, then a sign, then the prefix of a hexadecimal number; the digits
    that follow give the value, rounded to a double. *)
Definition parseInt (s : string) : number :=
  let l := drop_ws (list_ascii_of_string s) in
  let '(sign, l) :=
    match l with
    | c :: l' =>
        if Nat.eqb (nat_of_ascii c) 45 then ((-1)%Z, l')
        else if Nat.eqb (nat_of_ascii c) 43 then (1%Z, l')
        else (1%Z, l)
    | [] => (1%Z, l)
    end in
  let '(radix, l) :=
    match l with
    | z :: x :: l' =>
        if (Nat.eqb (nat_of_ascii z) 48 && is_x x)%bool
        then (16%Z, l') else (10%Z, l)
    | _ => (10%Z, l)
    end in
  match digits radix None l with
  | Some v => to_double sign v
  | None => NaN
  end.

(** [a === n] for an integer [a] and what [parseInt] returns. *)
Definition strict_eq (a : Z) (n : number) : bool :=
  match n with
  | Int z => bool_decide (a = z)
  | _ => false
  end.

End JS.

(** ** The least-recently-used cache behind [fileCache] *)

Module LRU.
Section lru.
Context {K V : Type} `{EqDecision K}.

(** Modelled from the spec: the class [LRUCache] comes from the package
    [lru-cache], which is not part of the sources.  The spec describes it as
    a capacity-bounded map with access-order tracking (move to front) that
    evicts the least recently used entry at capacity.  [entries] lists the
    cached pairs from the most to the least recently used. *)
Record t : Type := mk { max : nat; entries : list (K * V) }.

(** Modelled from the spec: [new LRUCache({ max })] of the missing package. *)
Definition create (n : nat) : t := mk n [].

Fixpoint assoc (k : K) (l : list (K * V)) : option V :=
  match l with
  | [] => None
  | (k', v) :: l' => if decide (k' = k) then Some v else assoc k l'
  end.

Fixpoint remove (k : K) (l : list (K * V)) : list (K * V) :=
  match l with
  | [] => []
  | (k', v) :: l' => if decide (k' = k) then remove k l' else (k', v) :: remove k l'
  end.

(** Modelled from the spec: [peek] of the missing package, a lookup that
    leaves the access order alone. *)
Definition peek (k : K) (c : t) : option V := assoc k (entries c).

(** Modelled from the spec: [has] of the missing package; it does not count
    as a use. *)
Definition has (k : K) (c : t) : bool :=
  match peek k c with Some _ => true | None => false end.

(** Modelled from the spec: [get] of the missing package; a hit moves the
    entry to the front of the access order. *)
Definition get (k : K) (c : t) : option V * t :=
  match peek k c with
  | Some v => (Some v, mk (max c) ((k, v) :: remove k (entries c)))
  | None => (None, c)
  end.

(** Modelled from the spec: [set] of the missing package; the written entry
    becomes the most recently used one and, when the capacity is exceeded,
    the least recently used entry is evicted. *)
Definition set (k : K) (v : V) (c : t) : t :=
  mk (max c) (take (max c) ((k, v) :: remove k (entries c))).

(** Modelled from the spec: [clear] of the missing package. *)
Definition clear (c : t) : t := mk (max c) [].

Definition size (c : t) : nat := length (entries c).

Definition keys (c : t) : list K := (entries c).*1.

(** Mutation of a cached object through a reference held elsewhere: the
    value changes, the access order does not. *)
Fixpoint update_assoc (k : K) (f : V → V) (l : list (K * V)) : list (K * V) :=
  match l with
  | [] => []
  | (k', v) :: l' =>
      if decide (k' = k) then (k', f v) :: l' else (k', v) :: update_assoc k f l'
  end.

Definition update (k : K) (f : V → V) (c : t) : t :=
  mk (max c) (update_assoc k f (entries c)).

End lru.
Arguments t : clear implicits.
End LRU.

(** ** Data model *)

(** A file of the vault; two [TFile] objects are the same file exactly when
    their vault paths agree. *)
Definition TFile : Type := string.

(** [PartialCSLEntry] of [./types]: the fields the manager and the search
    index read. *)
Record PartialCSLEntry : Type :=
  { entry_id : string; entry_title : option string }.

(** The collection handed to [new Fuse(data, fuseSettings)]. *)
Definition Fuse : Type := list PartialCSLEntry.

Inductive SegmentType : Type :=
  | SegKey | SegAt | SegBracket | SegCurlyBracket | SegSeparator
  | SegSuppressor | SegPrefix | SegSuffix | SegLocator | SegLocatorLabel
  | SegLocatorSuffix.

Record Segment : Type :=
  { seg_type : SegmentType; seg_val : string; seg_from : nat; seg_to : nat }.

Inductive CitationMode : Type := InText | Parenthetical.

Record Citation : Type :=
  { cit_id : string;
    cit_prefix : option string;
    cit_suffix : option string;
    cit_locator : option string;
    cit_label : option string;
    cit_suppress_author : bool }.

(** What [getCitations] returns for one run of segments. *)
Record CitationGroup : Type :=
  { citations : list Citation; mode : CitationMode; data : list Segment }.

Record RenderedCitation : Type :=
  { rc_citations : list Citation;
    rc_val : string;
    rc_from : nat;
    rc_to : nat;
    rc_note : option string;
    rc_noteIndex : option Z;
    rc_data : list Segment }.

#[global] Instance PartialCSLEntry_eq_dec : EqDecision PartialCSLEntry.
Proof. solve_decision. Defined.
#[global] Instance SegmentType_eq_dec : EqDecision SegmentType.
Proof. solve_decision. Defined.
#[global] Instance Segment_eq_dec : EqDecision Segment.
Proof. solve_decision. Defined.
#[global] Instance CitationMode_eq_dec : EqDecision CitationMode.
Proof. solve_decision. Defined.
#[global] Instance Citation_eq_dec : EqDecision Citation.
Proof. solve_decision. Defined.
#[global] Instance CitationGroup_eq_dec : EqDecision CitationGroup.
Proof. solve_decision. Defined.
#[global] Instance RenderedCitation_eq_dec : EqDecision RenderedCitation.
Proof. solve_decision. Defined.

(** [equal] of [fast-deep-equal] on two arrays of rendered citations:
    structural equality of values. *)
Definition equal (a b : list RenderedCitation) : bool := bool_decide (a = b).

Record ScopedSettings : Type :=
  { settings_style : option string;
    settings_lang : option string;
    settings_bibliography : option string }.

#[global] Instance ScopedSettings_eq_dec : EqDecision ScopedSettings.
Proof. solve_decision. Defined.

(** A value of the front matter: a string, or a value of another type (a
    number, a boolean, a list, a mapping), which has no method [trim]. *)
Inductive FmValue : Type :=
  | FmString (s : string)
  | FmOther.

(** The front matter keys [getScopedSettings] reads; a key that is missing
    or null has no value. *)
Record Frontmatter : Type :=
  { fm_bibliography : option FmValue;
    fm_csl : option FmValue;
    fm_citation_style : option FmValue;
    fm_lang : option FmValue;
    fm_citation_language : option FmValue }.

(** One call made on a style engine.  An engine object is mutable; what it
    answers may depend on every call it has received, so its state is its
    construction arguments together with the calls made so far. *)
Inductive EngineCall : Type :=
  | CallCite (groups : list CitationGroup)
  | CallMakeBibliography.

(** [new CSL.Engine({ retrieveLocale, retrieveItem }, styleText, lang)] with
    [opt.development_extensions.wrap_url_and_doi] set by [buildEngine].
    [retrieveItem] reads the map the engine was built on; [retrieveLocale]
    reads the manager's own [langCache], so the locales are not part of the
    engine: they are passed to it on every call.  An engine has a style
    text: the constructor throws when it is given none. *)
Record Engine : Type :=
  { eng_items : gmap string PartialCSLEntry;
    eng_style : string;
    eng_lang : string;
    eng_wrap_url_and_doi : bool;
    eng_calls : list EngineCall }.

Definition record_call (c : EngineCall) (e : Engine) : Engine :=
  {| eng_items := eng_items e;
     eng_style := eng_style e; eng_lang := eng_lang e;
     eng_wrap_url_and_doi := eng_wrap_url_and_doi e;
     eng_calls := eng_calls e ++ [c] |}.

(** The first element of what [makeBibliography] returns. *)
Record BibMetadata : Type :=
  { bibstart : string; bibend : string; entry_ids : option (list (list string)) }.

(** What [engine.makeBibliography()] returns: a value without a positive
    [length] ([false], [undefined], an empty array), or the pair of the
    metadata and the rendered entries. *)
Inductive MakeBibResult : Type :=
  | BibAbsent
  | BibPair (metadata : BibMetadata) (entries : list string).

(** A DOM node: its identity and the markup it was parsed from. *)
Record DomNode : Type := { node_ref : nat; node_html : string }.

(** A search index as a scope holds it.  The manager has at most one
    index object: [setFuse] creates it once and replaces its collection in
    place afterwards, so a scope that took [this.fuse] holds that object and
    reads through it whatever collection the manager has given it since.  A
    scope with a bibliography of its own holds an index of its own. *)
Inductive FuseRef : Type :=
  | GlobalFuse
  | OwnFuse (data : Fuse).

(** [FileCache.source]: either the manager itself ([return this] in
    [loadScopedEngine]), whose fields are read when they are used, or the
    object literal built for a scope. *)
Inductive Source : Type :=
  | SrcThis
  | SrcScoped (bibCache : gmap string PartialCSLEntry) (fuse : option FuseRef)
              (engine : Engine).

Record FileCache : Type :=
  { keys : gset string;
    resolvedKeys : gset string;
    unresolvedKeys : gset string;
    bib : option DomNode;
    fc_citations : list RenderedCitation;
    citeBibMap : gmap string string;
    settings : option ScopedSettings;
    source : Source }.

(** The plugin settings the manager reads. *)
Record PluginSettings : Type :=
  { cslStyleURL : option string;
    cslLang : option string;
    pathToPandoc : string }.

(** ** Outcomes, events and the collaborators *)

(** A thrown value. *)
Definition Err : Type := string.

Inductive outcome (A : Type) : Type :=
  | Ret (a : A)
  | Throw (e : Err).
Arguments Ret {A} a.
Arguments Throw {A} e.

(** Sequencing of computations that return or throw. *)
Definition and_then {A B} (o : outcome A) (f : A → outcome B) : outcome B :=
  match o with Ret a => f a | Throw e => Throw e end.

(** What a call does that is visible outside the manager. *)
Inductive Event : Type :=
  | EvConsoleError (e : Err)
  | EvLoadScopedEngine (s : option ScopedSettings)
  | EvFetchStyle (id explicitPath : option string)
  | EvFetchLocale (lang : string)
  | EvBibToCSL (path : string)
  | EvBuildEngine (lang : string) (style : string)
  | EvCite (groups : list CitationGroup)
  | EvMakeBibliography
  | EvDomParse (html : string)
  | EvDispatch (file : TFile) (result : FileCache).

Record Env : Type :=
  { (** [getCitationSegments] and [getCitations] of [src/parser/parser]. *)
    getCitationSegments : string → list (list Segment);
    getCitations : list Segment → CitationGroup;
    (** The transport behind [getCSLStyle] and [getCSLLocale]: the document
        for a style (by id and explicit path) or a locale, or a failure. *)
    fetchStyle : option string → option string → outcome string;
    fetchLocale : string → outcome string;
    (** [bibToCSL(path, pathToPandoc)] of [./helpers]. *)
    bibToCSL : string → string → outcome (list PartialCSLEntry);
    (** The tables [CSL.LANGS] and [CSL.LANG_BASES] of citeproc: the
        strings they hold under the locale ids and the base languages. *)
    CSL_LANGS : gmap string string;
    CSL_LANG_BASES : gmap string string;
    (** [new CSL.Engine(sys, styleText, lang)] for a style text: the value
        the constructor throws, if it throws, given the locales at hand and
        the engine it is to construct. *)
    newEngine : gmap string string → Engine → option Err;
    (** What the engine renders for the groups it is given, and the
        bibliography it makes, in its current state; either call may
        throw. *)
    renderCitations :
      gmap string string → Engine → list CitationGroup
      → outcome (list RenderedCitation);
    makeBibliography : gmap string string → Engine → outcome MakeBibResult;
    (** The child nodes of the body of a parsed HTML document, as markup. *)
    bodyChildNodes : string → list string }.

(** ** The manager and the state around it *)

Record BibManager : Type :=
  { fileCache : LRU.t TFile FileCache;
    langCache : gmap string string;
    styleCache : gmap string string;
    bibCache : gmap string PartialCSLEntry;
    fuse : option Fuse;
    engine : option Engine }.

(** The manager, the plugin settings, the front matter the metadata cache
    holds for each file, and the next unused DOM node identity. *)
Record World : Type :=
  { manager : BibManager;
    pluginSettings : PluginSettings;
    metadataCache : TFile → option Frontmatter;
    nextNode : nat }.

(** [new BibManager(plugin)]. *)
Definition newBibManager : BibManager :=
  {| fileCache := LRU.create 10; langCache := ∅; styleCache := ∅;
     bibCache := ∅; fuse := None; engine := None |}.

Definition set_fileCache (c : LRU.t TFile FileCache) (m : BibManager) : BibManager :=
  {| fileCache := c; langCache := langCache m; styleCache := styleCache m;
     bibCache := bibCache m; fuse := fuse m; engine := engine m |}.

Definition set_langCache (c : gmap string string) (m : BibManager) : BibManager :=
  {| fileCache := fileCache m; langCache := c; styleCache := styleCache m;
     bibCache := bibCache m; fuse := fuse m; engine := engine m |}.

Definition set_styleCache (c : gmap string string) (m : BibManager) : BibManager :=
  {| fileCache := fileCache m; langCache := langCache m; styleCache := c;
     bibCache := bibCache m; fuse := fuse m; engine := engine m |}.

Definition set_engine (e : option Engine) (m : BibManager) : BibManager :=
  {| fileCache := fileCache m; langCache := langCache m;
     styleCache := styleCache m; bibCache := bibCache m; fuse := fuse m;
     engine := e |}.

Definition set_manager (m : BibManager) (w : World) : World :=
  {| manager := m; pluginSettings := pluginSettings w;
     metadataCache := metadataCache w; nextNode := nextNode w |}.

Definition set_nextNode (n : nat) (w : World) : World :=
  {| manager := manager w; pluginSettings := pluginSettings w;
     metadataCache := metadataCache w; nextNode := n |}.

(** ** Computations: state, thrown values and the events of a call *)

Record Result (A : Type) : Type :=
  { out : outcome A; post : World; trace : list Event }.
Arguments out {A} r.
Arguments post {A} r.
Arguments trace {A} r.

Definition M (A : Type) : Type := World → Result A.

Definition ret {A} (a : A) : M A :=
  λ w, {| out := Ret a; post := w; trace := [] |}.

Definition throw {A} (e : Err) : M A :=
  λ w, {| out := Throw e; post := w; trace := [] |}.

Definition bind {A B} (m : M A) (f : A → M B) : M B :=
  λ w,
    match m w with
    | {| out := Ret a; post := w1; trace := t1 |} =>
        match f a w1 with
        | {| out := o; post := w2; trace := t2 |} =>
            {| out := o; post := w2; trace := t1 ++ t2 |}
        end
    | {| out := Throw e; post := w1; trace := t1 |} =>
        {| out := Throw e; post := w1; trace := t1 |}
    end.

(** [try { m } catch (e) { h e }]. *)
Definition try_catch {A} (m : M A) (h : Err → M A) : M A :=
  λ w,
    match m w with
    | {| out := Ret a; post := w1; trace := t1 |} =>
        {| out := Ret a; post := w1; trace := t1 |}
    | {| out := Throw e; post := w1; trace := t1 |} =>
        match h e w1 with
        | {| out := o; post := w2; trace := t2 |} =>
            {| out := o; post := w2; trace := t1 ++ t2 |}
        end
    end.

Definition emit (ev : Event) : M unit :=
  λ w, {| out := Ret tt; post := w; trace := [ev] |}.

Definition gets {A} (f : World → A) : M A :=
  λ w, {| out := Ret (f w); post := w; trace := [] |}.

Definition modify (f : World → World) : M unit :=
  λ w, {| out := Ret tt; post := f w; trace := [] |}.

Definition modify_manager (f : BibManager → BibManager) : M unit :=
  modify (λ w, set_manager (f (manager w)) w).

(** A computation that reads the state and returns or throws. *)
Definition lift {A} (f : World → outcome A) : M A :=
  λ w, {| out := f w; post := w; trace := [] |}.

Notation "'let*' x ':=' m 'in' k" := (bind m (λ x, k))
  (at level 10, x pattern, m at level 100, k at level 200).

(** ** The program *)

(** The argument of [loadStyles] and [getLangAndStyle]. *)
Record StyleRef : Type :=
  { style_id : option string; explicitPath : option string }.

Definition default_style_url : string :=
  "https://raw.githubusercontent.com/citation-style-language/styles/master/apa.csl".

Definition dquote : ascii := "034"%char.

(** The text [locale=] followed by a double quote: the fixed part of the
    pattern in [extractRawLocales]. *)
Definition locale_attr : list ascii :=
  (list_ascii_of_string "locale=" ++ [dquote])%list.

Fixpoint strip_prefix (p l : list ascii) : option (list ascii) :=
  match p, l with
  | [], _ => Some l
  | a :: p', b :: l' => if Ascii.eqb a b then strip_prefix p' l' else None
  | _ :: _, [] => None
  end.

(** The characters before the next double quote, when there is one. *)
Fixpoint until_quote (l : list ascii) : option (list ascii) :=
  match l with
  | [] => None
  | c :: l' =>
      if Ascii.eqb c dquote then Some []
      else match until_quote l' with
           | Some inner => Some (c :: inner)
           | None => None
           end
  end.

(** The global match of [extractRawLocales]: every occurrence, from left to
    right, of [locale_attr], one or more characters other than the double
    quote, and a double quote.  [skip] counts the characters of the last
    match still to pass. *)
Fixpoint locale_matches (skip : nat) (l : list ascii) : list (list ascii) :=
  match l with
  | [] => []
  | _ :: l' =>
      match skip with
      | S k => locale_matches k l'
      | O =>
          match strip_prefix locale_attr l with
          | Some after =>
              match until_quote after with
              | Some (c :: inner) =>
                  (locale_attr ++ (c :: inner) ++ [dquote])%list
                    :: locale_matches (8 + length (c :: inner)) l'
              | _ => locale_matches 0 l'
              end
          | None => locale_matches 0 l'
          end
      end
  end.

(** Insertion of a key in an object used as a set, given by its keys in
    the order of their first insertion. *)
Definition add_key (k : string) (obj : list string) : list string :=
  if bool_decide (k ∈ obj) then obj else (obj ++ [k])%list.

(** The order of two keys that are array indices. *)
Definition index_le (a b : Z * string) : Prop := (a.1 ≤ b.1)%Z.

#[global] Instance index_le_dec a b : Decision (index_le a b).
Proof. unfold index_le. apply _. Defined.

(** [Object.keys(obj)]: the keys that are array indices first, in ascending
    order, then the other keys in the order of their insertion. *)
Definition object_keys (obj : list string) : list string :=
  ((merge_sort index_le
      (omap (λ k, (λ n, (n, k)) <$> JS.array_index k) obj)).*2
   ++ filter (λ k, JS.array_index k = None) obj)%list.

(** [obj[k] = true]: the key [__proto__] names the prototype of the object,
    and writing [true] to it adds no key. *)
Definition set_key (k : string) (obj : list string) : list string :=
  if bool_decide (k = "__proto__") then obj else add_key k obj.

Section Program.
Variable E : Env.

(** One turn of the loop of [normalizeLocales].  The tables are plain
    objects, so [CSL.LANGS[locale]] and [CSL.LANG_BASES[locale]] also read
    the members these inherit; such a member of [CSL.LANG_BASES] is truthy
    and has no method [split]. *)
Definition locale_step (obj : list string) (locale : string)
  : outcome (list string) :=
  let locale := JS.join "-" (take 2 (JS.split_on "-" locale)) in
  if JS.truthy_member (JS.get (CSL_LANGS E) locale)
  then Ret (set_key locale obj)
  else
    let locale := hd EmptyString (JS.split_on "-" locale) in
    match JS.get (CSL_LANG_BASES E) locale with
    | JS.Own base =>
        if JS.truthy base
        then Ret (set_key (JS.join "-" (JS.split_on "_" base)) obj)
        else Ret obj
    | JS.Inherited =>
        Throw "TypeError: CSL.LANG_BASES[locale].split is not a function"
    | JS.Undefined => Ret obj
    end.

Fixpoint locale_loop (locales : list string) (obj : list string)
  : outcome (list string) :=
  match locales with
  | [] => Ret obj
  | locale :: rest => and_then (locale_step obj locale) (locale_loop rest)
  end.

Definition normalizeLocales (locales : list string) : outcome (list string) :=
  and_then (locale_loop locales []) (λ obj, Ret (object_keys obj)).

Definition extractRawLocales (style : string) (localeName : option string)
  : outcome (list string) :=
  let locales := ["en-US"] in
  let locales :=
    match localeName with
    | Some n => if JS.truthy n then (locales ++ [n])%list else locales
    | None => locales
    end in
  let locales :=
    if JS.truthy style then
      fold_left
        (λ locales mtch,
           let vals :=
             JS.split_ws (string_of_list_ascii (drop 8 (removelast mtch))) in
           (locales ++ vals)%list)
        (locale_matches 0 (list_ascii_of_string style)) locales
    else locales in
  normalizeLocales locales.

(** [for (const styleStr of styles) langs = extractRawLocales(styleStr, lang)]:
    the value of [langs] after the loop. *)
Fixpoint style_locales (styles : list string) (lang : option string)
    (langs : list (option string)) : outcome (list (option string)) :=
  match styles with
  | [] => Ret langs
  | styleStr :: rest =>
      and_then (extractRawLocales styleStr lang)
        (λ locales, style_locales rest lang (map Some locales))
  end.

(** [frontmatter[key]?.trim()]: a value that is not a string has no method
    [trim], and the call throws. *)
Definition fm_trim (key : string) (value : option FmValue)
  : outcome (option string) :=
  match value with
  | None => Ret None
  | Some (FmString s) => Ret (Some (JS.trim s))
  | Some FmOther =>
      Throw ("TypeError: frontmatter." ++ key ++ "?.trim is not a function")
  end.

(** [a || b] where reading either may throw: [b] is read only when [a] is
    falsy. *)
Definition or_read (a b : outcome (option string)) : outcome (option string) :=
  and_then a (λ x, if JS.truthy_opt x then Ret x else b).

Definition getScopedSettings (w : World) (file : TFile)
  : outcome (option ScopedSettings) :=
  match metadataCache w file with
  | None => Ret None
  | Some frontmatter =>
      and_then (fm_trim "bibliography" (fm_bibliography frontmatter))
        (λ bibliography,
           and_then
             (or_read (fm_trim "csl" (fm_csl frontmatter))
                (fm_trim "citation-style" (fm_citation_style frontmatter)))
             (λ style,
                and_then
                  (or_read (fm_trim "lang" (fm_lang frontmatter))
                     (fm_trim "citation-language"
                        (fm_citation_language frontmatter)))
                  (λ lang,
                     let output :=
                       {| settings_bibliography := JS.or_undefined bibliography;
                          settings_style := JS.or_undefined style;
                          settings_lang := JS.or_undefined lang |} in
                     if (negb (JS.truthy_opt (settings_bibliography output))
                         && negb (JS.truthy_opt (settings_style output))
                         && negb (JS.truthy_opt (settings_lang output)))%bool
                     then Ret None
                     else Ret (Some output))))
  end.

(** The key under which a style document is kept: the explicit path when
    one is given, the id otherwise ([style.explicitPath ?? style.id]). *)
Definition style_key (id explicitPath : option string) : option string :=
  match explicitPath with
  | Some p => Some p
  | None => id
  end.

(** Modelled from the spec: [getCSLStyle] of [./helpers] is not part of the
    sources.  The spec has it fetch or read the document and memoize it under
    the explicit path when one is provided and under the id otherwise; a
    failure is not cached. *)
Definition getCSLStyle (id explicitPath : option string) : M string :=
  let* _ := emit (EvFetchStyle id explicitPath) in
  match fetchStyle E id explicitPath with
  | Ret doc =>
      let* _ :=
        match style_key id explicitPath with
        | Some k =>
            modify_manager (λ m, set_styleCache (<[k := doc]> (styleCache m)) m)
        | None => ret tt
        end in
      ret doc
  | Throw e => throw e
  end.

(** Modelled from the spec: [getCSLLocale] of [./helpers] is not part of the
    sources.  The spec has it fetch the locale document and memoize it under
    the locale id; a failure is not cached. *)
Definition getCSLLocale (lang : string) : M unit :=
  let* _ := emit (EvFetchLocale lang) in
  match fetchLocale E lang with
  | Ret doc => modify_manager (λ m, set_langCache (<[lang := doc]> (langCache m)) m)
  | Throw e => throw e
  end.

Fixpoint loadLangs (langs : list (option string)) : M unit :=
  match langs with
  | [] => ret tt
  | lang :: rest =>
      match lang with
      | Some l =>
          if JS.truthy l then
            let* cached := gets (λ w, langCache (manager w) !! l) in
            let* _ :=
              match cached with
              | Some _ => ret tt
              | None => getCSLLocale l
              end in
            loadLangs rest
          else loadLangs rest
      | None => loadLangs rest
      end
  end.

Fixpoint loadStyles (styles : list StyleRef) : M (list string) :=
  match styles with
  | [] => ret []
  | style :: rest =>
      if (negb (JS.truthy_opt (style_id style))
          && negb (JS.truthy_opt (explicitPath style)))%bool
      then loadStyles rest
      else
        let* cached :=
          gets (λ w,
                  match style_key (style_id style) (explicitPath style) with
                  | Some k => styleCache (manager w) !! k
                  | None => None
                  end) in
        match cached with
        | Some _ => loadStyles rest
        | None =>
            let* doc := getCSLStyle (style_id style) (explicitPath style) in
            let* res := loadStyles rest in
            ret (doc :: res)
        end
  end.

(** [buildEngine(lang, langCache, style, styleCache, bibCache)]: the
    constructor of the engine throws when [styleCache.get(style)] is
    [undefined], and it may throw for the style text it is given. *)
Definition buildEngine (lang : string) (langCache : gmap string string)
    (style : string) (styleCache : gmap string string)
    (bibCache : gmap string PartialCSLEntry) : outcome Engine :=
  match styleCache !! style with
  | None => Throw "citeproc-js error: unable to parse XML input"
  | Some text =>
      let engine :=
        {| eng_items := bibCache; eng_style := text; eng_lang := lang;
           eng_wrap_url_and_doi := true; eng_calls := [] |} in
      match newEngine E langCache engine with
      | Some e => Throw e
      | None => Ret engine
      end
  end.

(** [try { block } catch (e) { console.error(e); return this; }]: the left
    injection is the value returned from the enclosing function. *)
Definition guarded {A} (block : M A) : M (Source + A) :=
  try_catch
    (let* a := block in ret (inr a))
    (λ e, let* _ := emit (EvConsoleError e) in ret (inl SrcThis)).

(** The body of the first [try] of [loadScopedEngine]: the new values of
    [langs] and [style]. *)
Definition styleBlock (settings : ScopedSettings) (settingsStyle : string)
    (langs : list (option string)) : M (list (option string) * string) :=
  let isURL := JS.starts_with_http settingsStyle in
  let styleObj :=
    if isURL
    then {| style_id := Some settingsStyle; explicitPath := None |}
    else {| style_id := Some settingsStyle; explicitPath := Some settingsStyle |} in
  let* styles := loadStyles [styleObj] in
  let* langs := lift (λ _, style_locales styles (settings_lang settings) langs) in
  ret (langs, settingsStyle).

(** The body of the second [try]: the new value of [lang]. *)
Definition langBlock (settingsLang : string) (langs : list (option string))
  : M string :=
  let* _ := loadLangs langs in
  ret settingsLang.

(** The body of the third [try]: the new values of [bibCache] and [fuse]. *)
Definition bibBlock (settingsBibliography : string)
  : M (gmap string PartialCSLEntry * option Fuse) :=
  let* pathToPandoc := gets (λ w, pathToPandoc (pluginSettings w)) in
  let* _ := emit (EvBibToCSL settingsBibliography) in
  match bibToCSL E settingsBibliography pathToPandoc with
  | Ret bib =>
      let bibCache :=
        fold_left (λ m entry, <[entry_id entry := entry]> m) bib ∅ in
      ret (bibCache, Some bib)
  | Throw e => throw e
  end.

(** [if (settings.style) { try ... }]: the values of [langs] and [style]
    after it, or the value returned from the [catch]. *)
Definition style_step (settings : ScopedSettings)
    (langs : list (option string)) (style : string)
  : M (Source + (list (option string) * string)) :=
  match settings_style settings with
  | Some s =>
      if JS.truthy s then guarded (styleBlock settings s langs)
      else ret (inr (langs, style))
  | None => ret (inr (langs, style))
  end.

(** [if (settings.lang) { try ... }]. *)
Definition lang_step (settings : ScopedSettings)
    (langs : list (option string)) (lang : string) : M (Source + string) :=
  match settings_lang settings with
  | Some l =>
      if JS.truthy l then guarded (langBlock l langs) else ret (inr lang)
  | None => ret (inr lang)
  end.

(** [if (settings.bibliography) { try ... }]: the index made in the block
    is an index of the scope's own. *)
Definition bib_step (settings : ScopedSettings)
    (bibCache : gmap string PartialCSLEntry) (fuse : option FuseRef)
  : M (Source + (gmap string PartialCSLEntry * option FuseRef)) :=
  match settings_bibliography settings with
  | Some b =>
      if JS.truthy b
      then
        let* r := guarded (bibBlock b) in
        match r with
        | inl this => ret (inl this)
        | inr (bibCache, fuse) => ret (inr (bibCache, OwnFuse <$> fuse))
        end
      else ret (inr (bibCache, fuse))
  | None => ret (inr (bibCache, fuse))
  end.

Definition loadScopedEngine (settings : option ScopedSettings) : M Source :=
  let* _ := emit (EvLoadScopedEngine settings) in
  match settings with
  | None => ret SrcThis
  | Some settings =>
      let* pluginSettings := gets pluginSettings in
      let style := JS.nullish (cslStyleURL pluginSettings) default_style_url in
      let lang := JS.nullish (cslLang pluginSettings) "en-US" in
      let* bibCache := gets (λ w, bibCache (manager w)) in
      let* fuse :=
        gets (λ w, match fuse (manager w) with
                   | Some _ => Some GlobalFuse
                   | None => None
                   end) in
      let langs := [settings_lang settings] in
      let* r := style_step settings langs style in
      match r with
      | inl this => ret this
      | inr (langs, style) =>
          let* r := lang_step settings langs lang in
          match r with
          | inl this => ret this
          | inr lang =>
              let* r := bib_step settings bibCache fuse in
              match r with
              | inl this => ret this
              | inr (bibCache, fuse) =>
                  let* langCache := gets (λ w, langCache (manager w)) in
                  let* styleCache := gets (λ w, styleCache (manager w)) in
                  let* _ := emit (EvBuildEngine lang style) in
                  let* engine :=
                    lift (λ _, buildEngine lang langCache style styleCache
                                 bibCache) in
                  ret (SrcScoped bibCache fuse engine)
              end
          end
      end
  end.

(** [this.fileCache.has(file) ? this.fileCache.get(file) : null], and the
    same test followed by [get] in the query methods: a hit counts as a use
    of the entry. *)
Definition fileCache_get (file : TFile) : M (option FileCache) :=
  let* c := gets (λ w, fileCache (manager w)) in
  let '(v, c') := LRU.get file c in
  let* _ := modify_manager (set_fileCache c') in
  ret v.

Definition fileCache_set (file : TFile) (result : FileCache) : M unit :=
  modify_manager (λ m, set_fileCache (LRU.set file result (fileCache m)) m).

(** The view and editor updates of [dispatchResult] are outside the
    manager; the delivery itself is the event. *)
Definition dispatchResult (file : TFile) (result : FileCache) : M unit :=
  emit (EvDispatch file result).

(** [source.engine] and [source.bibCache]: read through the manager when
    the source is the manager. *)
Definition source_engine (source : Source) : M (option Engine) :=
  match source with
  | SrcThis => gets (λ w, engine (manager w))
  | SrcScoped _ _ engine => ret (Some engine)
  end.

Definition source_bibCache (source : Source)
  : M (gmap string PartialCSLEntry) :=
  match source with
  | SrcThis => gets (λ w, bibCache (manager w))
  | SrcScoped bibCache _ _ => ret bibCache
  end.

(** A call received by [source.engine] changes that object: in the manager
    when the source is the manager, in the source otherwise. *)
Definition engine_called (call : EngineCall) (source : Source) : M Source :=
  match source with
  | SrcThis =>
      let* _ :=
        modify_manager (λ m, set_engine (record_call call <$> engine m) m) in
      ret SrcThis
  | SrcScoped bibCache fuse engine =>
      ret (SrcScoped bibCache fuse (record_call call engine))
  end.

(** Modelled from the spec: [cite] of [src/parser/citeproc] is not part of
    the sources.  The spec gives the engine the capability
    [renderCitations(groups) -> RenderedCitation[]] and names the failure of
    the engine while it renders: the engine of [source] is called once on
    the groups.  The value is what the call renders or throws, with the
    source, whose engine is in the state after the call. *)
Definition cite (source : Source) (engine : Engine)
    (groups : list CitationGroup)
  : M (outcome (list RenderedCitation) * Source) :=
  let* locales := gets (λ w, langCache (manager w)) in
  let* _ := emit (EvCite groups) in
  let citations := renderCitations E locales engine groups in
  let* source := engine_called (CallCite groups) source in
  ret (citations, source).

(** [source.engine.makeBibliography()]: what the call returns or throws,
    with the source after the call. *)
Definition source_makeBibliography (source : Source)
  : M (outcome MakeBibResult * Source) :=
  let* engine := source_engine source in
  let* locales := gets (λ w, langCache (manager w)) in
  let* _ := emit EvMakeBibliography in
  let bib :=
    match engine with
    | Some engine => makeBibliography E locales engine
    | None => Ret BibAbsent
    end in
  let* source := engine_called CallMakeBibliography source in
  ret (bib, source).

(** [new DOMParser().parseFromString(html, 'text/html').body.childNodes]:
    every node of the parsed document is a new object. *)
Definition parseFromString (html : string) : M (list DomNode) :=
  let* _ := emit (EvDomParse html) in
  let children := bodyChildNodes E html in
  let* n := gets nextNode in
  let* _ := modify (set_nextNode (n + length children)) in
  ret (imap (λ i h, {| node_ref := n + i; node_html := h |}) children).

(** The first loop of [getReferenceList]: the non-empty ids of all groups. *)
Definition collect_keys (processed : list CitationGroup) : gset string :=
  fold_left
    (λ citeKeys p,
       fold_left
         (λ citeKeys c,
            if JS.truthy (cit_id c) then {[cit_id c]} ∪ citeKeys else citeKeys)
         (citations p) citeKeys)
    processed ∅.

(** [citeKeys.forEach] over the lookup: the two sets after the loop. *)
Definition partition_keys (bibCache : gmap string PartialCSLEntry)
    (citeKeys : gset string) : gset string * gset string :=
  (filter (λ k, is_Some (bibCache !! k)) citeKeys,
   filter (λ k, ¬ is_Some (bibCache !! k)) citeKeys).

(** [s.citations.every(...)] with its additions to the two sets; the walk
    stops at the first citation that does not resolve. *)
Fixpoint every_resolved (bibCache : gmap string PartialCSLEntry)
    (cs : list Citation) (sets : gset string * gset string)
  : bool * (gset string * gset string) :=
  match cs with
  | [] => (true, sets)
  | c :: cs' =>
      match bibCache !! cit_id c with
      | Some _ => every_resolved bibCache cs' ({[cit_id c]} ∪ sets.1, sets.2)
      | None => (false, (sets.1, {[cit_id c]} ∪ sets.2))
      end
  end.

(** [processed.filter(...)]: the groups kept and the two sets after it. *)
Fixpoint filter_groups (bibCache : gmap string PartialCSLEntry)
    (processed : list CitationGroup) (sets : gset string * gset string)
  : list CitationGroup * (gset string * gset string) :=
  match processed with
  | [] => ([], sets)
  | s :: rest =>
      let '(resolved, sets) := every_resolved bibCache (citations s) sets in
      let '(filtered, sets) := filter_groups bibCache rest sets in
      (if resolved then s :: filtered else filtered, sets)
  end.

(** [settings?.field] and [cachedDoc?.settings?.field]. *)
Definition field {A} (f : ScopedSettings → option A)
    (settings : option ScopedSettings) : option A :=
  match settings with Some s => f s | None => None end.

Definition cached_settings (cachedDoc : option FileCache)
  : option ScopedSettings :=
  match cachedDoc with Some d => settings d | None => None end.

Definition areSettingsEqual (settings : option ScopedSettings)
    (cachedDoc : option FileCache) : bool :=
  (bool_decide (field settings_bibliography settings
                = field settings_bibliography (cached_settings cachedDoc))
   && bool_decide (field settings_style settings
                   = field settings_style (cached_settings cachedDoc))
   && bool_decide (field settings_lang settings
                   = field settings_lang (cached_settings cachedDoc)))%bool.

(** The closure [setNull] of [getReferenceList], with the variables it
    captures. *)
Definition setNull (file : TFile) (citeKeys resolvedKeys unresolvedKeys : gset string)
    (citeBibMap : gmap string string) (source : Source) : M (option DomNode) :=
  let result :=
    {| keys := citeKeys; resolvedKeys := resolvedKeys;
       unresolvedKeys := unresolvedKeys; bib := None; fc_citations := [];
       citeBibMap := citeBibMap; settings := None; source := source |} in
  let* _ := fileCache_set file result in
  let* _ := dispatchResult file result in
  ret None.

(** [metadata.entry_ids?.forEach((e, i) => citeBibMap.set(e[0], entries[i]))].
    An entry written with the value [undefined] reads like a missing one; an
    empty [e] writes under the key [undefined], which no cite key reads. *)
Definition fill_citeBibMap (entry_ids : option (list (list string)))
    (entries : list string) : gmap string string :=
  match entry_ids with
  | None => ∅
  | Some ids =>
      fold_left
        (λ m ie,
           match ie.2 with
           | k :: _ =>
               match entries !! ie.1 with
               | Some html => <[k := html]> m
               | None => delete k m
               end
           | [] => m
           end)
        (imap pair ids) ∅
  end.

(** The source that the pass works with: the cached one, or a new one. *)
Definition select_source (settings : option ScopedSettings)
    (cachedDoc : option FileCache) : M Source :=
  match cachedDoc with
  | Some d =>
      if areSettingsEqual settings cachedDoc then ret (source d)
      else loadScopedEngine settings
  | None => loadScopedEngine settings
  end.

(** [cachedDoc && equal(cachedDoc.citations, citations) && areSettingsEqual]. *)
Definition unchanged (cachedDoc : option FileCache)
    (citations : list RenderedCitation) (areSettingsEqual : bool) : bool :=
  match cachedDoc with
  | Some d => (equal (fc_citations d) citations && areSettingsEqual)%bool
  | None => false
  end.

Definition cached_bib (cachedDoc : option FileCache) : option DomNode :=
  match cachedDoc with Some d => bib d | None => None end.

(** The cached entry and the pass hold the same source object: the state
    the engine is left in by the pass is the state of the cached source. *)
Definition with_source (s : Source) (d : FileCache) : FileCache :=
  {| keys := keys d; resolvedKeys := resolvedKeys d;
     unresolvedKeys := unresolvedKeys d; bib := bib d;
     fc_citations := fc_citations d; citeBibMap := citeBibMap d;
     settings := settings d; source := s |}.

Definition fileCache_share_source (file : TFile) (s : Source) : M unit :=
  modify_manager
    (λ m, set_fileCache (LRU.update file (with_source s) (fileCache m)) m).

(** A pass that took its source from the cached entry works on the object
    the entry holds: after a call on the engine of the source, the cached
    source is in the state the call has left. *)
Definition commit_source (file : TFile) (cachedDoc : option FileCache)
    (areSettingsEqual : bool) (source : Source) : M unit :=
  match cachedDoc with
  | Some _ =>
      if areSettingsEqual then fileCache_share_source file source else ret tt
  | None => ret tt
  end.

(** The scope of a pass of [getReferenceList]: the cached entry of the
    file, the settings the file declares, and the source the pass works
    with ([cachedDoc], [settings] and [source] in the function). *)
Definition pass_scope (file : TFile)
  : M (option FileCache * option ScopedSettings * Source) :=
  let* cachedDoc := fileCache_get file in
  let* settings := lift (λ w, getScopedSettings w file) in
  let* source := select_source settings cachedDoc in
  ret (cachedDoc, settings, source).

(** [getReferenceList(file, content)], once the two init promises have
    resolved. *)
Definition getReferenceList (file : TFile) (content : string)
  : M (option DomNode) :=
  let segs := getCitationSegments E content in
  let processed := map (getCitations E) segs in
  match processed with
  | [] => ret None
  | _ :: _ =>
      let* (cachedDoc, settings, source) := pass_scope file in
      let citeKeys := collect_keys processed in
      let areSettingsEqual := areSettingsEqual settings cachedDoc in
      let* engine := source_engine source in
      match engine with
      | None => setNull file citeKeys ∅ ∅ ∅ source
      | Some engine =>
          let* bibCache := source_bibCache source in
          let '(filtered, (resolvedKeys, unresolvedKeys)) :=
            filter_groups bibCache processed (partition_keys bibCache citeKeys) in
          let* (rendered, source) := cite source engine filtered in
          let* _ := commit_source file cachedDoc areSettingsEqual source in
          let* citations := lift (λ _, rendered) in
          if unchanged cachedDoc citations areSettingsEqual
          then ret (cached_bib cachedDoc)
          else
            let* (made, source) := source_makeBibliography source in
            let* _ := commit_source file cachedDoc areSettingsEqual source in
            let* bib := lift (λ _, made) in
            match bib with
            | BibAbsent =>
                setNull file citeKeys resolvedKeys unresolvedKeys ∅ source
            | BibPair metadata entries =>
                let citeBibMap := fill_citeBibMap (entry_ids metadata) entries in
                let htmlStr :=
                  ([bibstart metadata] ++ entries ++ [bibend metadata])%list in
                let* parsed :=
                  match entries with
                  | [] => ret None
                  | _ :: _ =>
                      let* nodes :=
                        parseFromString (JS.join EmptyString htmlStr) in
                      ret (head nodes)
                  end in
                let result :=
                  {| keys := citeKeys; resolvedKeys := resolvedKeys;
                     unresolvedKeys := unresolvedKeys; bib := parsed;
                     fc_citations := citations; citeBibMap := citeBibMap;
                     settings := settings; source := source |} in
                let* _ := fileCache_set file result in
                let* _ := dispatchResult file result in
                ret parsed
            end
      end
  end.

(** [getNoteForNoteIndex(file, index)]. *)
Definition getNoteForNoteIndex (file : TFile) (index : string)
  : M (option (list DomNode)) :=
  let* cache := fileCache_get file in
  match cache with
  | None => ret None
  | Some cache =>
      let noteIndex := JS.parseInt index in
      let cite :=
        find
          (λ c, match rc_noteIndex c with
                | Some a => JS.strict_eq a noteIndex
                | None => false
                end)
          (fc_citations cache) in
      match cite with
      | None =>
          throw "TypeError: Cannot read properties of undefined (reading 'note')"
      | Some cite =>
          if negb (JS.truthy_opt (rc_note cite)) then ret None
          else
            let* nodes := parseFromString (default EmptyString (rc_note cite)) in
            ret (Some nodes)
      end
  end.

(** [getBibForCiteKey(file, key)]. *)
Definition getBibForCiteKey (file : TFile) (key : string)
  : M (option DomNode) :=
  let* cache := fileCache_get file in
  match cache with
  | None => ret None
  | Some cache =>
      if bool_decide (key ∈ keys cache) then
        match citeBibMap cache !! key with
        | Some html =>
            if JS.truthy html then
              let* nodes := parseFromString html in
              ret (head nodes)
            else ret None
        | None => ret None
        end
      else ret None
  end.

(** [getCacheForPath], for the file found at the path. *)
Definition getCacheForPath (file : TFile) : M (option FileCache) :=
  fileCache_get file.

(** [getResolution], for the file found at the path. *)
Definition getResolution (file : TFile) (key : string) : M (bool * bool) :=
  let* cache := fileCache_get file in
  match cache with
  | Some cache =>
      ret (bool_decide (key ∈ resolvedKeys cache),
           bool_decide (key ∈ unresolvedKeys cache))
  | None => ret (false, false)
  end.

(** [reinit(clearCache)]: the resolution cache is emptied.  The loaders of
    the global bibliography that run next are not embedded; they leave the
    other fields of the manager in some state, given here as [loaded]. *)
Definition reinit (loaded : BibManager) : M unit :=
  modify_manager (λ m, set_fileCache (LRU.clear (fileCache m)) loaded).

End Program.

(** ** What a pass works with, and runs of calls *)

Section Observations.
Variable E : Env.

(** The citation groups [getReferenceList] extracts from the text. *)
Definition processed_of (content : string) : list CitationGroup :=
  map (getCitations E) (getCitationSegments E content).

(** The source, the engine and the lookup that a pass on [file] started in
    [w] works with. *)
Definition pass_source (file : TFile) (w : World) : option Source :=
  match out (pass_scope E file w) with
  | Ret (_, _, s) => Some s
  | Throw _ => None
  end.

Definition pass_engine (file : TFile) (w : World) : option Engine :=
  match pass_source file w with
  | Some s =>
      match out (source_engine s (post (pass_scope E file w))) with
      | Ret e => e
      | Throw _ => None
      end
  | None => None
  end.

Definition pass_bibCache (file : TFile) (w : World)
  : gmap string PartialCSLEntry :=
  match pass_source file w with
  | Some s =>
      match out (source_bibCache s (post (pass_scope E file w))) with
      | Ret b => b
      | Throw _ => ∅
      end
  | None => ∅
  end.

(** The outcome of the walk over the groups in that pass: the groups kept
    for rendering and the two key sets. *)
Definition pass_partition (file : TFile) (content : string) (w : World)
  : list CitationGroup * (gset string * gset string) :=
  let bibCache := pass_bibCache file w in
  filter_groups bibCache (processed_of content)
    (partition_keys bibCache (collect_keys (processed_of content))).

(** The calls made on a manager, and an edit of a file's front matter. *)
Inductive Op : Type :=
  | OpGetReferenceList (file : TFile) (content : string)
  | OpGetNoteForNoteIndex (file : TFile) (index : string)
  | OpGetBibForCiteKey (file : TFile) (key : string)
  | OpGetResolution (file : TFile) (key : string)
  | OpGetCacheForPath (file : TFile)
  | OpReinit (loaded : BibManager)
  | OpFrontmatter (file : TFile) (frontmatter : option Frontmatter).

Definition set_frontmatter (file : TFile) (fm : option Frontmatter)
    (w : World) : World :=
  {| manager := manager w; pluginSettings := pluginSettings w;
     metadataCache := λ f, if decide (f = file) then fm else metadataCache w f;
     nextNode := nextNode w |}.

Definition step (op : Op) (w : World) : World :=
  match op with
  | OpGetReferenceList file content => post (getReferenceList E file content w)
  | OpGetNoteForNoteIndex file index => post (getNoteForNoteIndex E file index w)
  | OpGetBibForCiteKey file key => post (getBibForCiteKey E file key w)
  | OpGetResolution file key => post (getResolution file key w)
  | OpGetCacheForPath file => post (getCacheForPath file w)
  | OpReinit loaded => post (reinit loaded w)
  | OpFrontmatter file fm => set_frontmatter file fm w
  end.

Definition run (ops : list Op) (w : World) : World :=
  fold_left (λ w op, step op w) ops w.

End Observations.

(** ** Citations of a section *)

(** [Loc] and [SectionCache] of the application, and what
    [app.metadataCache.getCache(path)] returns when it is not null: the
    fields [getCitationsForSection] reads. *)
Record Loc : Type := { loc_line : nat; loc_offset : nat }.

Record SectionCache : Type := { pos_start : Loc; pos_end : Loc }.

Record CachedMetadata : Type := { sections : option (list SectionCache) }.

(** [s.position.start.line === lineStart && s.position.end.line === lineEnd]. *)
Definition section_has_lines (lineStart lineEnd : nat) (s : SectionCache)
  : bool :=
  (Nat.eqb (loc_line (pos_start s)) lineStart
   && Nat.eqb (loc_line (pos_end s)) lineEnd)%bool.

(** [c.from >= startOffset && c.to <= endOffset]. *)
Definition within (startOffset endOffset : nat) (c : RenderedCitation) : Prop :=
  startOffset ≤ rc_from c ∧ rc_to c ≤ endOffset.

#[global] Instance within_dec startOffset endOffset c :
  Decision (within startOffset endOffset c).
Proof. unfold within. apply _. Defined.

(** [getCitationsForSection(filePath, lineStart, lineEnd)], for the file
    found at the path; [getCache] is [app.metadataCache.getCache].  The
    metadata is read without a test for null. *)
Definition getCitationsForSection (getCache : string → option CachedMetadata)
    (file : TFile) (lineStart lineEnd : nat) : M (list RenderedCitation) :=
  let* cache := fileCache_get file in
  match cache with
  | Some cache =>
      match getCache file with
      | None =>
          throw "TypeError: Cannot read properties of null (reading 'sections')"
      | Some mCache =>
          let section :=
            match sections mCache with
            | Some ss => find (section_has_lines lineStart lineEnd) ss
            | None => None
            end in
          match section with
          | None => ret []
          | Some section =>
              let startOffset := loc_offset (pos_start section) in
              let endOffset := loc_offset (pos_end section) in
              ret (filter (within startOffset endOffset) (fc_citations cache))
          end
      end
  | None => ret []
  end.

(** ** The global bibliography from Zotero *)

Record ZoteroGroup : Type := { group_id : string }.

(** The plugin settings that only the loader of the Zotero bibliography
    reads, beside [cslStyleURL] and [cslLang]. *)
Record ZoteroSettings : Type :=
  { zoteroGroups : option (list ZoteroGroup);
    zoteroPort : string;
    cslStylePath : option string }.

(** [getZBib(port, cacheDir, groupId)] of [./helpers], for the cache
    directory of the plugin: the entries of a group (or no list at all), or
    a failure. *)
Definition ZBib : Type :=
  string → string → outcome (option (list PartialCSLEntry)).

(** The collection that the index of a scope holds, read in the state of
    the manager [m]: an index shared with the manager holds what the index
    of the manager holds. *)
Definition fuse_data (m : BibManager) (f : option FuseRef) : option Fuse :=
  match f with
  | Some GlobalFuse => fuse m
  | Some (OwnFuse data) => Some data
  | None => None
  end.

Definition set_bibCache (c : gmap string PartialCSLEntry) (m : BibManager)
  : BibManager :=
  {| fileCache := fileCache m; langCache := langCache m;
     styleCache := styleCache m; bibCache := c; fuse := fuse m;
     engine := engine m |}.

Definition set_fuse (f : option Fuse) (m : BibManager) : BibManager :=
  {| fileCache := fileCache m; langCache := langCache m;
     styleCache := styleCache m; bibCache := bibCache m; fuse := f;
     engine := engine m |}.

(** [setFuse(data)]: a new index over [data] when the manager has none, or
    the collection of its index replaced by [data]; in either case the
    manager has one index, which holds [data]. *)
Definition setFuse (data : list PartialCSLEntry) : M unit :=
  modify_manager (set_fuse (Some data)).

Section Loaders.
Variable E : Env.
Variable getZBib : ZBib.

(** [getLangAndStyle(lang, style)].  The value tells whether a handler has
    called [this.initPromise.resolve()]; the promise is not a field of
    [BibManager] here. *)
Definition getLangAndStyle (lang : string) (style : StyleRef) : M bool :=
  let* cached :=
    gets (λ w, match style_id style with
               | Some id => styleCache (manager w) !! id
               | None => None
               end) in
  let* r :=
    match cached with
    | Some _ => ret (inr [])
    | None =>
        try_catch
          (let* styles := loadStyles E [style] in ret (inr styles))
          (λ e, let* _ := emit (EvConsoleError e) in ret (inl tt))
    end in
  match r with
  | inl _ => ret true
  | inr styles =>
      let* locales :=
        lift (λ _, style_locales E styles (Some lang) [Some lang]) in
      try_catch
        (let* _ := loadLangs E locales in ret false)
        (λ e, let* _ := emit (EvConsoleError e) in ret true)
  end.

(** The loop over the groups in [loadGlobalZBib]: the entries of all
    groups, or nothing when the function returns from inside the loop. *)
Fixpoint fetch_groups (port : string) (groups : list ZoteroGroup)
    (bib : list PartialCSLEntry) : M (option (list PartialCSLEntry)) :=
  match groups with
  | [] => ret (Some bib)
  | group :: rest =>
      match getZBib port (group_id group) with
      | Ret (Some (entry :: entries)) =>
          fetch_groups port rest (bib ++ entry :: entries)
      | Ret _ => ret None
      | Throw e => let* _ := emit (EvConsoleError e) in ret None
      end
  end.

(** [this.bibCache = new Map()], the loop that fills it, and
    [this.setFuse(bib)]. *)
Definition replace_bibliography (bib : list PartialCSLEntry) : M unit :=
  let* _ :=
    modify_manager
      (set_bibCache
         (fold_left (λ m entry, <[entry_id entry := entry]> m) bib ∅)) in
  setFuse bib.

(** The first part of [loadGlobalZBib], for a list of groups that is not
    empty: [false] when the function returns from it. *)
Definition load_groups (S : ZoteroSettings) (fromCache : bool)
    (groups : list ZoteroGroup) : M bool :=
  let* empty := gets (λ w, bool_decide (bibCache (manager w) = ∅)) in
  if (negb fromCache || empty)%bool then
    let* bib := fetch_groups (zoteroPort S) groups [] in
    match bib with
    | None => ret false
    | Some bib =>
        let* _ := replace_bibliography bib in
        ret true
    end
  else ret true.

(** The second part: the style and the locales are loaded, and the engine
    is built when the style is in the cache under its URL; the manager keeps
    the engine it has when the constructor throws.  The value is that of
    [getLangAndStyle]. *)
Definition load_style_and_engine (S : ZoteroSettings) : M bool :=
  let* settings := gets pluginSettings in
  let style := JS.nullish (cslStyleURL settings) default_style_url in
  let lang := JS.nullish (cslLang settings) "en-US" in
  let* resolved :=
    getLangAndStyle lang
      {| style_id := JS.or_else (cslStylePath S) (Some style);
         explicitPath := cslStylePath S |} in
  let* cached := gets (λ w, styleCache (manager w) !! style) in
  match cached with
  | None => ret resolved
  | Some _ =>
      let* m := gets manager in
      let* _ := emit (EvBuildEngine lang style) in
      let* engine :=
        lift (λ _, buildEngine E lang (langCache m) style (styleCache m)
                     (bibCache m)) in
      let* _ := modify_manager (set_engine (Some engine)) in
      ret resolved
  end.

(** [loadGlobalZBib(fromCache)]. *)
Definition loadGlobalZBib (S : ZoteroSettings) (fromCache : bool) : M bool :=
  match zoteroGroups S with
  | None | Some [] => ret false
  | Some groups =>
      let* loaded := load_groups S fromCache groups in
      if loaded then load_style_and_engine S else ret false
  end.

End Loaders.

(** ** The editor extension *)

(** The effects of a transaction, as far as [citeKeyCacheField] looks at
    them: [setCiteKeyCache.of(value)], or an effect of another type. *)
Inductive StateEffect : Type :=
  | SetCiteKeyCache (value : option FileCache)
  | OtherEffect.

(** [citeKeyCacheField.update(state, tr)], on the effects of [tr]. *)
Definition citeKeyCacheField_update (state : option FileCache)
    (effects : list StateEffect) : option FileCache :=
  fold_left
    (λ state e,
       match e with
       | SetCiteKeyCache value => value
       | OtherEffect => state
       end)
    effects state.

(** [citeKeyCacheField.create(state)]: [obsFile] is [obsView?.file], and
    [bibManager] tells whether [bibManagerField] holds the manager. *)
Definition citeKeyCacheField_create (obsFile : option TFile)
    (bibManager : bool) : M (option FileCache) :=
  match obsFile with
  | Some file => if bibManager then fileCache_get file else ret None
  | None => ret None
  end.

(** The transactions that the editor of [file] receives from the calls of
    [dispatchResult] among the events [t]: one for each result delivered
    for that file, with the one effect [setCiteKeyCache.of(result)]. *)
Definition dispatched_to (file : TFile) (t : list Event)
  : list (list StateEffect) :=
  omap
    (λ ev,
       match ev with
       | EvDispatch f result =>
           if decide (f = file) then Some [SetCiteKeyCache (Some result)]
           else None
       | _ => None
       end)
    t.

(** The state of the field of that editor after these transactions. *)
Definition editor_state (file : TFile) (state : option FileCache)
    (t : list Event) : option FileCache :=
  fold_left citeKeyCacheField_update (dispatched_to file t) state.

(** [s.includes(needle)], and [/needle/.test(s)] for a literal pattern. *)
Fixpoint includes (needle s : string) : bool :=
  (String.prefix needle s
   || match s with
      | EmptyString => false
      | String _ s' => includes needle s'
      end)%bool.

(** A range of the document: a visible range or a selection range. *)
Record Range : Type := { range_from : nat; range_to : nat }.

(** What [Decoration.mark] and [Decoration.replace] are given. *)
Inductive Decoration : Type :=
  | DecoMark (class : string) (attributes : list (string * string))
  | DecoReplace (cite : RenderedCitation) (sourcePath : option string).

(** A call [b.add(from, to, decoration)] on the range set builder. *)
Definition Added : Type := nat * nat * Decoration.

(** What [mkDeco] reads of the view: the text of the document between two
    positions ([view.state.sliceDoc]), the visible ranges, the fields
    [editorInfoField] (the info may be missing, and it may have no file),
    [citeKeyCacheField] and [editorLivePreviewField], the selection ranges,
    and the token classes of the syntax node at a position
    ([tree.resolveInner(pos, 1).type.prop(tokenClassNodeProp)]). *)
Record EditorView : Type :=
  { view_slice : nat → nat → string;
    visibleRanges : list Range;
    obsView : option (option TFile);
    citekeyCache : option FileCache;
    isLivePreview : bool;
    selection_ranges : list Range;
    nodeProps : nat → option string }.

Definition citeMark (citekey : string) (sourceFile : option string)
    (isResolved isUnresolved : bool) : Decoration :=
  let cls :=
    (["cm-pandoc-citation"; "pandoc-citation"]
     ++ (if isResolved then ["is-resolved"] else [])
     ++ (if isUnresolved then ["is-unresolved"] else []))%list in
  DecoMark (JS.join " " cls)
    [("data-citekey", citekey);
     ("data-source",
      match JS.or_undefined sourceFile with
      | Some s => s
      | None => EmptyString
      end)].

Definition citeMarkFormatting (type : string) : Decoration :=
  DecoMark ("cm-pandoc-citation-formatting " ++ type) [].

Definition citeMarkExtra (type : string) : Decoration :=
  DecoMark ("cm-pandoc-citation-extra " ++ type) [].

(** [citeDeco(cite, sourcePath)]: the replacement by a [CiteWidget]. *)
Definition citeDeco (cite : RenderedCitation) (sourcePath : option string)
  : Decoration :=
  DecoReplace cite sourcePath.

Definition onlyValType (segs : list Segment) : list (SegmentType * string) :=
  map (λ s, (seg_type s, seg_val s)) segs.

(** [nodeProps && ignoreListRegEx.test(nodeProps)]. *)
Definition ignored (props : option string) : bool :=
  match props with
  | Some p =>
      (JS.truthy p
       && (includes "code" p || includes "math" p || includes "templater" p
           || includes "hashtag" p))%bool
  | None => false
  end.

(** [!nodeProps?.includes('link')]. *)
Definition not_link (props : option string) : bool :=
  match props with Some p => negb (includes "link" p) | None => true end.

(** [citekeyCache?.resolvedKeys.has(k)] and the like, as a condition. *)
Definition cache_has (keys : FileCache → gset string)
    (cache : option FileCache) (k : string) : bool :=
  match cache with Some c => bool_decide (k ∈ keys c) | None => false end.

(** The test on one selection range in [mkDeco]. *)
Definition clear_of (start end_ : nat) (r : Range) : bool :=
  (negb ((range_from r <=? start) && (end_ <=? range_to r))
   && negb (((start <=? range_from r) && (range_from r <=? end_))
            || ((start <=? range_to r) && (range_to r <=? end_))))%bool.

(** [view.state.sliceDoc(from, to)]. *)
Definition sliceDoc (v : EditorView) (r : Range) : string :=
  view_slice v (range_from r) (range_to r).

(** [obsView?.file.path]. *)
Definition obsPath (v : EditorView) : outcome (option string) :=
  match obsView v with
  | None => Ret None
  | Some None =>
      Throw "TypeError: Cannot read properties of null (reading 'path')"
  | Some (Some file) => Ret (Some file)
  end.

(** A loop whose turns add decorations; a turn that throws ends it. *)
Fixpoint for_each {A} (f : A → outcome (list Added)) (l : list A)
  : outcome (list Added) :=
  match l with
  | [] => Ret []
  | x :: l' =>
      and_then (f x)
        (λ ds, and_then (for_each f l') (λ ds', Ret (ds ++ ds')%list))
  end.

Section Decorations.
Variable E : Env.
(** The string value of a member of the enumeration [SegmentType] of the
    parser. *)
Variable type_name : SegmentType → string.

(** The body of the [switch] on [part.type]. *)
Definition part_deco (v : EditorView) (from : nat) (part : Segment)
    (next : option Segment) : outcome (list Added) :=
  let start := from + seg_from part in
  let end_ := from + seg_to part in
  let props := nodeProps v start in
  match seg_type part with
  | SegKey =>
      let isUnresolved :=
        (not_link props
         && cache_has unresolvedKeys (citekeyCache v) (seg_val part))%bool in
      let isResolved := cache_has resolvedKeys (citekeyCache v) (seg_val part) in
      and_then (obsPath v)
        (λ path,
           Ret [(start, end_,
                 citeMark (seg_val part) path isResolved isUnresolved)])
  | SegAt =>
      let isUnresolved :=
        match next with
        | Some next =>
            (not_link props
             && cache_has unresolvedKeys (citekeyCache v) (seg_val next))%bool
        | None => false
        end in
      let isResolved :=
        match next with
        | Some next => cache_has resolvedKeys (citekeyCache v) (seg_val next)
        | None => false
        end in
      let classes :=
        ([type_name (seg_type part)]
         ++ (if isUnresolved then ["is-unresolved"] else [])
         ++ (if isResolved then ["is-resolved"] else []))%list in
      Ret [(start, end_, citeMarkFormatting (JS.join " " classes))]
  | SegCurlyBracket | SegBracket =>
      Ret [(start, end_, citeMarkFormatting (type_name (seg_type part)))]
  | SegSeparator | SegSuppressor | SegPrefix | SegSuffix | SegLocator
  | SegLocatorLabel | SegLocatorSuffix =>
      Ret [(start, end_, citeMarkExtra (type_name (seg_type part)))]
  end.

(** The loop over the parts of a match; it ends at the first part that
    lies in an ignored node. *)
Fixpoint parts_decos (v : EditorView) (from : nat) (parts : list Segment)
  : outcome (list Added) :=
  match parts with
  | [] => Ret []
  | part :: rest =>
      if ignored (nodeProps v (from + seg_from part)) then Ret []
      else
        and_then (part_deco v from part (head rest))
          (λ ds,
             and_then (parts_decos v from rest) (λ ds', Ret (ds ++ ds')%list))
  end.

(** The rendered citation that replaces the match in live preview. *)
Definition rendered_for (v : EditorView) (mtch : list Segment)
  : option RenderedCitation :=
  if isLivePreview v then
    match citekeyCache v with
    | Some cache =>
        find (λ c, bool_decide (onlyValType (rc_data c) = onlyValType mtch))
          (fc_citations cache)
    | None => None
    end
  else None.

(** One turn of the loop over the matches of a visible range. *)
Definition match_decos (v : EditorView) (from : nat) (mtch : list Segment)
  : outcome (list Added) :=
  match rendered_for v mtch with
  | Some rendered =>
      match head mtch, last mtch with
      | Some first, Some lst =>
          let start := seg_from first in
          let end_ := seg_to lst in
          if forallb (clear_of start end_) (selection_ranges v)
          then
            and_then (obsPath v)
              (λ path, Ret [(start, end_, citeDeco rendered path)])
          else parts_decos v from mtch
      | _, _ =>
          Throw "TypeError: Cannot read properties of undefined (reading 'from')"
      end
  | None => parts_decos v from mtch
  end.

(** [mkDeco(view)]: the decorations added to the builder, in order. *)
Definition mkDeco (v : EditorView) : outcome (list Added) :=
  for_each
    (λ r,
       let range := sliceDoc v r in
       let segments := getCitationSegments E range in
       for_each (match_decos v (range_from r)) segments)
    (visibleRanges v).

End Decorations.


(** ** Notions used in the statements *)

(** [m] keeps the property [P] of the state, whatever it returns. *)
Definition preserves {A} (P : World → Prop) (m : M A) : Prop :=
  ∀ w, P w → P (post (m w)).

(** [m] returns normally on every state. *)
Definition returns {A} (m : M A) : Prop :=
  ∀ w, ∃ a, out (m w) = Ret a.



(** The state after [this.fileCache.get(file)]: a cached entry of the file
    has become the most recently used one. *)
Definition touch (file : TFile) (w : World) : World :=
  set_manager
    (set_fileCache (LRU.get file (fileCache (manager w))).2 (manager w)) w.

(** The events of the rendering part of a pass. *)
Definition render_event (ev : Event) : Prop :=
  match ev with
  | EvCite _ | EvMakeBibliography | EvDomParse _ | EvDispatch _ _ => True
  | _ => False
  end.

(** The events of the construction of a scope. *)
Definition scope_event (ev : Event) : Prop :=
  match ev with
  | EvConsoleError _ | EvLoadScopedEngine _ | EvFetchStyle _ _
  | EvFetchLocale _ | EvBibToCSL _ | EvBuildEngine _ _ => True
  | _ => False
  end.

(** Field-wise agreement of the settings a file declares with the settings
    stored in a cached entry; an absent settings object has no field. *)
Definition settings_agree (current : option ScopedSettings) (d : FileCache)
  : Prop :=
  field settings_bibliography current = field settings_bibliography (settings d)
  ∧ field settings_style current = field settings_style (settings d)
  ∧ field settings_lang current = field settings_lang (settings d).

(** Every event of [m] satisfies [Q]. *)
Definition emits {A} (Q : Event → Prop) (m : M A) : Prop :=
  ∀ w, Forall Q (trace (m w)).

(** What the construction of a scope leaves alone: everything but the style
    and locale caches. *)
Definition scope_frame (w0 w : World) : Prop :=
  fileCache (manager w) = fileCache (manager w0)
  ∧ bibCache (manager w) = bibCache (manager w0)
  ∧ fuse (manager w) = fuse (manager w0)
  ∧ engine (manager w) = engine (manager w0)
  ∧ pluginSettings w = pluginSettings w0
  ∧ metadataCache w = metadataCache w0
  ∧ nextNode w = nextNode w0.

(** [source.engine] and [source.bibCache] in the state [w]. *)
Definition engine_of (s : Source) (w : World) : option Engine :=
  match s with
  | SrcThis => engine (manager w)
  | SrcScoped _ _ e => Some e
  end.

Definition bibCache_of (s : Source) (w : World)
  : gmap string PartialCSLEntry :=
  match s with
  | SrcThis => bibCache (manager w)
  | SrcScoped b _ _ => b
  end.

(** The source and the state once the engine of the source has received a
    call. *)
Definition called_source (call : EngineCall) (s : Source) : Source :=
  match s with
  | SrcThis => SrcThis
  | SrcScoped b f e => SrcScoped b f (record_call call e)
  end.

Definition called (call : EngineCall) (s : Source) (w : World) : World :=
  match s with
  | SrcThis =>
      set_manager
        (set_engine (record_call call <$> engine (manager w)) (manager w)) w
  | SrcScoped _ _ _ => w
  end.

(** The state after [this.fileCache.set(file, d)]. *)
Definition stored (file : TFile) (d : FileCache) (w : World) : World :=
  set_manager
    (set_fileCache (LRU.set file d (fileCache (manager w))) (manager w)) w.

(** The state in which the cached entry of the file holds the source [s]. *)
Definition shared (file : TFile) (s : Source) (w : World) : World :=
  set_manager
    (set_fileCache (LRU.update file (with_source s) (fileCache (manager w)))
       (manager w)) w.

(** The state once a pass that took its source from the cached entry of
    the file has left that source as [s]. *)
Definition committed (file : TFile) (cachedDoc : option FileCache)
    (areSettingsEqual : bool) (s : Source) (w : World) : World :=
  match cachedDoc with
  | Some _ => if areSettingsEqual then shared file s w else w
  | None => w
  end.

(** The result object that [setNull] builds. *)
Definition null_result (citeKeys resolvedKeys unresolvedKeys : gset string)
    (s : Source) : FileCache :=
  {| keys := citeKeys; resolvedKeys := resolvedKeys;
     unresolvedKeys := unresolvedKeys; bib := None; fc_citations := [];
     citeBibMap := ∅; settings := None; source := s |}.

(** The citation resolves against the lookup. *)
Definition resolves (bibCache : gmap string PartialCSLEntry) (c : Citation)
  : Prop :=
  is_Some (bibCache !! cit_id c).

#[global] Instance resolves_dec bibCache c : Decision (resolves bibCache c).
Proof. unfold resolves. apply _. Defined.

(** The walk of [every] over the citations [cs] comes to a citation with
    the id [k]: all citations before it resolve. *)
Definition walked (bibCache : gmap string PartialCSLEntry) (cs : list Citation)
    (k : string) : Prop :=
  ∃ pre c post, cs = (pre ++ c :: post)%list
                ∧ Forall (resolves bibCache) pre ∧ cit_id c = k.

(** The walk over some group comes to a citation with the id [k]. *)
Definition reached (bibCache : gmap string PartialCSLEntry)
    (processed : list CitationGroup) (k : string) : Prop :=
  ∃ g, g ∈ processed ∧ walked bibCache (citations g) k.

(** The ids of all citations of all groups. *)
Definition cited_ids (processed : list CitationGroup) : list string :=
  flat_map (λ g, map cit_id (citations g)) processed.

(** The first set holds only keys the lookup has, the second only keys it
    lacks. *)
Definition sets_sound (bibCache : gmap string PartialCSLEntry)
    (sets : gset string * gset string) : Prop :=
  (∀ k, k ∈ sets.1 → is_Some (bibCache !! k))
  ∧ (∀ k, k ∈ sets.2 → bibCache !! k = None).

(** The engine [e] as it is after the calls [calls]. *)
Definition with_calls (calls : list EngineCall) (e : Engine) : Engine :=
  {| eng_items := eng_items e; eng_style := eng_style e;
     eng_lang := eng_lang e;
     eng_wrap_url_and_doi := eng_wrap_url_and_doi e; eng_calls := calls |}.

(** What the engine renders for given groups does not depend on the calls
    it has received before (the spec has resolution be a pure function of
    the current inputs). *)
Definition render_stable (E : Env) : Prop :=
  ∀ locales e calls groups,
    renderCitations E locales (with_calls calls e) groups
    = renderCitations E locales e groups.

(** A step of the construction of the scope for [settings] throws [e] when
    [loadScopedEngine] is entered in the state [w]: the style load, the
    locale load after the style step, or the bibliography conversion after
    both. *)
Definition scope_step_throws (E : Env) (settings : ScopedSettings)
    (w : World) (e : Err) : Prop :=
  let style0 := JS.nullish (cslStyleURL (pluginSettings w)) default_style_url in
  let lang0 := JS.nullish (cslLang (pluginSettings w)) "en-US" in
  let langs0 := [settings_lang settings] in
  let r1 := style_step E settings langs0 style0 w in
  (∃ s, settings_style settings = Some s ∧ JS.truthy s = true
        ∧ out (styleBlock E settings s langs0 w) = Throw e)
  ∨ (∃ langs style l,
       out r1 = Ret (inr (langs, style))
       ∧ settings_lang settings = Some l ∧ JS.truthy l = true
       ∧ out (langBlock E l langs (post r1)) = Throw e)
  ∨ (∃ langs style lang b,
       out r1 = Ret (inr (langs, style))
       ∧ out (lang_step E settings langs lang0 (post r1)) = Ret (inr lang)
       ∧ settings_bibliography settings = Some b ∧ JS.truthy b = true
       ∧ out (bibBlock E b (post (lang_step E settings langs lang0 (post r1))))
         = Throw e).

(** The resolution cache has the capacity the constructor gives it and
    holds no more entries than that. *)
Definition cache_bounded (w : World) : Prop :=
  LRU.max (fileCache (manager w)) = 10
  ∧ LRU.size (fileCache (manager w)) ≤ 10.

(** The events in which the style engine is built or called. *)
Definition engine_event (ev : Event) : Prop :=
  match ev with
  | EvBuildEngine _ _ | EvCite _ | EvMakeBibliography => True
  | _ => False
  end.

Create HintDb monad.

(** ** Notions used in the further statements *)

(** A front matter value that is absent, or a string that is blank. *)
Definition blank (o : option FmValue) : Prop :=
  ∀ v, o = Some v → ∃ s, v = FmString s ∧ JS.trim s = EmptyString.

(** A settings field is absent, or a non-empty string without white space
    at either end. *)
Definition clean (o : option string) : Prop :=
  ∀ x, o = Some x → x ≠ EmptyString ∧ JS.trim x = x.

(** A locale id that [normalizeLocales] lets through: [CSL.LANGS] reads a
    truthy member under it, or it is the value of [CSL.LANG_BASES] for some
    base language with its underscores replaced. *)
Definition known_locale (E : Env) (k : string) : Prop :=
  JS.truthy_member (JS.get (CSL_LANGS E) k) = true
  ∨ ∃ b base, CSL_LANG_BASES E !! b = Some base ∧ JS.truthy base = true
              ∧ k = JS.join "-" (JS.split_on "_" base).

(** The turn of the loop of [normalizeLocales] for the locale [x] reads a
    member that [CSL.LANG_BASES] inherits: [CSL.LANGS] reads nothing truthy
    under the first two parts of [x], and the first part names a member of
    [Object.prototype] that [CSL.LANG_BASES] does not have of its own. *)
Definition reads_inherited_base (E : Env) (x : string) : Prop :=
  let locale := JS.join "-" (take 2 (JS.split_on "-" x)) in
  JS.truthy_member (JS.get (CSL_LANGS E) locale) = false
  ∧ JS.get (CSL_LANG_BASES E) (hd EmptyString (JS.split_on "-" locale))
    = JS.Inherited.

(** The style and locale caches of [w] hold every document those of [w0]
    hold. *)
Definition caches_grow (w0 w : World) : Prop :=
  styleCache (manager w0) ⊆ styleCache (manager w)
  ∧ langCache (manager w0) ⊆ langCache (manager w).

(** The lookup built from a list of entries: each entry under its id, a
    later entry replacing an earlier one with the same id. *)
Definition entries_by_id (bib : list PartialCSLEntry)
  : gmap string PartialCSLEntry :=
  fold_left (λ m entry, <[entry_id entry := entry]> m) bib ∅.

(** The engine [e] once it has received the calls [calls]. *)
Definition after_calls (calls : list EngineCall) (e : Engine) : Engine :=
  with_calls (eng_calls e ++ calls) e.

(** What a pass leaves of the global scope: the lookup, the index, the
    settings and the metadata stay, the document caches keep what they
    hold, and the global engine only receives calls. *)
Definition global_frame (w0 w : World) : Prop :=
  bibCache (manager w) = bibCache (manager w0)
  ∧ fuse (manager w) = fuse (manager w0)
  ∧ pluginSettings w = pluginSettings w0
  ∧ metadataCache w = metadataCache w0
  ∧ caches_grow w0 w
  ∧ ∃ calls, engine (manager w) = after_calls calls <$> engine (manager w0).

(** The manager of [w] holds for every file the entry the manager of [w0]
    holds for it, and the same documents, lookup, index and engine. *)
Definition same_entries (w0 w : World) : Prop :=
  (∀ f, LRU.peek f (fileCache (manager w))
        = LRU.peek f (fileCache (manager w0)))
  ∧ langCache (manager w) = langCache (manager w0)
  ∧ styleCache (manager w) = styleCache (manager w0)
  ∧ bibCache (manager w) = bibCache (manager w0)
  ∧ fuse (manager w) = fuse (manager w0)
  ∧ engine (manager w) = engine (manager w0).

(** In every cached entry the two key sets are disjoint. *)
Definition cache_sound (w : World) : Prop :=
  ∀ f d, LRU.peek f (fileCache (manager w)) = Some d →
         resolvedKeys d ## unresolvedKeys d.

(** No result is delivered in the events [t]. *)
Definition silent (t : list Event) : Prop := ∀ f d, EvDispatch f d ∉ t.

(** The citation carries the note index that [index] parses to. *)
Definition note_index_matches (index : string) (c : RenderedCitation) : Prop :=
  ∃ a, rc_noteIndex c = Some a ∧ JS.parseInt index = JS.Int a.

(** The first section of the file with the given lines, when the metadata
    of the file has one. *)
Definition section_of (getCache : string → option CachedMetadata)
    (file : TFile) (lineStart lineEnd : nat) : option SectionCache :=
  match getCache file with
  | Some mCache =>
      match sections mCache with
      | Some ss => find (section_has_lines lineStart lineEnd) ss
      | None => None
      end
  | None => None
  end.

(** The entries that [getZBib] gives for a group, when it gives any. *)
Definition group_entries (getZBib : ZBib) (port : string) (g : ZoteroGroup)
  : option (list PartialCSLEntry) :=
  match getZBib port (group_id g) with
  | Ret (Some (entry :: entries)) => Some (entry :: entries)
  | _ => None
  end.

(** The entries of all groups in order, when every group gives some. *)
Fixpoint all_entries (getZBib : ZBib) (port : string)
    (groups : list ZoteroGroup) : option (list PartialCSLEntry) :=
  match groups with
  | [] => Some []
  | g :: rest =>
      match group_entries getZBib port g, all_entries getZBib port rest with
      | Some l, Some ls => Some (l ++ ls)%list
      | _, _ => None
      end
  end.

(** ** A small vault to run the program on *)

Module Demo.

(** The no-break space U+00A0, in UTF-8. *)
Definition nbsp : string :=
  String (ascii_of_nat 194) (String (ascii_of_nat 160) EmptyString).

(** A stand-in for the parser: every word that starts with [@] is one
    group, its citations are the parts between semicolons, each a key after
    its [@]. *)
Definition demo_segments (content : string) : list (list Segment) :=
  map
    (λ word,
       flat_map
         (λ part,
            [ {| seg_type := SegAt; seg_val := "@"; seg_from := 0; seg_to := 0 |};
              {| seg_type := SegKey;
                 seg_val := String.substring 1 (String.length part - 1) part;
                 seg_from := 0; seg_to := 0 |} ])
         (JS.split_on ";" word))
    (filter (λ w, String.prefix "@" w = true) (JS.split_ws content)).

Definition demo_citations (segs : list Segment) : CitationGroup :=
  {| citations :=
       flat_map
         (λ s, match seg_type s with
               | SegKey =>
                   [ {| cit_id := seg_val s; cit_prefix := None;
                        cit_suffix := None; cit_locator := None;
                        cit_label := None; cit_suppress_author := false |} ]
               | _ => []
               end)
         segs;
     mode := InText;
     data := segs |}.

Definition demo_render (locales : gmap string string) (e : Engine)
    (groups : list CitationGroup) : outcome (list RenderedCitation) :=
  Ret (map
    (λ g,
       {| rc_citations := citations g;
          rc_val := JS.join "; " (map cit_id (citations g));
          rc_from := 0; rc_to := 0; rc_note := None; rc_noteIndex := None;
          rc_data := data g |})
    groups).

Definition last_cited (calls : list EngineCall) : list string :=
  fold_left
    (λ acc c,
       match c with
       | CallCite groups => flat_map (λ g, map cit_id (citations g)) groups
       | CallMakeBibliography => acc
       end)
    calls [].

(** A style without a bibliography section. *)
Definition bare_style : string := "<style><citation/></style>".

(** The bibliography lists the items of the last rendering; an engine
    whose style has no bibliography section makes none. *)
Definition demo_bibliography (locales : gmap string string) (e : Engine)
  : outcome MakeBibResult :=
  if bool_decide (eng_style e = bare_style) then Ret BibAbsent
  else
    let ids := last_cited (eng_calls e) in
    Ret (BibPair
           {| bibstart := "<div>"; bibend := "</div>";
              entry_ids := Some (map (λ i, [i]) ids) |}
           (map (λ i, "<p>" ++ i ++ "</p>") ids)).

Definition env : Env :=
  {| getCitationSegments := demo_segments;
     getCitations := demo_citations;
     fetchStyle :=
       λ id explicitPath,
         if bool_decide (id = Some "http://styles/apa.csl")
         then Ret "<style default-locale='en-US'/>"
         else Throw "style not found";
     fetchLocale :=
       λ l, if bool_decide (l = "en-US") then Ret "<locale/>"
            else Throw "locale not found";
     bibToCSL :=
       λ path pandoc,
         if bool_decide (path = "refs.bib")
         then Ret [ {| entry_id := "doe2000"; entry_title := None |} ]
         else Throw "pandoc failed";
     CSL_LANGS :=
       {[ "en-US" := "English (US)"; "fr-FR" := "French (France)" ]};
     CSL_LANG_BASES :=
       {[ "en" := "en_US"; "fr" := "fr_FR"; "de" := "de_DE" ]};
     newEngine := λ _ _, None;
     renderCitations := demo_render;
     makeBibliography := demo_bibliography;
     bodyChildNodes := λ html, [html] |}.

Definition smith : PartialCSLEntry :=
  {| entry_id := "smith99"; entry_title := Some "A title" |}.

Definition global_engine : Engine :=
  {| eng_items := {[ "smith99" := smith ]}; eng_style := "<style/>";
     eng_lang := "en-US"; eng_wrap_url_and_doi := true; eng_calls := [] |}.

(** A manager whose global bibliography is loaded. *)
Definition loaded : BibManager :=
  {| fileCache := LRU.create 10; langCache := {[ "en-US" := "<locale/>" ]};
     styleCache := {[ default_style_url := "<style/>" ]};
     bibCache := {[ "smith99" := smith ]}; fuse := Some [smith];
     engine := Some global_engine |}.

Definition no_settings : PluginSettings :=
  {| cslStyleURL := None; cslLang := None; pathToPandoc := "pandoc" |}.

Definition world (m : BibManager) (meta : TFile → option Frontmatter) : World :=
  {| manager := m; pluginSettings := no_settings; metadataCache := meta;
     nextNode := 0 |}.

Definition no_frontmatter : TFile → option Frontmatter := λ _, None.

Definition csl_frontmatter (csl : string) : TFile → option Frontmatter :=
  λ _, Some {| fm_bibliography := None; fm_csl := Some (FmString csl);
               fm_citation_style := None; fm_lang := None;
               fm_citation_language := None |}.

(** A manager whose global style has no bibliography section to make a
    bibliography from. *)
Definition loaded_without_style : BibManager :=
  {| fileCache := LRU.create 10; langCache := {[ "en-US" := "<locale/>" ]};
     styleCache := {[ default_style_url := bare_style ]};
     bibCache := {[ "smith99" := smith ]};
     fuse := Some [smith];
     engine :=
       Some {| eng_items := {[ "smith99" := smith ]}; eng_style := bare_style;
               eng_lang := "en-US"; eng_wrap_url_and_doi := true;
               eng_calls := [] |} |}.

(** The same collaborators with an engine whose bibliography has the
    metadata and no entry. *)
Definition env_without_entries : Env :=
  {| getCitationSegments := demo_segments;
     getCitations := demo_citations;
     fetchStyle := fetchStyle env;
     fetchLocale := fetchLocale env;
     bibToCSL := bibToCSL env;
     CSL_LANGS := CSL_LANGS env;
     CSL_LANG_BASES := CSL_LANG_BASES env;
     newEngine := newEngine env;
     renderCitations := demo_render;
     makeBibliography :=
       λ _ _, Ret (BibPair {| bibstart := "<div>"; bibend := "</div>";
                              entry_ids := Some [] |} []);
     bodyChildNodes := λ html, [html] |}.

(** A new manager, a manager with its global bibliography, and the latter
    with a file that declares a style that cannot be loaded. *)
Definition fresh : World := world newBibManager no_frontmatter.
Definition ready : World := world loaded no_frontmatter.
Definition unstyled : World := world loaded_without_style no_frontmatter.
Definition with_missing_style : World :=
  world loaded (csl_frontmatter "missing.csl").

Definition missing_style : ScopedSettings :=
  {| settings_style := Some "missing.csl"; settings_lang := None;
     settings_bibliography := None |}.

(** A file that declares a style that can be loaded. *)
Definition with_apa_style : World :=
  world loaded (csl_frontmatter "http://styles/apa.csl").

Definition apa_style : ScopedSettings :=
  {| settings_style := Some "http://styles/apa.csl"; settings_lang := None;
     settings_bibliography := None |}.

(** The entry cached for a file, when there is one. *)
Definition entry_of (file : TFile) (w : World) : FileCache :=
  default (null_result ∅ ∅ ∅ SrcThis)
    (LRU.peek file (fileCache (manager w))).

(** Ten passes, each on a file of its own. *)
Definition ten_files : list TFile :=
  ["f0"; "f1"; "f2"; "f3"; "f4"; "f5"; "f6"; "f7"; "f8"; "f9"].

Definition ten_passes : list Op :=
  map (λ f, OpGetReferenceList f "@smith99") ten_files.

(** A file that declares the style [apa.csl] between a blank and no-break
    spaces, and a file that declares a bibliography of its own. *)
Definition with_padded_style : World :=
  world loaded (csl_frontmatter (" " ++ nbsp ++ "apa.csl" ++ nbsp)).

Definition padded_style : ScopedSettings :=
  {| settings_style := Some "apa.csl"; settings_lang := None;
     settings_bibliography := None |}.

Definition doe : PartialCSLEntry :=
  {| entry_id := "doe2000"; entry_title := None |}.

Definition own_bibliography : ScopedSettings :=
  {| settings_style := None; settings_lang := None;
     settings_bibliography := Some "refs.bib" |}.

(** Front matter whose bibliography is a string, and front matter whose
    bibliography is a number. *)
Definition bibliography_frontmatter (value : FmValue)
  : TFile → option Frontmatter :=
  λ _, Some {| fm_bibliography := Some value; fm_csl := None;
               fm_citation_style := None; fm_lang := None;
               fm_citation_language := None |}.

(** A new manager for a file that declares a bibliography of its own: the
    style cache has no style to build an engine from. *)
Definition fresh_with_bibliography : World :=
  world newBibManager (bibliography_frontmatter (FmString "refs.bib")).

(** A new manager for a file whose style cannot be loaded, and the state
    after a first pass over that file. *)
Definition fresh_with_missing_style : World :=
  world newBibManager (csl_frontmatter "missing.csl").

Definition after_null_pass : World :=
  post (getReferenceList env "a.md" "@smith99" fresh_with_missing_style).

(** The state after a pass over [b.md], and after a pass over [a.md]. *)
Definition after_b : World :=
  post (getReferenceList env "b.md" "@smith99" ready).

Definition after_a : World :=
  post (getReferenceList env "a.md" "@smith99" ready).

(** Metadata with one section, on line 0, of ten characters. *)
Definition one_section : string → option CachedMetadata :=
  λ _, Some {| sections :=
                 Some [ {| pos_start := {| loc_line := 0; loc_offset := 0 |};
                           pos_end := {| loc_line := 0; loc_offset := 10 |} |} ] |}.

(** A Zotero that knows the group 1, and settings that ask for it. *)
Definition zotero : ZBib :=
  λ port group,
    if bool_decide (group = "1") then Ret (Some [smith])
    else Throw "Zotero is not running".

Definition group_one : ZoteroSettings :=
  {| zoteroGroups := Some [ {| group_id := "1" |} ]; zoteroPort := "23119";
     cslStylePath := None |}.

Definition group_one_local_style : ZoteroSettings :=
  {| zoteroGroups := Some [ {| group_id := "1" |} ]; zoteroPort := "23119";
     cslStylePath := Some "my.csl" |}.

(** A source view on the text of one citation, without a resolution
    result. *)
Definition type_name (t : SegmentType) : string :=
  match t with
  | SegKey => "key" | SegAt => "at" | SegBracket => "bracket"
  | SegCurlyBracket => "curlyBracket" | SegSeparator => "separator"
  | SegSuppressor => "suppressor" | SegPrefix => "prefix"
  | SegSuffix => "suffix" | SegLocator => "locator"
  | SegLocatorLabel => "locatorLabel" | SegLocatorSuffix => "locatorSuffix"
  end.

Definition source_view : EditorView :=
  {| view_slice := λ from to, String.substring from (to - from) "@smith99";
     visibleRanges := [ {| range_from := 0; range_to := 8 |} ];
     obsView := Some (Some "a.md");
     citekeyCache := None;
     isLivePreview := false;
     selection_ranges := [];
     nodeProps := λ _, None |}.

(** What [mkDeco] adds for that view. *)
Definition source_decorations : list Added :=
  match mkDeco env type_name source_view with
  | Ret ds => ds
  | Throw _ => []
  end.

End Demo.

(** * Properties *)

(** ** The string primitives on samples *)

Example trim_sample :
  JS.trim "  apa.csl " = "apa.csl"
  ∧ JS.trim (Demo.nbsp ++ " apa.csl" ++ Demo.nbsp) = "apa.csl"
  ∧ JS.trim (" " ++ Demo.nbsp) = EmptyString.
Proof. repeat split; reflexivity. Qed.

Example split_on_sample :
  JS.split_on "-" "en-GB-x" = ["en"; "GB"; "x"]
  ∧ JS.split_on "-" EmptyString = [EmptyString].
Proof. split; reflexivity. Qed.

Example split_ws_sample :
  JS.split_ws " en-US  fr" = [EmptyString; "en-US"; "fr"]
  ∧ JS.split_ws ("en-US" ++ Demo.nbsp ++ " fr") = ["en-US"; "fr"].
Proof. split; reflexivity. Qed.

Example parseInt_samples :
  JS.parseInt "12" = JS.Int 12 ∧ JS.parseInt " -7px" = JS.Int (-7)
  ∧ JS.parseInt "0x1f" = JS.Int 31 ∧ JS.parseInt "0x" = JS.NaN
  ∧ JS.parseInt "note" = JS.NaN
  ∧ JS.parseInt "9007199254740993" = JS.Int 9007199254740992.
Proof. repeat split; reflexivity. Qed.

(** The tables are read with the members they inherit: [constructor] is
    let through, and a locale whose base language is [toString] makes the
    function throw.  The keys of an object come with the array indices
    first. *)
Example normalizeLocales_sample :
  normalizeLocales Demo.env ["en-GB"; "constructor"; "fr-FR-x"]
  = Ret ["en-US"; "constructor"; "fr-FR"]
  ∧ object_keys ["en-US"; "10"; "2"; "02"] = ["2"; "10"; "en-US"; "02"]
  ∧ normalizeLocales Demo.env ["toString-x"]
    = Throw "TypeError: CSL.LANG_BASES[locale].split is not a function".
Proof. repeat split; vm_compute; reflexivity. Qed.

(** A style that names the locales fr-FR and de in its attributes, with an
    empty attribute and an unterminated one that do not match. *)
Example extractRawLocales_sample :
  let q := String dquote EmptyString in
  let style :=
    "<style default-locale=" ++ q ++ "fr-FR  de" ++ q ++ " locale=" ++ q ++ q
    ++ " locale=" ++ q ++ "en-GB" in
  extractRawLocales Demo.env style (Some "fr")
  = Ret ["en-US"; "fr-FR"; "de-DE"].
Proof. reflexivity. Qed.

Example getScopedSettings_sample :
  getScopedSettings (Demo.world Demo.loaded (Demo.csl_frontmatter " apa.csl "))
    "a.md"
  = Ret (Some {| settings_style := Some "apa.csl"; settings_lang := None;
                 settings_bibliography := None |})
  ∧ getScopedSettings (Demo.world Demo.loaded (Demo.csl_frontmatter "  "))
      "a.md" = Ret None.
Proof. split; reflexivity. Qed.

(** ** The least-recently-used cache *)

Section lru_facts.
Context {K V : Type} `{EqDecision K}.
Implicit Types (c : LRU.t K V) (k : K) (v : V) (l : list (K * V)).

Lemma remove_length k l : length (LRU.remove k l) ≤ length l.
Proof.
  induction l as [|[k' v'] l IH]; simpl; [lia|].
  destruct (decide (k' = k)); simpl; lia.
Qed.

Lemma remove_absent k l : k ∉ l.*1 → LRU.remove k l = l.
Proof.
  induction l as [|[k' v'] l IH]; simpl; [done|].
  intros Hk. apply not_elem_of_cons in Hk as [Hne Hk].
  destruct (decide (k' = k)); [congruence|]. by rewrite IH.
Qed.

Lemma assoc_remove_ne k k' l :
  k ≠ k' → LRU.assoc k' (LRU.remove k l) = LRU.assoc k' l.
Proof.
  intros Hne. induction l as [|[k0 v0] l IH]; simpl; [done|].
  destruct (decide (k0 = k)) as [->|].
  - destruct (decide (k = k')); [congruence|done].
  - simpl. by rewrite IH.
Qed.

Lemma assoc_update_eq k (f : V → V) l :
  LRU.assoc k (LRU.update_assoc k f l) = f <$> LRU.assoc k l.
Proof.
  induction l as [|[k0 v0] l IH]; simpl; [done|].
  destruct (decide (k0 = k)) as [->|Hne]; simpl.
  - by rewrite decide_True.
  - by rewrite decide_False.
Qed.

Lemma assoc_update_ne k k' (f : V → V) l :
  k ≠ k' → LRU.assoc k' (LRU.update_assoc k f l) = LRU.assoc k' l.
Proof.
  intros Hne. induction l as [|[k0 v0] l IH]; simpl; [done|].
  destruct (decide (k0 = k)) as [->|Hne']; simpl.
  - destruct (decide (k = k')); [congruence|done].
  - by rewrite IH.
Qed.

Lemma update_assoc_length k (f : V → V) l :
  length (LRU.update_assoc k f l) = length l.
Proof.
  induction l as [|[k0 v0] l IH]; simpl; [done|].
  destruct (decide (k0 = k)); simpl; congruence.
Qed.

Lemma update_assoc_keys k (f : V → V) l :
  (LRU.update_assoc k f l).*1 = l.*1.
Proof.
  induction l as [|[k0 v0] l IH]; [done|]. cbn [LRU.update_assoc].
  destruct (decide (k0 = k)); rewrite !fmap_cons; [done|]. by rewrite IH.
Qed.

Lemma update_assoc_twice k (f g : V → V) l :
  (∀ v, g (f v) = g v) →
  LRU.update_assoc k g (LRU.update_assoc k f l) = LRU.update_assoc k g l.
Proof.
  intros Hfg. induction l as [|[k' v] l IH]; [done|]. cbn [LRU.update_assoc].
  destruct (decide (k' = k)) as [->|Hne]; cbn [LRU.update_assoc].
  - rewrite decide_True by done. by rewrite Hfg.
  - rewrite decide_False by done. by rewrite IH.
Qed.

Lemma remove_update_assoc k (f : V → V) l :
  LRU.remove k (LRU.update_assoc k f l) = LRU.remove k l.
Proof.
  induction l as [|[k' v] l IH]; [done|]. cbn [LRU.update_assoc LRU.remove].
  destruct (decide (k' = k)) as [->|Hne]; cbn [LRU.remove].
  - by rewrite decide_True by done.
  - rewrite decide_False by done. by rewrite IH.
Qed.

Lemma size_create n : LRU.size (LRU.create n : LRU.t K V) = 0.
Proof. done. Qed.

Lemma size_clear c : LRU.size (LRU.clear c) = 0.
Proof. done. Qed.

Lemma size_set k v c : LRU.size (LRU.set k v c) ≤ LRU.max c.
Proof. unfold LRU.size, LRU.set; simpl. rewrite length_take. lia. Qed.

Lemma remove_length_lt k v l :
  LRU.assoc k l = Some v → length (LRU.remove k l) < length l.
Proof.
  induction l as [|[k0 v0] l IH]; simpl; [done|].
  destruct (decide (k0 = k)); simpl; intros Hk.
  - pose proof (remove_length k l). lia.
  - specialize (IH Hk). lia.
Qed.

Lemma size_get k c : LRU.size (LRU.get k c).2 ≤ LRU.size c.
Proof.
  unfold LRU.get, LRU.peek, LRU.size.
  destruct (LRU.assoc k (LRU.entries c)) eqn:Hk; simpl; [|lia].
  apply remove_length_lt in Hk. lia.
Qed.

Lemma size_update k (f : V → V) c : LRU.size (LRU.update k f c) = LRU.size c.
Proof. apply update_assoc_length. Qed.

Lemma max_set k v c : LRU.max (LRU.set k v c) = LRU.max c.
Proof. done. Qed.

Lemma max_get k c : LRU.max (LRU.get k c).2 = LRU.max c.
Proof. unfold LRU.get. by destruct (LRU.peek k c). Qed.

Lemma peek_set_eq k v c : 0 < LRU.max c → LRU.peek k (LRU.set k v c) = Some v.
Proof.
  unfold LRU.peek, LRU.set; simpl. destruct (LRU.max c); [lia|]. simpl.
  by rewrite decide_True.
Qed.

Lemma get_result k c : (LRU.get k c).1 = LRU.peek k c.
Proof. unfold LRU.get. by destruct (LRU.peek k c). Qed.

Lemma peek_get_eq k c : LRU.peek k (LRU.get k c).2 = LRU.peek k c.
Proof.
  unfold LRU.get. destruct (LRU.peek k c) eqn:Hk; simpl; [|done].
  unfold LRU.peek; simpl. by rewrite decide_True.
Qed.

Lemma peek_update_eq k (f : V → V) c :
  LRU.peek k (LRU.update k f c) = f <$> LRU.peek k c.
Proof. apply assoc_update_eq. Qed.

Lemma take_removelast {A} (l : list A) n :
  length l = S n → take n l = removelast l.
Proof.
  revert n. induction l as [|x l IH]; intros n Hl; simpl in *; [lia|].
  destruct l as [|y l].
  - destruct n; [done|simpl in *; lia].
  - destruct n as [|n]; [simpl in *; lia|].
    cbn [take]. f_equal. apply IH. simpl in *; lia.
Qed.

(** Writing a key that is not cached into a full cache drops the entry at
    the far end of the access order and keeps the others in order. *)
Lemma keys_set_full k v c :
  LRU.size c = LRU.max c → 0 < LRU.max c → k ∉ LRU.keys c →
  LRU.keys (LRU.set k v c) = k :: removelast (LRU.keys c).
Proof.
  unfold LRU.keys, LRU.set, LRU.size. cbn [LRU.entries LRU.max].
  intros Hsz Hpos Hk. rewrite remove_absent by done.
  destruct (LRU.max c) as [|n]; [lia|].
  rewrite fmap_take, fmap_cons. cbn [take fst]. f_equal.
  apply take_removelast. by rewrite length_fmap.
Qed.

Lemma assoc_absent k l : k ∉ l.*1 → LRU.assoc k l = None.
Proof.
  induction l as [|[k' v'] l IH]; simpl; [done|].
  intros Hk. apply not_elem_of_cons in Hk as [Hne Hk].
  destruct (decide (k' = k)); [congruence|]. by apply IH.
Qed.

Lemma assoc_present k l : k ∈ l.*1 → is_Some (LRU.assoc k l).
Proof.
  induction l as [|[k' v'] l IH]; simpl; [by intros ?%elem_of_nil|].
  intros Hk. destruct (decide (k' = k)); [by eexists|].
  apply elem_of_cons in Hk as [?|Hk]; [congruence|]. by apply IH.
Qed.

Lemma remove_keys k l : (LRU.remove k l).*1 = filter (λ k', k' ≠ k) l.*1.
Proof.
  induction l as [|[k' v'] l IH]; [done|]. cbn [LRU.remove].
  rewrite fmap_cons. cbn [fst]. rewrite filter_cons.
  destruct (decide (k' = k)) as [->|Hne].
  - rewrite decide_False by (by intros ?). done.
  - rewrite decide_True by done. rewrite fmap_cons. cbn [fst]. by rewrite IH.
Qed.

Lemma remove_remove k l : LRU.remove k (LRU.remove k l) = LRU.remove k l.
Proof.
  induction l as [|[k' v'] l IH]; [done|]. cbn [LRU.remove].
  destruct (decide (k' = k)) as [->|Hne]; [done|]. cbn [LRU.remove].
  rewrite decide_False by done. by rewrite IH.
Qed.

Lemma remove_present_length k l :
  k ∈ l.*1 → length (LRU.remove k l) < length l.
Proof.
  intros [v Hv]%assoc_present. by apply (remove_length_lt k v).
Qed.

Lemma keys_get_hit k c :
  k ∈ LRU.keys c →
  LRU.keys (LRU.get k c).2 = k :: filter (λ k', k' ≠ k) (LRU.keys c).
Proof.
  unfold LRU.keys, LRU.get, LRU.peek. intros [v ->]%assoc_present.
  cbn [snd LRU.entries]. rewrite fmap_cons. cbn [fst]. by rewrite remove_keys.
Qed.

Lemma get_miss k c : k ∉ LRU.keys c → (LRU.get k c).2 = c.
Proof.
  unfold LRU.keys, LRU.get, LRU.peek. intros Hk.
  by rewrite (assoc_absent k _ Hk).
Qed.

Lemma keys_update k (f : V → V) c : LRU.keys (LRU.update k f c) = LRU.keys c.
Proof. apply update_assoc_keys. Qed.

Lemma set_get k v c : LRU.set k v (LRU.get k c).2 = LRU.set k v c.
Proof.
  unfold LRU.set, LRU.get, LRU.peek.
  destruct (LRU.assoc k (LRU.entries c)) as [v'|]; [|done].
  cbn [snd LRU.max LRU.entries LRU.remove].
  rewrite decide_True by done. by rewrite remove_remove.
Qed.

Lemma keys_set_hit k v c :
  LRU.size c ≤ LRU.max c → k ∈ LRU.keys c →
  LRU.keys (LRU.set k v c) = k :: filter (λ k', k' ≠ k) (LRU.keys c).
Proof.
  unfold LRU.keys, LRU.set, LRU.size. cbn [LRU.entries]. intros Hsz Hk.
  apply remove_present_length in Hk.
  rewrite take_ge by (cbn [length]; lia).
  rewrite fmap_cons. cbn [fst]. by rewrite remove_keys.
Qed.

Lemma keys_set_room k v c :
  LRU.size c < LRU.max c → k ∉ LRU.keys c →
  LRU.keys (LRU.set k v c) = k :: LRU.keys c.
Proof.
  unfold LRU.keys, LRU.set, LRU.size. cbn [LRU.entries]. intros Hsz Hk.
  rewrite remove_absent by done.
  rewrite take_ge by (cbn [length]; lia). done.
Qed.

End lru_facts.

(** ** Reasoning about computations *)

Ltac msimpl :=
  cbn [bind ret throw gets lift modify modify_manager emit try_catch out post
       trace fst snd app].

Section monad_facts.
Context {A B : Type}.
Implicit Types (P : World → Prop).

Lemma preserves_ret P (a : A) : preserves P (ret a).
Proof. by intros w. Qed.

Lemma preserves_throw P e : preserves P (@throw A e).
Proof. by intros w. Qed.

Lemma preserves_gets P (f : World → A) : preserves P (gets f).
Proof. by intros w. Qed.

Lemma preserves_emit P ev : preserves P (emit ev).
Proof. by intros w. Qed.

Lemma preserves_lift P (f : World → outcome A) : preserves P (lift f).
Proof. by intros w. Qed.

Lemma preserves_modify P f : (∀ w, P w → P (f w)) → preserves P (modify f).
Proof. intros Hf w. apply Hf. Qed.

Lemma preserves_bind P (m : M A) (f : A → M B) :
  preserves P m → (∀ a, preserves P (f a)) → preserves P (bind m f).
Proof.
  intros Hm Hf w Hw. unfold bind. specialize (Hm w Hw).
  destruct (m w) as [[a|e] w1 t1]; cbn [post] in *; [|done].
  specialize (Hf a w1 Hm). by destruct (f a w1).
Qed.

Lemma preserves_try_catch P (m : M A) h :
  preserves P m → (∀ e, preserves P (h e)) → preserves P (try_catch m h).
Proof.
  intros Hm Hh w Hw. unfold try_catch. specialize (Hm w Hw).
  destruct (m w) as [[a|e] w1 t1]; cbn [post] in *; [done|].
  specialize (Hh e w1 Hm). by destruct (h e w1).
Qed.

Lemma returns_ret (a : A) : returns (ret a).
Proof. intros w. by exists a. Qed.

Lemma returns_gets (f : World → A) : returns (gets f).
Proof. intros w. by eexists. Qed.

Lemma returns_bind (m : M A) (f : A → M B) :
  returns m → (∀ a, returns (f a)) → returns (bind m f).
Proof.
  intros Hm Hf w. destruct (Hm w) as [a Ha]. unfold bind.
  destruct (m w) as [o w1 t1]. cbn [out] in Ha. subst o.
  destruct (Hf a w1) as [b Hb]. destruct (f a w1) as [o w2 t2].
  by exists b.
Qed.

Lemma returns_try_catch (m : M A) h :
  (∀ e, returns (h e)) → returns (try_catch m h).
Proof.
  intros Hh w. unfold try_catch. destruct (m w) as [[a|e] w1 t1].
  - by exists a.
  - destruct (Hh e w1) as [b Hb]. destruct (h e w1) as [o w2 t2].
    by exists b.
Qed.

End monad_facts.

Section emits_facts.
Context {A B : Type}.
Implicit Types (Q : Event → Prop).

Lemma emits_ret Q (a : A) : emits Q (ret a).
Proof. intros w. constructor. Qed.

Lemma emits_throw Q e : emits Q (@throw A e).
Proof. intros w. constructor. Qed.

Lemma emits_gets Q (f : World → A) : emits Q (gets f).
Proof. intros w. constructor. Qed.

Lemma emits_lift Q (f : World → outcome A) : emits Q (lift f).
Proof. intros w. constructor. Qed.

Lemma emits_bind Q (m : M A) (f : A → M B) :
  emits Q m → (∀ a, emits Q (f a)) → emits Q (bind m f).
Proof.
  intros Hm Hf w. unfold bind. specialize (Hm w).
  destruct (m w) as [[a|e] w1 t1]; cbn [trace] in *; [|done].
  specialize (Hf a w1). destruct (f a w1) as [o w2 t2]. cbn [trace] in *.
  apply Forall_app. by split.
Qed.

Lemma emits_try_catch Q (m : M A) h :
  emits Q m → (∀ e, emits Q (h e)) → emits Q (try_catch m h).
Proof.
  intros Hm Hh w. unfold try_catch. specialize (Hm w).
  destruct (m w) as [[a|e] w1 t1]; cbn [trace] in *; [done|].
  specialize (Hh e w1). destruct (h e w1) as [o w2 t2]. cbn [trace] in *.
  apply Forall_app. by split.
Qed.

End emits_facts.

Lemma emits_emit (Q : Event → Prop) ev : Q ev → emits Q (emit ev).
Proof. intros Hq w. by repeat constructor. Qed.

Lemma emits_modify (Q : Event → Prop) f : emits Q (modify f).
Proof. intros w. constructor. Qed.

(** Running [bind] once the first computation is known. *)
Lemma bind_run {A B} (m : M A) (f : A → M B) w a w1 t1 :
  m w = {| out := Ret a; post := w1; trace := t1 |} →
  bind m f w =
    match f a w1 with
    | {| out := o; post := w2; trace := t2 |} =>
        {| out := o; post := w2; trace := t1 ++ t2 |}
    end.
Proof. unfold bind. by intros ->. Qed.

Lemma bind_throws {A B} (m : M A) (f : A → M B) w e w1 t1 :
  m w = {| out := Throw e; post := w1; trace := t1 |} →
  bind m f w = {| out := Throw e; post := w1; trace := t1 |}.
Proof. unfold bind. by intros ->. Qed.

(** Case analysis on the computation at the head of a [bind]. *)
Ltac mrun r :=
  let H := fresh "Hrun" in
  destruct r as [[?|?] ? ?] eqn:H;
  [rewrite (bind_run _ _ _ _ _ _ H) | rewrite (bind_throws _ _ _ _ _ _ H)];
  msimpl.

(** The computation at the head of a [bind] is given by an equation. *)
Ltac mstep lem := erewrite bind_run by (apply lem); msimpl.

Lemma result_eta {A} (r : Result A) :
  match r with
  | {| out := o; post := w; trace := t |} =>
      {| out := o; post := w; trace := t |}
  end = r.
Proof. by destruct r. Qed.

Lemma result_out {A} (r : Result A) o :
  out r = o → r = {| out := o; post := post r; trace := trace r |}.
Proof. destruct r. cbn. by intros ->. Qed.

Lemma returns_emit ev : returns (emit ev).
Proof. intros w. by exists tt. Qed.

Lemma returns_modify f : returns (modify f).
Proof. intros w. by exists tt. Qed.

#[local] Hint Resolve preserves_ret preserves_throw preserves_gets preserves_emit
  preserves_lift preserves_bind preserves_try_catch returns_ret returns_gets returns_bind
  returns_try_catch returns_emit returns_modify : monad.

(** ** Style and locale loading *)

Section loading_facts.
Variable E : Env.



End loading_facts.

Section memo_facts.
Variable E : Env.










End memo_facts.

(** ** The scope of a pass *)

Section scope_facts.
Variable E : Env.

Lemma fileCache_get_eq file w :
  fileCache_get file w =
    {| out := Ret (LRU.peek file (fileCache (manager w)));
       post := touch file w; trace := [] |}.
Proof.
  unfold fileCache_get, touch. msimpl. unfold LRU.get.
  destruct (LRU.peek file (fileCache (manager w))); reflexivity.
Qed.

Lemma areSettingsEqual_agree current d :
  areSettingsEqual current (Some d) = true ↔ settings_agree current d.
Proof.
  unfold areSettingsEqual, settings_agree. cbn [cached_settings].
  rewrite !andb_true_iff, !bool_decide_eq_true. tauto.
Qed.

Lemma areSettingsEqual_disagree current d :
  areSettingsEqual current (Some d) = false ↔ ¬ settings_agree current d.
Proof.
  rewrite <- areSettingsEqual_agree. by destruct (areSettingsEqual _ _).
Qed.

End scope_facts.

(** A computation built from the primitives is handled by its shape. *)
Ltac mstructure :=
  repeat first
    [ solve [auto 1 with nocore]
    | apply preserves_ret | apply preserves_throw | apply preserves_gets
    | apply preserves_emit | apply preserves_lift
    | apply returns_ret | apply returns_gets | apply returns_emit
    | apply returns_modify
    | apply emits_ret | apply emits_throw | apply emits_gets
    | apply emits_lift | apply emits_modify
    | apply emits_emit; exact I
    | apply preserves_bind; [|intros ?]
    | apply preserves_try_catch; [|intros ?]
    | apply returns_bind; [|intros ?]
    | apply returns_try_catch; intros ?
    | apply emits_bind; [|intros ?]
    | apply emits_try_catch; [|intros ?]
    | match goal with
      | |- preserves _ (match ?x with _ => _ end) => destruct x
      | |- returns (match ?x with _ => _ end) => destruct x
      | |- emits _ (match ?x with _ => _ end) => destruct x
      end
    | solve [eauto with monad] ].

Section scope_load_facts.
Variable E : Env.

Lemma scope_frame_refl w : scope_frame w w.
Proof. by repeat split. Qed.

Lemma getCSLStyle_frame w0 id path :
  preserves (scope_frame w0) (getCSLStyle E id path).
Proof. unfold getCSLStyle. mstructure. try (intros w Hw; exact Hw). Qed.

Lemma getCSLLocale_frame w0 l :
  preserves (scope_frame w0) (getCSLLocale E l).
Proof. unfold getCSLLocale. mstructure. try (intros w Hw; exact Hw). Qed.

Lemma loadStyles_frame w0 styles :
  preserves (scope_frame w0) (loadStyles E styles).
Proof.
  induction styles as [|style styles IH]; cbn [loadStyles]; mstructure.
  try (intros w Hw; exact Hw).
Qed.

Lemma loadLangs_frame w0 langs :
  preserves (scope_frame w0) (loadLangs E langs).
Proof.
  induction langs as [|lang langs IH]; cbn [loadLangs]; mstructure.
  try (intros w Hw; exact Hw).
Qed.

Lemma loadStyles_emits styles : emits scope_event (loadStyles E styles).
Proof.
  induction styles as [|style styles IH]; cbn [loadStyles]; mstructure.
Qed.

Lemma loadLangs_emits langs : emits scope_event (loadLangs E langs).
Proof.
  induction langs as [|lang langs IH]; cbn [loadLangs]; mstructure.
Qed.

Lemma loadScopedEngine_frame w0 s :
  preserves (scope_frame w0) (loadScopedEngine E s).
Proof.
  pose proof loadStyles_frame. pose proof loadLangs_frame.
  unfold loadScopedEngine, style_step, lang_step, bib_step, guarded,
    styleBlock, langBlock, bibBlock.
  mstructure.
Qed.

Lemma loadScopedEngine_emits s : emits scope_event (loadScopedEngine E s).
Proof.
  pose proof loadStyles_emits. pose proof loadLangs_emits.
  unfold loadScopedEngine, style_step, lang_step, bib_step, guarded,
    styleBlock, langBlock, bibBlock.
  mstructure.
Qed.

End scope_load_facts.

(** ** The steps of a pass *)

Section step_facts.
Variable E : Env.

Lemma source_engine_eq s w :
  source_engine s w = {| out := Ret (engine_of s w); post := w; trace := [] |}.
Proof. by destruct s. Qed.

Lemma source_bibCache_eq s w :
  source_bibCache s w =
    {| out := Ret (bibCache_of s w); post := w; trace := [] |}.
Proof. by destruct s. Qed.

Lemma engine_called_eq call s w :
  engine_called call s w =
    {| out := Ret (called_source call s); post := called call s w;
       trace := [] |}.
Proof. by destruct s. Qed.

Lemma setNull_eq file citeKeys res unres s w :
  setNull file citeKeys res unres ∅ s w =
    {| out := Ret None;
       post := stored file (null_result citeKeys res unres s) w;
       trace := [EvDispatch file (null_result citeKeys res unres s)] |}.
Proof. reflexivity. Qed.

Lemma cite_eq s eng groups w :
  cite E s eng groups w =
    {| out := Ret (renderCitations E (langCache (manager w)) eng groups,
                   called_source (CallCite groups) s);
       post := called (CallCite groups) s w;
       trace := [EvCite groups] |}.
Proof. by destruct s. Qed.

Lemma source_makeBibliography_eq s w :
  source_makeBibliography E s w =
    {| out := Ret (match engine_of s w with
                   | Some e => makeBibliography E (langCache (manager w)) e
                   | None => Ret BibAbsent
                   end,
                   called_source CallMakeBibliography s);
       post := called CallMakeBibliography s w;
       trace := [EvMakeBibliography] |}.
Proof. by destruct s. Qed.

Lemma fileCache_share_source_eq file s w :
  fileCache_share_source file s w =
    {| out := Ret tt; post := shared file s w; trace := [] |}.
Proof. reflexivity. Qed.

Lemma commit_source_eq file c a s w :
  commit_source file c a s w =
    {| out := Ret tt; post := committed file c a s w; trace := [] |}.
Proof. destruct c; [destruct a|]; reflexivity. Qed.

Lemma shared_twice file s s' w :
  shared file s' (shared file s w) = shared file s' w.
Proof.
  unfold shared, set_manager, set_fileCache, LRU.update.
  cbn [manager fileCache langCache styleCache bibCache fuse engine
       pluginSettings metadataCache nextNode LRU.entries LRU.max].
  do 3 f_equal. apply update_assoc_twice. by intros [].
Qed.

Lemma stored_shared file d s w :
  stored file d (shared file s w) = stored file d w.
Proof.
  unfold stored, shared, set_manager, set_fileCache, LRU.set, LRU.update.
  cbn [manager fileCache langCache styleCache bibCache fuse engine
       pluginSettings metadataCache nextNode LRU.entries LRU.max].
  by rewrite remove_update_assoc.
Qed.

Lemma stored_committed file d c a s w :
  stored file d (committed file c a s w) = stored file d w.
Proof. destruct c; [destruct a|]; cbn [committed]; by rewrite ?stored_shared. Qed.

Lemma committed_twice file c a s s' w :
  committed file c a s' (committed file c a s w) = committed file c a s' w.
Proof. destruct c; [destruct a|]; cbn [committed]; by rewrite ?shared_twice. Qed.

Lemma called_committed call s0 file c a s w :
  called call s0 (committed file c a s w)
  = committed file c a s (called call s0 w).
Proof. destruct c; [destruct a|]; by destruct s0. Qed.

Lemma set_nextNode_committed n file c a s w :
  set_nextNode n (committed file c a s w)
  = committed file c a s (set_nextNode n w).
Proof. destruct c; [destruct a|]; reflexivity. Qed.

Lemma committed_langCache file c a s w :
  langCache (manager (committed file c a s w)) = langCache (manager w).
Proof. destruct c; [destruct a|]; reflexivity. Qed.

Lemma committed_nextNode file c a s w :
  nextNode (committed file c a s w) = nextNode w.
Proof. destruct c; [destruct a|]; reflexivity. Qed.

Lemma committed_engine_of file c a s s0 w :
  engine_of s0 (committed file c a s w) = engine_of s0 w.
Proof. destruct c; [destruct a|]; by destruct s0. Qed.

Lemma committed_max file c a s w :
  LRU.max (fileCache (manager (committed file c a s w)))
  = LRU.max (fileCache (manager w)).
Proof. destruct c; [destruct a|]; reflexivity. Qed.

Lemma getScopedSettings_ext w w' file :
  metadataCache w' = metadataCache w →
  getScopedSettings w' file = getScopedSettings w file.
Proof. unfold getScopedSettings. by intros ->. Qed.

(** A pass whose front matter cannot be read ends there. *)
Lemma pass_scope_unreadable file w e :
  getScopedSettings w file = Throw e →
  pass_scope E file w =
    {| out := Throw e; post := touch file w; trace := [] |}.
Proof.
  intros Hs. unfold pass_scope. mstep fileCache_get_eq.
  change (getScopedSettings (touch file w) file)
    with (getScopedSettings w file).
  by rewrite Hs.
Qed.

Lemma pass_scope_reuse file w d s :
  getScopedSettings w file = Ret s →
  LRU.peek file (fileCache (manager w)) = Some d →
  settings_agree s d →
  pass_scope E file w =
    {| out := Ret (Some d, s, source d); post := touch file w; trace := [] |}.
Proof.
  intros Hs Hd Ha. apply areSettingsEqual_agree in Ha.
  unfold pass_scope. mstep fileCache_get_eq.
  change (getScopedSettings (touch file w) file)
    with (getScopedSettings w file).
  rewrite Hs, Hd. cbn [select_source]. rewrite Ha. reflexivity.
Qed.

(** A pass that does not reuse a scope has the scope [loadScopedEngine]
    returns, and ends with what [loadScopedEngine] throws. *)
Lemma pass_scope_build file w current :
  let cachedDoc := LRU.peek file (fileCache (manager w)) in
  let built := loadScopedEngine E current (touch file w) in
  getScopedSettings w file = Ret current →
  (cachedDoc = None ∨ ∃ d, cachedDoc = Some d ∧ ¬ settings_agree current d) →
  pass_scope E file w =
    {| out := match out built with
              | Ret src => Ret (cachedDoc, current, src)
              | Throw e => Throw e
              end;
       post := post built; trace := trace built |}.
Proof.
  intros cachedDoc built Hs Hc.
  unfold pass_scope. mstep fileCache_get_eq.
  change (getScopedSettings (touch file w) file)
    with (getScopedSettings w file).
  rewrite Hs. fold cachedDoc.
  assert (select_source E current cachedDoc = loadScopedEngine E current) as ->.
  { destruct Hc as [->|(d & -> & Hd)]; [done|].
    apply areSettingsEqual_disagree in Hd. cbn [select_source]. by rewrite Hd. }
  rewrite !result_eta. unfold bind. subst built.
  destruct (loadScopedEngine E current (touch file w)) as [[src|e] w1 t1];
    msimpl; [|done].
  by rewrite app_nil_r.
Qed.

Lemma pass_scope_emits file : emits scope_event (pass_scope E file).
Proof.
  pose proof (loadScopedEngine_emits E).
  unfold pass_scope, fileCache_get, select_source. mstructure.
Qed.

Lemma pass_scope_frame file w :
  scope_frame (touch file w) (post (pass_scope E file w)).
Proof.
  unfold pass_scope. mstep fileCache_get_eq.
  destruct (getScopedSettings (touch file w) file) as [s|e];
    [|apply scope_frame_refl].
  set (c := LRU.peek _ _).
  assert (preserves (scope_frame (touch file w)) (select_source E s c)) as Hp.
  { pose proof (loadScopedEngine_frame E (touch file w)).
    unfold select_source. mstructure. }
  specialize (Hp (touch file w) (scope_frame_refl _)).
  mrun (select_source E s c (touch file w)); exact Hp.
Qed.

(** What a pass has read when its scope is there. *)
Lemma pass_scope_out file w c s src :
  out (pass_scope E file w) = Ret (c, s, src) →
  c = LRU.peek file (fileCache (manager w))
  ∧ getScopedSettings w file = Ret s.
Proof.
  unfold pass_scope. mstep fileCache_get_eq.
  change (getScopedSettings (touch file w) file)
    with (getScopedSettings w file).
  destruct (getScopedSettings w file) as [s'|e]; [|done].
  mrun (select_source E s' (LRU.peek file (fileCache (manager w)))
          (touch file w)); [|done].
  by intros [= <- <- <-].
Qed.

End step_facts.

(** ** The key sets *)

Section key_facts.
Implicit Types (bc : gmap string PartialCSLEntry) (k : string).

Lemma truthy_nonempty k : JS.truthy k = true ↔ k ≠ EmptyString.
Proof. by destruct k. Qed.

Lemma collect_inner cs (acc : gset string) k :
  k ∈ fold_left
        (λ citeKeys c,
           if JS.truthy (cit_id c) then {[cit_id c]} ∪ citeKeys else citeKeys)
        cs acc
  ↔ k ∈ acc ∨ (k ≠ EmptyString ∧ ∃ c, c ∈ cs ∧ cit_id c = k).
Proof.
  revert acc. induction cs as [|c cs IH]; intros acc; cbn [fold_left].
  - split; [by left|]. intros [?|(_ & c & Hc & _)]; [done|]. by inversion Hc.
  - rewrite IH. destruct (JS.truthy (cit_id c)) eqn:Ht.
    + apply truthy_nonempty in Ht. rewrite elem_of_union, elem_of_singleton.
      split.
      * intros [[->|?]|(Hk & c' & Hc' & Hid)].
        -- right. split; [done|]. exists c. split; [left|done].
        -- by left.
        -- right. split; [done|]. exists c'. split; [by right|done].
      * intros [?|(Hk & c' & Hc' & Hid)]; [left; by right|].
        apply elem_of_cons in Hc' as [->|Hc']; [left; left; done|].
        right. split; [done|]. by exists c'.
    + assert (cit_id c = EmptyString) as Hid0 by (by destruct (cit_id c)).
      split.
      * intros [?|(Hk & c' & Hc' & Hid)]; [by left|].
        right. split; [done|]. exists c'. split; [by right|done].
      * intros [?|(Hk & c' & Hc' & Hid)]; [by left|].
        apply elem_of_cons in Hc' as [->|Hc']; [congruence|].
        right. split; [done|]. by exists c'.
Qed.

Lemma collect_outer processed (acc : gset string) k :
  k ∈ fold_left
        (λ citeKeys p,
           fold_left
             (λ citeKeys c,
                if JS.truthy (cit_id c) then {[cit_id c]} ∪ citeKeys
                else citeKeys)
             (citations p) citeKeys)
        processed acc
  ↔ k ∈ acc ∨ (k ≠ EmptyString ∧ k ∈ cited_ids processed).
Proof.
  revert acc. induction processed as [|g gs IH]; intros acc; cbn [fold_left].
  - split; [by left|]. intros [?|[_ Hk]]; [done|]. by inversion Hk.
  - rewrite IH, collect_inner. unfold cited_ids. cbn [flat_map].
    rewrite elem_of_app. fold (cited_ids gs).
    assert (k ∈ map cit_id (citations g) ↔ ∃ c, c ∈ citations g ∧ cit_id c = k)
      as ->.
    { change (map cit_id (citations g)) with (cit_id <$> citations g).
      rewrite list_elem_of_fmap. split; intros (c & ? & ?); by exists c. }
    tauto.
Qed.

(** The keys of a pass are the non-empty ids of its citations. *)
Lemma elem_of_collect_keys processed k :
  k ∈ collect_keys processed ↔ k ≠ EmptyString ∧ k ∈ cited_ids processed.
Proof.
  unfold collect_keys. rewrite collect_outer, elem_of_empty. tauto.
Qed.

Lemma elem_of_cited_ids processed k :
  k ∈ cited_ids processed
  ↔ ∃ g c, g ∈ processed ∧ c ∈ citations g ∧ cit_id c = k.
Proof.
  unfold cited_ids. rewrite list_elem_of_In, in_flat_map. split.
  - intros (g & Hg & Hk). apply in_map_iff in Hk as (c & Hc & Hk).
    exists g, c. by rewrite !list_elem_of_In.
  - intros (g & c & Hg & Hc & Hk). exists g. rewrite <- list_elem_of_In.
    split; [done|]. apply in_map_iff. exists c. by rewrite <- list_elem_of_In.
Qed.

Lemma partition_keys_sound bc citeKeys :
  sets_sound bc (partition_keys bc citeKeys).
Proof.
  split; intros k; cbn [partition_keys fst snd]; rewrite elem_of_filter.
  - by intros [? _].
  - intros [Hn _]. destruct (bc !! k); [|done]. by destruct Hn.
Qed.

Lemma partition_keys_union bc citeKeys :
  (partition_keys bc citeKeys).1 ∪ (partition_keys bc citeKeys).2 = citeKeys.
Proof.
  apply set_eq. intros k. cbn [partition_keys fst snd].
  rewrite elem_of_union, !elem_of_filter.
  destruct (decide (is_Some (bc !! k))); tauto.
Qed.

(** The outcome of [every] is the conjunction over the citations; the sets
    stay sound, only grow, and grow by ids of the citations only. *)
Lemma every_resolved_spec bc cs sets :
  let r := every_resolved bc cs sets in
  (r.1 = true ↔ Forall (resolves bc) cs)
  ∧ (sets_sound bc sets → sets_sound bc r.2)
  ∧ sets.1 ⊆ r.2.1 ∧ sets.2 ⊆ r.2.2
  ∧ (∀ k, k ∈ r.2.1 ∪ r.2.2 → k ∈ sets.1 ∪ sets.2 ∨ k ∈ map cit_id cs).
Proof.
  revert sets. induction cs as [|c cs IH]; intros [res unres]; cbn [every_resolved].
  - cbn [fst snd map]. split_and!; [|done|done|done|by left].
    split; [constructor|done].
  - destruct (bc !! cit_id c) as [e|] eqn:Hc.
    + specialize (IH ({[cit_id c]} ∪ res, unres)). cbn [fst snd] in *.
      destruct IH as (IH1 & IH2 & IH3 & IH4 & IH5).
      split_and!.
      * rewrite IH1. split; [intros H|by inversion 1].
        constructor; [|done]. unfold resolves. by rewrite Hc.
      * intros [H1 H2]. apply IH2. split; [|done]. cbn [fst].
        intros k [->%elem_of_singleton|?]%elem_of_union; [by rewrite Hc|auto].
      * etrans; [|exact IH3]. apply union_subseteq_r.
      * done.
      * intros k Hk. cbn [map].
        destruct (IH5 k Hk) as [Hk'|Hk']; [|right; by right].
        apply elem_of_union in Hk' as [[->%elem_of_singleton|?]%elem_of_union|?].
        -- right. by left.
        -- left. apply elem_of_union. by left.
        -- left. apply elem_of_union. by right.
    + cbn [fst snd]. split_and!.
      * split; [done|]. intros H. inversion H as [|? ? Hr]. unfold resolves in Hr.
        rewrite Hc in Hr. by destruct Hr.
      * intros [H1 H2]. split; [done|]. cbn [snd].
        intros k [->%elem_of_singleton|?]%elem_of_union; [done|auto].
      * done.
      * apply union_subseteq_r.
      * intros k Hk. cbn [map].
        apply elem_of_union in Hk as [?|[->%elem_of_singleton|?]%elem_of_union].
        -- left. apply elem_of_union. by left.
        -- right. by left.
        -- left. apply elem_of_union. by right.
Qed.

Lemma filter_groups_spec bc processed sets :
  let r := filter_groups bc processed sets in
  r.1 = filter (λ g, Forall (resolves bc) (citations g)) processed
  ∧ (sets_sound bc sets → sets_sound bc r.2)
  ∧ sets.1 ⊆ r.2.1 ∧ sets.2 ⊆ r.2.2
  ∧ (∀ k, k ∈ r.2.1 ∪ r.2.2 → k ∈ sets.1 ∪ sets.2 ∨ k ∈ cited_ids processed).
Proof.
  revert sets. induction processed as [|g gs IH]; intros sets;
    cbn [filter_groups].
  - cbn [fst snd]. split_and!; [done|done|done|done|by left].
  - pose proof (every_resolved_spec bc (citations g) sets) as He.
    destruct (every_resolved bc (citations g) sets) as [ok sets1].
    cbn [fst snd] in He. destruct He as (He1 & He2 & He3 & He4 & He5).
    specialize (IH sets1).
    destruct (filter_groups bc gs sets1) as [filtered sets2].
    cbn [fst snd] in *. destruct IH as (IH1 & IH2 & IH3 & IH4 & IH5).
    split_and!.
    + rewrite filter_cons. destruct ok.
      * rewrite decide_True by (by apply He1). by rewrite IH1.
      * rewrite decide_False; [done|]. intros H. by apply He1 in H.
    + intros H. exact (IH2 (He2 H)).
    + by etrans.
    + by etrans.
    + intros k Hk. unfold cited_ids. cbn [flat_map]. rewrite elem_of_app.
      fold (cited_ids gs).
      destruct (IH5 k Hk) as [Hk'|Hk']; [|by right; right].
      destruct (He5 k Hk') as [?|?]; [by left|by right; left].
Qed.

Lemma walked_nil bc k : ¬ walked bc [] k.
Proof. intros (pre & c & post & Hcs & _). by destruct pre. Qed.

Lemma walked_cons bc c cs k :
  walked bc (c :: cs) k ↔ cit_id c = k ∨ (resolves bc c ∧ walked bc cs k).
Proof.
  split.
  - intros (pre & c' & post & Hcs & Hpre & Hid). destruct pre as [|p pre].
    + left. cbn in Hcs. congruence.
    + right. cbn in Hcs. injection Hcs as -> ->.
      apply Forall_cons in Hpre as [Hp Hpre]. split; [done|].
      by exists pre, c', post.
  - intros [Hid|(Hc & pre & c' & post & -> & Hpre & Hid)].
    + by exists [], c, cs.
    + exists (c :: pre), c', post. split_and!; [done| |done].
      by constructor.
Qed.

(** The additions of [every] to the two sets: the ids of the citations the
    walk comes to, each on the side the lookup decides. *)
Lemma every_resolved_sets bc cs sets :
  let r := every_resolved bc cs sets in
  (∀ k, k ∈ r.2.1 ↔ k ∈ sets.1 ∨ (is_Some (bc !! k) ∧ walked bc cs k))
  ∧ (∀ k, k ∈ r.2.2 ↔ k ∈ sets.2 ∨ (bc !! k = None ∧ walked bc cs k)).
Proof.
  revert sets. induction cs as [|c cs IH]; intros [res unres];
    cbn [every_resolved].
  - cbn [fst snd]. split; intros k; split; [by left| |by left|];
      intros [?|[_ Hw]]; [done| |done|]; by apply walked_nil in Hw.
  - destruct (bc !! cit_id c) as [e|] eqn:Hc.
    + specialize (IH ({[cit_id c]} ∪ res, unres)). cbn [fst snd] in *.
      destruct IH as [IH1 IH2].
      assert (resolves bc c) as Hrc by (unfold resolves; by rewrite Hc).
      split; intros k.
      * rewrite IH1, walked_cons, elem_of_union, elem_of_singleton.
        split.
        -- intros [[->|?]|[? ?]]; [right|by left|right; tauto].
           split; [by rewrite Hc|by left].
        -- intros [?|[? [<-|[_ ?]]]]; [left; by right|left; by left|by right].
      * rewrite IH2, walked_cons. split.
        -- intros [?|[? ?]]; [by left|right; tauto].
        -- intros [?|[Hn [<-|[_ ?]]]]; [by left|congruence|by right].
    + cbn [fst snd]. split; intros k.
      * rewrite walked_cons. split; [by left|].
        intros [?|[Hk [<-|[Hr _]]]]; [done| |].
        -- rewrite Hc in Hk. by destruct Hk.
        -- unfold resolves in Hr. rewrite Hc in Hr. by destruct Hr.
      * rewrite walked_cons, elem_of_union, elem_of_singleton. split.
        -- intros [->|?]; [right|by left]. split; [done|by left].
        -- intros [?|[Hk [<-|[Hr _]]]]; [by right|by left|].
           unfold resolves in Hr. rewrite Hc in Hr. by destruct Hr.
Qed.

Lemma reached_nil bc k : ¬ reached bc [] k.
Proof. intros (g & Hg & _). by apply elem_of_nil in Hg. Qed.

Lemma reached_cons bc g gs k :
  reached bc (g :: gs) k ↔ walked bc (citations g) k ∨ reached bc gs k.
Proof.
  split.
  - intros (g' & [->|Hg]%elem_of_cons & Hw); [by left|right; by exists g'].
  - intros [Hw|(g' & Hg & Hw)]; [exists g; split; [by left|done]|].
    exists g'. split; [by right|done].
Qed.

(** The two sets after the walk over all groups. *)
Lemma filter_groups_sets bc processed sets :
  let r := filter_groups bc processed sets in
  (∀ k, k ∈ r.2.1 ↔ k ∈ sets.1 ∨ (is_Some (bc !! k) ∧ reached bc processed k))
  ∧ (∀ k, k ∈ r.2.2
          ↔ k ∈ sets.2 ∨ (bc !! k = None ∧ reached bc processed k)).
Proof.
  revert sets. induction processed as [|g gs IH]; intros sets;
    cbn [filter_groups].
  - cbn [fst snd]. split; intros k; split; [by left| |by left|];
      intros [?|[_ Hr]]; [done| |done|]; by apply reached_nil in Hr.
  - pose proof (every_resolved_sets bc (citations g) sets) as He.
    destruct (every_resolved bc (citations g) sets) as [ok sets1].
    cbn [fst snd] in He. destruct He as [He1 He2].
    specialize (IH sets1).
    destruct (filter_groups bc gs sets1) as [filtered sets2].
    cbn [fst snd] in *. destruct IH as [IH1 IH2].
    split; intros k.
    + rewrite IH1, He1, reached_cons. tauto.
    + rewrite IH2, He2, reached_cons. tauto.
Qed.

(** The two sets of a pass over a lookup: disjoint, covering the keys, and
    equal to them when no citation has an empty id. *)
Lemma pass_sets_spec bc processed :
  let citeKeys := collect_keys processed in
  let r := filter_groups bc processed (partition_keys bc citeKeys) in
  r.2.1 ## r.2.2
  ∧ citeKeys ⊆ r.2.1 ∪ r.2.2
  ∧ (∀ k, k ∈ r.2.1 ∪ r.2.2 → k ∈ citeKeys ∨ k ∈ cited_ids processed)
  ∧ (Forall (λ k, k ≠ EmptyString) (cited_ids processed) →
     r.2.1 ∪ r.2.2 = citeKeys).
Proof.
  intros citeKeys r.
  destruct (filter_groups_spec bc processed (partition_keys bc citeKeys))
    as (_ & Hs & H1 & H2 & H3). fold r in Hs, H1, H2, H3.
  specialize (Hs (partition_keys_sound bc citeKeys)).
  pose proof (partition_keys_union bc citeKeys) as Hu.
  assert (r.2.1 ## r.2.2) as Hd.
  { destruct Hs as [Hr Hn]. intros k Hk1 Hk2.
    apply Hr in Hk1. apply Hn in Hk2. rewrite Hk2 in Hk1. by destruct Hk1. }
  assert (∀ k, k ∈ r.2.1 ∪ r.2.2 → k ∈ citeKeys ∨ k ∈ cited_ids processed)
    as Hb.
  { intros k Hk. destruct (H3 k Hk) as [?|?]; [left|by right].
    by rewrite <- Hu. }
  split_and!; [done| |done|].
  - rewrite <- Hu. apply union_mono; done.
  - intros Hne. apply set_eq. intros k. split.
    + intros Hk. destruct (Hb k Hk) as [?|Hk']; [done|].
      apply elem_of_collect_keys. split; [|done].
      rewrite Forall_forall in Hne. by apply Hne.
    + intros Hk. rewrite <- Hu in Hk.
      apply elem_of_union in Hk as [?|?]; apply elem_of_union; auto.
Qed.

End key_facts.

(** ** The paths of a pass *)

Section pass_facts.
Variable E : Env.
Variables (file : TFile) (content : string) (w : World).
Variables (c : option FileCache) (s : option ScopedSettings) (src : Source).
Variables (w1 : World) (t1 : list Event).
Hypothesis Hprocessed : processed_of E content ≠ [].
Hypothesis Hscope :
  pass_scope E file w = {| out := Ret (c, s, src); post := w1; trace := t1 |}.

Let processed := processed_of E content.
Let citeKeys := collect_keys processed.
Let fg :=
  filter_groups (bibCache_of src w1) processed
    (partition_keys (bibCache_of src w1) citeKeys).
Let a := areSettingsEqual s c.
Let rendered eng := renderCitations E (langCache (manager w1)) eng fg.1.
Let src2 := called_source (CallCite fg.1) src.
Let w2 := called (CallCite fg.1) src w1.
Let src3 := called_source CallMakeBibliography src2.
Let w3 := called CallMakeBibliography src2 w2.

Lemma pass_no_engine :
  engine_of src w1 = None →
  getReferenceList E file content w =
    {| out := Ret None;
       post := stored file (null_result citeKeys ∅ ∅ src) w1;
       trace := t1 ++ [EvDispatch file (null_result citeKeys ∅ ∅ src)] |}.
Proof.
  intros He. unfold getReferenceList. fold (processed_of E content).
  destruct (processed_of E content) as [|g gs] eqn:Hp; [done|].
  mstep Hscope. mstep source_engine_eq.
  rewrite He. rewrite setNull_eq. msimpl.
  subst citeKeys processed. rewrite ?Hp. reflexivity.
Qed.

Lemma engine_of_called call s0 w0 eng :
  engine_of s0 w0 = Some eng →
  engine_of (called_source call s0) (called call s0 w0)
  = Some (record_call call eng).
Proof. destruct s0; cbn; [by intros ->|congruence]. Qed.

(** The engine throws while it renders: the pass ends with the error. *)
Lemma pass_cite_throws eng e :
  engine_of src w1 = Some eng →
  rendered eng = Throw e →
  getReferenceList E file content w =
    {| out := Throw e;
       post := committed file c a src2 w2;
       trace := t1 ++ [EvCite fg.1] |}.
Proof.
  intros He Hr. unfold getReferenceList. fold (processed_of E content).
  subst rendered src2 w2 a fg citeKeys processed.
  destruct (processed_of E content) as [|g gs] eqn:Hp; [done|].
  mstep Hscope. mstep source_engine_eq.
  rewrite He. mstep source_bibCache_eq.
  destruct (filter_groups _ _ _) as [filtered [res unres]].
  cbn [fst snd] in *. mstep cite_eq. mstep commit_source_eq.
  rewrite Hr. reflexivity.
Qed.

Lemma pass_unchanged eng cits :
  engine_of src w1 = Some eng →
  rendered eng = Ret cits →
  unchanged c cits a = true →
  getReferenceList E file content w =
    {| out := Ret (cached_bib c);
       post := shared file src2 w2;
       trace := t1 ++ [EvCite fg.1] |}.
Proof.
  intros He Hr Hu. unfold getReferenceList. fold (processed_of E content).
  assert (committed file c a src2 w2 = shared file src2 w2) as Hc.
  { unfold unchanged in Hu. destruct c; [|done].
    apply andb_prop in Hu as [_ Ha]. cbn [committed]. by rewrite Ha. }
  subst rendered src2 w2 a fg citeKeys processed.
  destruct (processed_of E content) as [|g gs] eqn:Hp; [done|].
  mstep Hscope. mstep source_engine_eq.
  rewrite He. mstep source_bibCache_eq.
  destruct (filter_groups _ _ _) as [filtered [res unres]].
  cbn [fst snd] in *. mstep cite_eq. mstep commit_source_eq.
  rewrite Hr. msimpl. rewrite Hu, Hc. reflexivity.
Qed.

(** The engine throws while it makes the bibliography. *)
Lemma pass_bib_throws eng cits e :
  engine_of src w1 = Some eng →
  rendered eng = Ret cits →
  unchanged c cits a = false →
  makeBibliography E (langCache (manager w2)) (record_call (CallCite fg.1) eng)
  = Throw e →
  getReferenceList E file content w =
    {| out := Throw e;
       post := committed file c a src3 w3;
       trace := t1 ++ [EvCite fg.1; EvMakeBibliography] |}.
Proof.
  intros He Hr Hu Hb. unfold getReferenceList. fold (processed_of E content).
  pose proof (engine_of_called (CallCite fg.1) src w1 eng He) as He2.
  subst rendered src3 w3 src2 w2 a fg citeKeys processed.
  destruct (processed_of E content) as [|g gs] eqn:Hp; [done|].
  mstep Hscope. mstep source_engine_eq.
  rewrite He. mstep source_bibCache_eq.
  destruct (filter_groups _ _ _) as [filtered [res unres]].
  cbn [fst snd] in *. mstep cite_eq. mstep commit_source_eq.
  rewrite Hr. msimpl. rewrite Hu.
  mstep source_makeBibliography_eq. mstep commit_source_eq.
  rewrite committed_engine_of, committed_langCache, He2, Hb.
  rewrite called_committed, committed_twice. reflexivity.
Qed.

Lemma pass_bib_absent eng cits :
  engine_of src w1 = Some eng →
  rendered eng = Ret cits →
  unchanged c cits a = false →
  makeBibliography E (langCache (manager w2)) (record_call (CallCite fg.1) eng)
  = Ret BibAbsent →
  getReferenceList E file content w =
    {| out := Ret None;
       post := stored file (null_result citeKeys fg.2.1 fg.2.2 src3) w3;
       trace := t1 ++ [EvCite fg.1; EvMakeBibliography;
                       EvDispatch file (null_result citeKeys fg.2.1 fg.2.2 src3)] |}.
Proof.
  intros He Hr Hu Hb. unfold getReferenceList. fold (processed_of E content).
  pose proof (engine_of_called (CallCite fg.1) src w1 eng He) as He2.
  subst rendered src3 w3 src2 w2 a fg citeKeys processed.
  destruct (processed_of E content) as [|g gs] eqn:Hp; [done|].
  mstep Hscope. mstep source_engine_eq.
  rewrite He. mstep source_bibCache_eq.
  destruct (filter_groups _ _ _) as [filtered [res unres]].
  cbn [fst snd] in *. mstep cite_eq. mstep commit_source_eq.
  rewrite Hr. msimpl. rewrite Hu.
  mstep source_makeBibliography_eq. mstep commit_source_eq.
  rewrite committed_engine_of, committed_langCache, He2, Hb. msimpl.
  rewrite setNull_eq. msimpl.
  rewrite stored_committed, called_committed, stored_committed. reflexivity.
Qed.

Lemma pass_bib_pair eng cits md entries :
  engine_of src w1 = Some eng →
  rendered eng = Ret cits →
  unchanged c cits a = false →
  makeBibliography E (langCache (manager w2)) (record_call (CallCite fg.1) eng)
  = Ret (BibPair md entries) →
  let html := JS.join EmptyString ([bibstart md] ++ entries ++ [bibend md]) in
  let children := bodyChildNodes E html in
  let nodes :=
    imap (λ i h, {| node_ref := nextNode w3 + i; node_html := h |}) children in
  let parsed := match entries with [] => None | _ :: _ => head nodes end in
  let w4 :=
    match entries with
    | [] => w3
    | _ :: _ => set_nextNode (nextNode w3 + length children) w3
    end in
  let d :=
    {| keys := citeKeys; resolvedKeys := fg.2.1; unresolvedKeys := fg.2.2;
       bib := parsed; fc_citations := cits;
       citeBibMap := fill_citeBibMap (entry_ids md) entries;
       settings := s; source := src3 |} in
  getReferenceList E file content w =
    {| out := Ret parsed;
       post := stored file d w4;
       trace := t1 ++ [EvCite fg.1; EvMakeBibliography]
                ++ match entries with [] => [] | _ :: _ => [EvDomParse html] end
                ++ [EvDispatch file d] |}.
Proof.
  intros He Hr Hu Hb html children nodes parsed w4 d.
  unfold getReferenceList. fold (processed_of E content).
  pose proof (engine_of_called (CallCite fg.1) src w1 eng He) as He2.
  subst d w4 parsed nodes children html rendered src3 w3 src2 w2 a fg citeKeys
    processed.
  destruct (processed_of E content) as [|g gs] eqn:Hp; [done|].
  mstep Hscope. mstep source_engine_eq.
  rewrite He. mstep source_bibCache_eq.
  destruct (filter_groups _ _ _) as [filtered [res unres]].
  cbn [fst snd] in *. mstep cite_eq. mstep commit_source_eq.
  rewrite Hr. msimpl. rewrite Hu.
  mstep source_makeBibliography_eq. mstep commit_source_eq.
  rewrite committed_engine_of, committed_langCache, He2, Hb. msimpl.
  destruct entries as [|entry entries']; msimpl.
  - unfold fileCache_set, dispatchResult. msimpl.
    fold (stored file) . rewrite ?app_nil_r.
    f_equal. unfold stored.
    change (set_manager (set_fileCache (LRU.set file ?d (fileCache (manager ?x))) (manager ?x)) ?x)
      with (stored file d x).
    rewrite stored_committed, called_committed, stored_committed. reflexivity.
  - unfold parseFromString. msimpl. rewrite committed_nextNode.
    rewrite (called_committed CallMakeBibliography), committed_nextNode.
    f_equal.
    rewrite set_nextNode_committed.
    change (set_manager (set_fileCache (LRU.set file ?d (fileCache (manager ?x))) (manager ?x)) ?x)
      with (stored file d x).
    rewrite stored_committed, set_nextNode_committed, stored_committed.
    reflexivity.
Qed.

End pass_facts.

(** ** Properties of a pass *)

Section pass_properties.
Variable E : Env.

Lemma pass_scope_max file w :
  LRU.max (fileCache (manager (post (pass_scope E file w))))
  = LRU.max (fileCache (manager w)).
Proof.
  destruct (pass_scope_frame E file w) as (-> & _).
  unfold touch. cbn [manager set_manager fileCache set_fileCache].
  apply max_get.
Qed.

Lemma peek_stored file d w :
  0 < LRU.max (fileCache (manager w)) →
  LRU.peek file (fileCache (manager (stored file d w))) = Some d.
Proof. intros Hm. by apply peek_set_eq. Qed.

Lemma called_fileCache call s w :
  fileCache (manager (called call s w)) = fileCache (manager w).
Proof. by destruct s. Qed.

Lemma pass_observers file w c s src :
  out (pass_scope E file w) = Ret (c, s, src) →
  pass_source E file w = Some src
  ∧ pass_engine E file w = engine_of src (post (pass_scope E file w))
  ∧ pass_bibCache E file w = bibCache_of src (post (pass_scope E file w)).
Proof.
  intros Hs. unfold pass_engine, pass_bibCache, pass_source. rewrite Hs.
  by rewrite source_engine_eq, source_bibCache_eq.
Qed.

Lemma pass_unscoped file w e :
  out (pass_scope E file w) = Throw e →
  pass_source E file w = None ∧ pass_engine E file w = None.
Proof.
  intros Hs. unfold pass_engine, pass_source. by rewrite Hs.
Qed.

(** A pass over a text without a citation returns at once.  A pass whose
    scope cannot be had ends with the error of the scope.  Every other pass
    takes one of six paths; each determines the value, the state and the
    events of the call. *)
Lemma pass_cases file content w :
  let r := getReferenceList E file content w in
  let processed := processed_of E content in
  let citeKeys := collect_keys processed in
  let sc := pass_scope E file w in
  let w1 := post sc in
  let t1 := trace sc in
  let c := LRU.peek file (fileCache (manager w)) in
  (processed = [] ∧ r = {| out := Ret None; post := w; trace := [] |})
  ∨ (processed ≠ [] ∧ ∃ e,
       out sc = Throw e ∧ r = {| out := Throw e; post := w1; trace := t1 |})
  ∨ (processed ≠ [] ∧ ∃ s src,
       getScopedSettings w file = Ret s ∧ out sc = Ret (c, s, src) ∧
       let a := areSettingsEqual s c in
       let fg :=
         filter_groups (bibCache_of src w1) processed
           (partition_keys (bibCache_of src w1) citeKeys) in
       let src2 := called_source (CallCite fg.1) src in
       let w2 := called (CallCite fg.1) src w1 in
       let src3 := called_source CallMakeBibliography src2 in
       let w3 := called CallMakeBibliography src2 w2 in
       (engine_of src w1 = None
        ∧ r = {| out := Ret None;
                 post := stored file (null_result citeKeys ∅ ∅ src) w1;
                 trace := t1 ++ [EvDispatch file (null_result citeKeys ∅ ∅ src)] |})
       ∨ (∃ eng,
            engine_of src w1 = Some eng ∧
            let rendered := renderCitations E (langCache (manager w1)) eng fg.1 in
            let bibres :=
              makeBibliography E (langCache (manager w2))
                (record_call (CallCite fg.1) eng) in
            (∃ e, rendered = Throw e
                  ∧ r = {| out := Throw e; post := committed file c a src2 w2;
                           trace := t1 ++ [EvCite fg.1] |})
            ∨ (∃ cits, rendered = Ret cits ∧
               ((unchanged c cits a = true
                 ∧ r = {| out := Ret (cached_bib c); post := shared file src2 w2;
                          trace := t1 ++ [EvCite fg.1] |})
                ∨ (unchanged c cits a = false
                   ∧ ∃ e, bibres = Throw e
                          ∧ r = {| out := Throw e;
                                   post := committed file c a src3 w3;
                                   trace := t1 ++ [EvCite fg.1;
                                                   EvMakeBibliography] |})
                ∨ (unchanged c cits a = false
                   ∧ bibres = Ret BibAbsent
                   ∧ r = {| out := Ret None;
                            post := stored file
                                      (null_result citeKeys fg.2.1 fg.2.2 src3) w3;
                            trace := t1 ++ [EvCite fg.1; EvMakeBibliography;
                                            EvDispatch file
                                              (null_result citeKeys fg.2.1 fg.2.2
                                                 src3)] |})
                ∨ (unchanged c cits a = false
                   ∧ ∃ md entries,
                       bibres = Ret (BibPair md entries) ∧
                       let html :=
                         JS.join EmptyString
                           ([bibstart md] ++ entries ++ [bibend md]) in
                       let children := bodyChildNodes E html in
                       let nodes :=
                         imap (λ i h, {| node_ref := nextNode w3 + i;
                                         node_html := h |})
                           children in
                       let parsed :=
                         match entries with [] => None | _ :: _ => head nodes end in
                       let w4 :=
                         match entries with
                         | [] => w3
                         | _ :: _ =>
                             set_nextNode (nextNode w3 + length children) w3
                         end in
                       let d :=
                         {| keys := citeKeys; resolvedKeys := fg.2.1;
                            unresolvedKeys := fg.2.2; bib := parsed;
                            fc_citations := cits;
                            citeBibMap := fill_citeBibMap (entry_ids md) entries;
                            settings := s; source := src3 |} in
                       r = {| out := Ret parsed; post := stored file d w4;
                              trace := t1 ++ [EvCite fg.1; EvMakeBibliography]
                                       ++ match entries with
                                          | [] => []
                                          | _ :: _ => [EvDomParse html]
                                          end
                                       ++ [EvDispatch file d] |}))))).
Proof.
  intros r processed citeKeys sc w1 t1 c.
  destruct (decide (processed = [])) as [Hp|Hp].
  { left. split; [done|]. subst r. unfold getReferenceList.
    fold (processed_of E content). fold processed. by rewrite Hp. }
  right. destruct (out sc) as [[[c' s] src]|e] eqn:Hout.
  2:{ left. split; [done|]. exists e. split; [done|].
      subst r. unfold getReferenceList. fold (processed_of E content).
      fold processed. destruct processed; [done|].
      assert (sc = {| out := Throw e; post := w1; trace := t1 |}) as Hsc.
      { subst w1 t1. destruct sc. cbn in *. by subst. }
      fold sc. by rewrite (bind_throws _ _ _ _ _ _ Hsc). }
  right. split; [done|].
  destruct (pass_scope_out E file w c' s src Hout) as [-> Hset]. fold c.
  exists s, src. split; [done|]. split; [done|].
  assert (sc = {| out := Ret (c, s, src); post := w1; trace := t1 |}) as Hs.
  { subst w1 t1. destruct sc. cbn in *. by subst. }
  intros a fg src2 w2 src3 w3.
  destruct (engine_of src w1) as [eng|] eqn:He.
  2:{ left. split; [done|].
      exact (pass_no_engine E file content w _ _ src _ _ Hp Hs He). }
  right. exists eng. split; [done|]. intros rendered bibres.
  destruct rendered as [cits|e] eqn:Hr.
  2:{ left. exists e. split; [done|].
      exact (pass_cite_throws E file content w _ _ src _ _ Hp Hs eng e He Hr). }
  right. exists cits. split; [done|].
  destruct (unchanged c cits a) eqn:Hu.
  { left. split; [done|].
    exact (pass_unchanged E file content w _ _ src _ _ Hp Hs eng cits He Hr Hu). }
  right. destruct bibres as [[|md entries]|e] eqn:Hb.
  - right. left. split_and!; [done..|].
    exact (pass_bib_absent E file content w _ _ src _ _ Hp Hs eng cits
             He Hr Hu Hb).
  - right. right. split; [done|]. exists md, entries. split; [done|].
    exact (pass_bib_pair E file content w _ _ src _ _ Hp Hs eng cits md entries
             He Hr Hu Hb).
  - left. split; [done|]. exists e. split; [done|].
    exact (pass_bib_throws E file content w _ _ src _ _ Hp Hs eng cits e
             He Hr Hu Hb).
Qed.

(** C5 (as amended).  When a pass has a scope and the scope has no usable
    engine, the pass short-circuits: it returns null, renders nothing, and
    stores in the file cache and delivers to the observers a result whose
    [resolvedKeys] and [unresolvedKeys] are both empty, whose [keys] are the
    cited keys, and which has no citations, no bibliography and no
    settings. *)
Theorem no_engine_pass_stores_empty_result file content w :
  processed_of E content ≠ [] →
  0 < LRU.max (fileCache (manager w)) →
  is_Some (pass_source E file w) →
  pass_engine E file w = None →
  let r := getReferenceList E file content w in
  ∃ src d,
    pass_source E file w = Some src
    ∧ d = null_result (collect_keys (processed_of E content)) ∅ ∅ src
    ∧ out r = Ret None
    ∧ LRU.peek file (fileCache (manager (post r))) = Some d
    ∧ trace r = (trace (pass_scope E file w) ++ [EvDispatch file d])%list
    ∧ resolvedKeys d = ∅ ∧ unresolvedKeys d = ∅
    ∧ (∀ k, k ∈ keys d
            ↔ k ≠ EmptyString ∧ k ∈ cited_ids (processed_of E content))
    ∧ fc_citations d = [] ∧ bib d = None ∧ settings d = None.
Proof.
  intros Hp Hmax [src Hsome] He r.
  unfold pass_source in Hsome.
  destruct (out (pass_scope E file w)) as [[[c s] src']|e] eqn:Hout; [|done].
  injection Hsome as ->.
  destruct (pass_observers file w _ _ src Hout) as (Hsrc & Heng & _).
  rewrite Heng in He.
  pose proof (pass_no_engine E file content w _ _ src _ _ Hp
                (result_out _ _ Hout) He) as Hr.
  exists src, (null_result (collect_keys (processed_of E content)) ∅ ∅ src).
  subst r. rewrite Hr. cbn [out post trace].
  split_and!; try done.
  - apply peek_stored. by rewrite pass_scope_max.
  - intros k. cbn [null_result keys]. apply elem_of_collect_keys.
Qed.

Lemma scope_trace_events file w ev :
  ev ∈ trace (pass_scope E file w) → scope_event ev.
Proof.
  intros Hev. pose proof (pass_scope_emits E file w) as Hall.
  rewrite Forall_forall in Hall. by apply Hall.
Qed.

Lemma pass_fileCache_max file w s1 s2 c1 c2 :
  LRU.max
    (fileCache
       (manager (called c2 s2 (called c1 s1 (post (pass_scope E file w))))))
  = LRU.max (fileCache (manager w)).
Proof. by rewrite !called_fileCache, pass_scope_max. Qed.

(** What a pass stores and delivers. *)
Lemma dispatched_cases file content w f d :
  EvDispatch f d ∈ trace (getReferenceList E file content w) →
  let processed := processed_of E content in
  let citeKeys := collect_keys processed in
  let w1 := post (pass_scope E file w) in
  ∃ src,
    pass_source E file w = Some src ∧
    let fg :=
      filter_groups (bibCache_of src w1) processed
        (partition_keys (bibCache_of src w1) citeKeys) in
    f = file ∧ keys d = citeKeys
    ∧ (0 < LRU.max (fileCache (manager w)) →
       LRU.peek file
         (fileCache (manager (post (getReferenceList E file content w))))
       = Some d)
    ∧ ((engine_of src w1 = None ∧ resolvedKeys d = ∅ ∧ unresolvedKeys d = ∅)
       ∨ (is_Some (engine_of src w1)
          ∧ resolvedKeys d = fg.2.1 ∧ unresolvedKeys d = fg.2.2)).
Proof.
  intros Hd processed citeKeys w1.
  assert (∀ t, EvDispatch f d ∈ (trace (pass_scope E file w) ++ t)%list →
               EvDispatch f d ∈ t) as Hin.
  { intros t [Ht|Ht]%elem_of_app; [|done].
    by apply scope_trace_events in Ht. }
  destruct (pass_cases file content w)
    as [[_ Hr]|[(_ & e & _ & Hr)|(_ & s & src & _ & Hs & Hcases)]].
  { rewrite Hr in Hd. by apply elem_of_nil in Hd. }
  { rewrite Hr in Hd. cbn [trace] in Hd. by apply scope_trace_events in Hd. }
  destruct (pass_observers file w _ _ src Hs) as (Hsrc & _).
  exists src. split; [done|]. cbv zeta in Hcases. intros fg.
  destruct Hcases as [(He & Hr)|(eng & He & Hcases)].
  - rewrite Hr in Hd |- *. cbn [trace post] in *. apply Hin in Hd.
    apply list_elem_of_singleton in Hd. injection Hd as -> ->.
    split_and!; [done|done| |left; by split_and!].
    intros Hm. apply peek_stored. by rewrite pass_scope_max.
  - destruct Hcases
      as [(e & _ & Hr)
         |(cits & _ & [[_ Hr]|[(_ & e & _ & Hr)|[(_ & _ & Hr)
                               |(_ & md & entries & _ & Hr)]]])].
    + rewrite Hr in Hd. cbn [trace] in Hd. apply Hin in Hd.
      apply list_elem_of_singleton in Hd. done.
    + rewrite Hr in Hd. cbn [trace] in Hd. apply Hin in Hd.
      apply list_elem_of_singleton in Hd. done.
    + rewrite Hr in Hd. cbn [trace] in Hd. apply Hin in Hd.
      apply elem_of_cons in Hd as [Hd|Hd]; [done|].
      by apply list_elem_of_singleton in Hd.
    + rewrite Hr in Hd |- *. cbn [trace post] in *. apply Hin in Hd.
      apply elem_of_cons in Hd as [Hd|Hd]; [done|].
      apply elem_of_cons in Hd as [Hd|Hd]; [done|].
      apply list_elem_of_singleton in Hd. injection Hd as -> ->.
      split_and!; [done|done| |right; split_and!; [subst w1; by rewrite He|done..]].
      intros Hm. apply peek_stored. by rewrite pass_fileCache_max.
    + rewrite Hr in Hd |- *. cbn [trace post] in *. apply Hin in Hd.
      assert (∀ t, EvDispatch f d ∈ ([EvCite fg.1; EvMakeBibliography]
                     ++ t)%list → EvDispatch f d ∈ t) as Hin2.
      { intros t Ht. cbn [app] in Ht.
        apply elem_of_cons in Ht as [Ht|Ht]; [done|].
        by apply elem_of_cons in Ht as [Ht|Ht]. }
      apply Hin2 in Hd. apply elem_of_app in Hd as [Hd|Hd].
      { destruct entries; [by apply elem_of_nil in Hd|].
        by apply list_elem_of_singleton in Hd. }
      apply list_elem_of_singleton in Hd. injection Hd as -> ->.
      split_and!; [done|done| |right; split_and!; [subst w1; by rewrite He|done..]].
      intros Hm. apply peek_stored.
      destruct entries; cbn [set_nextNode manager];
        by rewrite pass_fileCache_max.
Qed.

(** C2 (as amended).  For every entry that a pass of [getReferenceList]
    stores in the resolution cache, [resolvedKeys] and [unresolvedKeys] are
    disjoint and [keys] holds the non-empty cited ids.  When the pass had a
    usable engine the two sets cover [keys], and their union equals [keys]
    provided no citation has an empty id; when the pass had no usable engine
    both sets are empty. *)
Theorem stored_key_sets file content w f d :
  EvDispatch f d ∈ trace (getReferenceList E file content w) →
  f = file
  ∧ (0 < LRU.max (fileCache (manager w)) →
     LRU.peek file
       (fileCache (manager (post (getReferenceList E file content w))))
     = Some d)
  ∧ resolvedKeys d ## unresolvedKeys d
  ∧ (∀ k, k ∈ keys d
          ↔ k ≠ EmptyString ∧ k ∈ cited_ids (processed_of E content))
  ∧ (pass_engine E file w = None →
     resolvedKeys d = ∅ ∧ unresolvedKeys d = ∅)
  ∧ (is_Some (pass_engine E file w) →
     keys d ⊆ resolvedKeys d ∪ unresolvedKeys d
     ∧ (Forall (λ k, k ≠ EmptyString) (cited_ids (processed_of E content)) →
        resolvedKeys d ∪ unresolvedKeys d = keys d)).
Proof.
  intros Hd.
  destruct (dispatched_cases file content w f d Hd)
    as (src & Hsrc & -> & Hk & Hpeek & Hsets).
  assert (pass_engine E file w = engine_of src (post (pass_scope E file w)))
    as Heng.
  { unfold pass_engine. rewrite Hsrc. by rewrite source_engine_eq. }
  pose proof (pass_sets_spec (bibCache_of src (post (pass_scope E file w)))
                (processed_of E content)) as (Hdisj & Hsub & _ & Heq).
  rewrite Heng, Hk.
  split_and!; [done|done| | | |].
  - destruct Hsets as [(_ & -> & ->)|(_ & -> & ->)]; [|done].
    intros k Hk'. by apply elem_of_empty in Hk'.
  - intros k. apply elem_of_collect_keys.
  - intros He. destruct Hsets as [(_ & -> & ->)|(Hsome & _)]; [done|].
    rewrite He in Hsome. by destruct Hsome.
  - intros Hsome. destruct Hsets as [(He & _)|(_ & -> & ->)]; [|done].
    rewrite He in Hsome. by destruct Hsome.
Qed.

(** C6 (as amended).  In a pass with a usable engine, the groups handed to
    the engine are exactly the groups all of whose citations have their id
    in the lookup of the scope, in source order; a group with a citation
    that does not resolve is left out.  Every non-empty id of every group,
    kept or left out, is in one of the two key sets of the pass, on the side
    the lookup decides; an empty id is in one of them exactly when the walk
    over its group comes to it, that is when all citations before it in the
    group resolve.  These are the sets of the result the pass stores. *)
Theorem groups_rendered_iff_all_resolve file content w eng :
  pass_engine E file w = Some eng →
  let processed := processed_of E content in
  let bibCache := pass_bibCache E file w in
  let part := pass_partition E file content w in
  let r := getReferenceList E file content w in
  part.1 = filter (λ g, Forall (resolves bibCache) (citations g)) processed
  ∧ (∀ g, g ∈ part.1
          ↔ g ∈ processed
            ∧ ∀ c, c ∈ citations g → is_Some (bibCache !! cit_id c))
  ∧ (processed ≠ [] → EvCite part.1 ∈ trace r)
  ∧ (∀ groups, EvCite groups ∈ trace r → groups = part.1)
  ∧ (∀ k, k ∈ part.2.1
          ↔ is_Some (bibCache !! k)
            ∧ ((k ≠ EmptyString ∧ k ∈ cited_ids processed)
               ∨ reached bibCache processed k))
  ∧ (∀ k, k ∈ part.2.2
          ↔ bibCache !! k = None
            ∧ ((k ≠ EmptyString ∧ k ∈ cited_ids processed)
               ∨ reached bibCache processed k))
  ∧ (∀ d, EvDispatch file d ∈ trace r →
          resolvedKeys d = part.2.1 ∧ unresolvedKeys d = part.2.2).
Proof.
  intros He processed bibCache part r.
  assert (∃ c s src, out (pass_scope E file w) = Ret (c, s, src))
    as (c & s & src & Hs).
  { unfold pass_engine, pass_source in He.
    destruct (out (pass_scope E file w)) as [[[c s] src]|e]; [|done].
    by exists c, s, src. }
  destruct (pass_observers file w _ _ src Hs) as (Hsrc & Heng & Hbc).
  rewrite Heng in He.
  assert (part = filter_groups (bibCache_of src (post (pass_scope E file w)))
                   processed
                   (partition_keys
                      (bibCache_of src (post (pass_scope E file w)))
                      (collect_keys processed))) as Hpart.
  { subst part. unfold pass_partition. by rewrite Hbc. }
  subst bibCache. rewrite Hbc.
  set (bc := bibCache_of src (post (pass_scope E file w))) in *.
  pose proof (filter_groups_spec bc processed
                (partition_keys bc (collect_keys processed)))
    as (Hfilter & _). rewrite <- Hpart in Hfilter.
  pose proof (filter_groups_sets bc processed
                (partition_keys bc (collect_keys processed))) as [Hres Hunres].
  rewrite <- Hpart in Hres, Hunres.
  assert (∀ ev t, ¬ scope_event ev →
                  ev ∈ (trace (pass_scope E file w) ++ t)%list → ev ∈ t) as Hin.
  { intros ev t Hne [Ht|Ht]%elem_of_app; [|done].
    by apply scope_trace_events in Ht. }
  assert (processed ≠ [] →
          ∃ t, trace r = (trace (pass_scope E file w) ++ EvCite part.1 :: t)%list
               ∧ ∀ groups, EvCite groups ∉ t) as Htrace.
  { intros Hp.
    destruct (pass_cases file content w)
      as [[Hnil _]|[(_ & e & He' & _)|(_ & s' & src' & _ & Hs' & Hc)]];
      [done|congruence|].
    assert (src' = src) as -> by congruence.
    cbv zeta in Hc. fold processed bc in Hc. rewrite <- Hpart in Hc. subst r.
    destruct Hc as [(He' & _)|(eng' & _ & Hc)]; [congruence|].
    destruct Hc
      as [(e & _ & ->)
         |(cits & _ & [[_ ->]|[(_ & e & _ & ->)|[(_ & _ & ->)
                               |(_ & md & entries & _ & ->)]]])];
      cbn [trace app]; eexists; (split; [reflexivity|]); intros groups Hg.
    - by apply elem_of_nil in Hg.
    - by apply elem_of_nil in Hg.
    - by apply list_elem_of_singleton in Hg.
    - apply elem_of_cons in Hg as [Hg|Hg]; [done|].
      by apply list_elem_of_singleton in Hg.
    - apply elem_of_cons in Hg as [Hg|Hg]; [done|].
      apply elem_of_app in Hg as [Hg|Hg].
      + destruct entries; [by apply elem_of_nil in Hg|].
        by apply list_elem_of_singleton in Hg.
      + by apply list_elem_of_singleton in Hg. }
  split_and!.
  - done.
  - intros g. rewrite Hfilter, list_elem_of_filter, Forall_forall. tauto.
  - intros Hp. destruct (Htrace Hp) as (t & -> & _).
    apply elem_of_app. right. by left.
  - intros groups Hg.
    destruct (decide (processed = [])) as [Hp|Hp].
    { exfalso. subst r. unfold getReferenceList in Hg.
      fold (processed_of E content) in Hg. fold processed in Hg.
      rewrite Hp in Hg. by apply elem_of_nil in Hg. }
    destruct (Htrace Hp) as (t & Ht & Hno). rewrite Ht in Hg.
    apply (Hin (EvCite groups) _ (λ x : False, x)) in Hg.
    apply elem_of_cons in Hg as [Hg|Hg]; [congruence|].
    by apply Hno in Hg.
  - intros k. rewrite Hres. cbn [partition_keys fst].
    rewrite elem_of_filter, elem_of_collect_keys. tauto.
  - intros k. rewrite Hunres. cbn [partition_keys snd].
    rewrite elem_of_filter, elem_of_collect_keys.
    destruct (bc !! k) as [entry|] eqn:Hk.
    + split; [intros [[Hn _]|[? _]]; [|done]|intros [? _]; done].
      exfalso. apply Hn. by eexists.
    + split; [intros [[_ ?]|[_ ?]]; tauto|].
      intros [_ [?|?]]; [left|right; tauto].
      split; [|done]. by intros [? ?].
  - intros d Hd.
    destruct (dispatched_cases file content w file d Hd)
      as (src' & Hsrc' & _ & _ & _ & Hsets).
    assert (src' = src) as -> by congruence.
    destruct Hsets as [(He' & _)|(_ & Hr & Hu)]; [congruence|].
    fold processed bc in Hr, Hu. by rewrite <- Hpart in Hr, Hu.
Qed.

Lemma called_langCache call s w :
  langCache (manager (called call s w)) = langCache (manager w).
Proof. by destruct s. Qed.

(** C7 (as amended).  When the pass asks the engine for the bibliography and
    [makeBibliography] returns a value without a positive length, the whole
    result is the empty one: the pass returns null and stores and delivers a
    result with no bibliography, no citations and no settings, whatever the
    engine rendered.  When it returns the metadata with an empty list of
    entries, the pass returns null and the stored result has no
    bibliography, but it keeps the rendered citations and the settings. *)
Theorem empty_bibliography_result file content w eng :
  pass_engine E file w = Some eng →
  let r := getReferenceList E file content w in
  let part := pass_partition E file content w in
  let locales := langCache (manager (post (pass_scope E file w))) in
  let rendered := renderCitations E locales eng part.1 in
  let bibres :=
    makeBibliography E locales (record_call (CallCite part.1) eng) in
  EvMakeBibliography ∈ trace r →
  (bibres = Ret BibAbsent →
   out r = Ret None
   ∧ ∃ d, EvDispatch file d ∈ trace r
          ∧ bib d = None ∧ fc_citations d = [] ∧ settings d = None
          ∧ citeBibMap d = ∅)
  ∧ (∀ md, bibres = Ret (BibPair md []) →
     out r = Ret None
     ∧ ∃ d, EvDispatch file d ∈ trace r
            ∧ bib d = None ∧ rendered = Ret (fc_citations d)
            ∧ getScopedSettings w file = Ret (settings d)).
Proof.
  intros He r part locales rendered bibres Hm.
  assert (∀ t, EvMakeBibliography ∈ (trace (pass_scope E file w) ++ t)%list →
               EvMakeBibliography ∈ t) as Hin.
  { intros t [Ht|Ht]%elem_of_app; [|done].
    by apply scope_trace_events in Ht. }
  destruct (pass_cases file content w)
    as [[_ Hr]|[(_ & e & _ & Hr)|(_ & s & src & Hset & Hs & Hcases)]].
  { subst r. rewrite Hr in Hm. by apply elem_of_nil in Hm. }
  { subst r. rewrite Hr in Hm. cbn [trace] in Hm.
    by apply scope_trace_events in Hm. }
  destruct (pass_observers file w _ _ src Hs) as (Hsrc & Heng & Hbc).
  cbv zeta in Hcases. rewrite Heng in He.
  assert (filter_groups (bibCache_of src (post (pass_scope E file w)))
            (processed_of E content)
            (partition_keys
               (bibCache_of src (post (pass_scope E file w)))
               (collect_keys (processed_of E content))) = part) as Hpart.
  { subst part. unfold pass_partition. by rewrite Hbc. }
  rewrite Hpart in Hcases.
  destruct Hcases as [(He' & _)|(eng' & He' & Hc)]; [congruence|].
  assert (eng' = eng) as -> by congruence.
  rewrite called_langCache in Hc. fold locales rendered bibres in Hc.
  destruct Hc
    as [(e & _ & Hr)
       |(cits & Hcits & [[_ Hr]|[(_ & e & Hb & Hr)|[(_ & Hb & Hr)
                                 |(_ & md & entries & Hb & Hr)]]])].
  - subst r. rewrite Hr in Hm. cbn [trace] in Hm. apply Hin in Hm.
    by apply list_elem_of_singleton in Hm.
  - subst r. rewrite Hr in Hm. cbn [trace] in Hm. apply Hin in Hm.
    by apply list_elem_of_singleton in Hm.
  - split; [intros Ha; congruence|intros md Hmd; congruence].
  - split; [|intros md Hmd; congruence]. intros _. subst r. rewrite Hr.
    cbn [out trace]. split; [done|]. eexists. split.
    { apply elem_of_app. right. do 2 right. by left. }
    done.
  - split; [intros Ha; congruence|]. intros md' Hmd.
    assert (entries = []) as -> by congruence.
    subst r. rewrite Hr. cbn [out trace]. split; [done|]. eexists. split.
    { apply elem_of_app. right. do 2 right. by left. }
    done.
Qed.

Lemma loadScopedEngine_trace_head s w :
  ∃ t, trace (loadScopedEngine E s w) = EvLoadScopedEngine s :: t.
Proof.
  unfold loadScopedEngine. msimpl.
  match goal with |- context [match ?r with Build_Result _ _ _ _ => _ end] =>
    destruct r as [o w2 t2] end.
  by eexists.
Qed.

(** The events of a pass are those of its scope followed by rendering
    events. *)
Lemma pass_trace file content w :
  processed_of E content ≠ [] →
  ∃ t, trace (getReferenceList E file content w)
       = (trace (pass_scope E file w) ++ t)%list
       ∧ Forall render_event t.
Proof.
  intros Hp.
  destruct (pass_cases file content w)
    as [[Hnil _]|[(_ & e & _ & ->)|(_ & s & src & _ & _ & Hcases)]]; [done| |].
  { exists []. by rewrite app_nil_r. }
  cbv zeta in Hcases. destruct Hcases as [(_ & ->)|(eng & _ & Hc)].
  { eexists. split; [done|]. by repeat constructor. }
  destruct Hc
    as [(e & _ & ->)
       |(cits & _ & [[_ ->]|[(_ & e & _ & ->)|[(_ & _ & ->)
                             |(_ & md & entries & _ & ->)]]])];
    cbn [trace]; (eexists; split; [done|]); [by repeat constructor..|].
  destruct entries; by repeat constructor.
Qed.

(** A pass whose scope cannot be had ends with the error of the scope. *)
Lemma pass_scope_throws file content w e :
  processed_of E content ≠ [] →
  out (pass_scope E file w) = Throw e →
  getReferenceList E file content w =
    {| out := Throw e; post := post (pass_scope E file w);
       trace := trace (pass_scope E file w) |}.
Proof.
  intros Hp Hs.
  destruct (pass_cases file content w)
    as [[Hnil _]|[(_ & e' & He' & Hr)|(_ & s & src & _ & Hs' & _)]];
    [done| |congruence].
  rewrite Hr. congruence.
Qed.

(** C1 (as amended).  A pass over a text without a citation group returns
    null at once: it reads neither the cache nor the front matter, and it
    builds nothing.  In a pass over a text with a citation group that reads
    the settings of the file, the cached scope is reused exactly when the
    file has a cached entry whose stored settings agree field by field
    (bibliography, style, lang; an absent settings object has no field)
    with the settings the file declares now.  When they differ, or when the
    file has no cached entry, [loadScopedEngine] is called for the declared
    settings: the scope of the pass is the one it returns, and when it
    throws, the pass has no scope and ends with that error.  A pass that
    cannot read the front matter ends with the error of the read, before a
    scope is reused or built. *)
Theorem scope_reused_iff_settings_agree file content w :
  let cachedDoc := LRU.peek file (fileCache (manager w)) in
  let r := getReferenceList E file content w in
  (processed_of E content = [] →
   r = {| out := Ret None; post := w; trace := [] |})
  ∧ (processed_of E content ≠ [] →
     (∀ current,
        getScopedSettings w file = Ret current →
        let built := loadScopedEngine E current (touch file w) in
        (∀ d, cachedDoc = Some d → settings_agree current d →
              pass_source E file w = Some (source d)
              ∧ ∀ s, EvLoadScopedEngine s ∉ trace r)
        ∧ ((cachedDoc = None
            ∨ ∃ d, cachedDoc = Some d ∧ ¬ settings_agree current d) →
           EvLoadScopedEngine current ∈ trace r
           ∧ (∀ src, out built = Ret src → pass_source E file w = Some src)
           ∧ (∀ e, out built = Throw e →
                   pass_source E file w = None ∧ out r = Throw e))
        ∧ ((∃ d, cachedDoc = Some d ∧ settings_agree current d)
           ↔ ∀ s, EvLoadScopedEngine s ∉ trace r))
     ∧ (∀ e, getScopedSettings w file = Throw e →
             out r = Throw e
             ∧ pass_source E file w = None
             ∧ ∀ s, EvLoadScopedEngine s ∉ trace r)).
Proof.
  intros cachedDoc r. split.
  { intros Hnil. subst r. unfold getReferenceList.
    fold (processed_of E content). by rewrite Hnil. }
  intros Hp. subst cachedDoc.
  destruct (pass_trace file content w Hp) as (t & Ht & Hrender).
  fold r in Ht.
  assert (∀ s, EvLoadScopedEngine s ∉ t) as Hnot.
  { intros s Hin. rewrite Forall_forall in Hrender. by apply Hrender in Hin. }
  split.
  2:{ intros e He. pose proof (pass_scope_unreadable E file w e He) as Hs.
      split_and!.
      - subst r. rewrite (pass_scope_throws file content w e Hp); [done|].
        by rewrite Hs.
      - unfold pass_source. by rewrite Hs.
      - intros s. rewrite Ht, Hs. cbn [trace app]. apply Hnot. }
  intros current Hcur built.
  assert (∀ d, LRU.peek file (fileCache (manager w)) = Some d →
               settings_agree current d →
               pass_source E file w = Some (source d)
               ∧ ∀ s, EvLoadScopedEngine s ∉ trace r) as Hreuse.
  { intros d Hd Ha.
    pose proof (pass_scope_reuse E file w d current Hcur Hd Ha) as Hs.
    split; [unfold pass_source; by rewrite Hs|].
    intros s. rewrite Ht, Hs. cbn [trace app]. apply Hnot. }
  assert ((LRU.peek file (fileCache (manager w)) = None
           ∨ ∃ d, LRU.peek file (fileCache (manager w)) = Some d
                  ∧ ¬ settings_agree current d) →
          EvLoadScopedEngine current ∈ trace r
          ∧ (∀ src, out built = Ret src → pass_source E file w = Some src)
          ∧ (∀ e, out built = Throw e →
                  pass_source E file w = None ∧ out r = Throw e)) as Hbuild.
  { intros Hc. pose proof (pass_scope_build E file w current Hcur Hc) as Hs.
    cbv zeta in Hs. fold built in Hs. split_and!.
    - rewrite Ht, Hs. cbn [trace]. subst built.
      destruct (loadScopedEngine_trace_head current (touch file w)) as [t' ->].
      apply elem_of_app. left. by left.
    - intros src Hsrc. unfold pass_source. by rewrite Hs, Hsrc.
    - intros e He. split; [unfold pass_source; by rewrite Hs, He|].
      subst r. rewrite (pass_scope_throws file content w e Hp); [done|].
      by rewrite Hs, He. }
  split_and!; [done|done|]. split.
  - intros (d & Hd & Ha). by apply (Hreuse d).
  - intros Hno. destruct (LRU.peek file (fileCache (manager w))) as [d|] eqn:Hd.
    + destruct (areSettingsEqual current (Some d)) eqn:Ha.
      * exists d. split; [done|]. by apply areSettingsEqual_agree.
      * apply areSettingsEqual_disagree in Ha.
        destruct Hbuild as [Hin _]; [right; by exists d|].
        by apply Hno in Hin.
    + destruct Hbuild as [Hin _]; [by left|]. by apply Hno in Hin.
Qed.

Lemma guarded_throws {A} (block : M A) w e :
  out (block w) = Throw e →
  guarded block w =
    {| out := Ret (inl SrcThis); post := post (block w);
       trace := trace (block w) ++ [EvConsoleError e] |}.
Proof.
  intros Hb. unfold guarded, try_catch, bind.
  destruct (block w) as [o w1 t1]. cbn [out] in Hb. subst o. reflexivity.
Qed.

Lemma guarded_returns {A} (block : M A) w a :
  out (block w) = Ret a →
  guarded block w =
    {| out := Ret (inr a); post := post (block w); trace := trace (block w) |}.
Proof.
  intros Hb. unfold guarded, try_catch, bind.
  destruct (block w) as [o w1 t1]. cbn [out] in Hb. subst o. msimpl.
  by rewrite app_nil_r.
Qed.

(** A throwing step makes [loadScopedEngine] log the error and return the
    manager itself. *)
Lemma loadScopedEngine_falls_back settings w e :
  scope_step_throws E settings w e →
  out (loadScopedEngine E (Some settings) w) = Ret SrcThis
  ∧ EvConsoleError e ∈ trace (loadScopedEngine E (Some settings) w).
Proof.
  unfold scope_step_throws. cbv zeta. intros Hfail.
  unfold loadScopedEngine. msimpl.
  set (style0 := JS.nullish _ default_style_url) in *.
  set (lang0 := JS.nullish _ "en-US") in *.
  destruct Hfail as [(s & Hs & Ht & Hthrow)
                    |[(langs & style & l & Hr1 & Hl & Ht & Hthrow)
                     |(langs & style & lang & b & Hr1 & Hr2 & Hb & Ht & Hthrow)]].
  - erewrite bind_run.
    2:{ unfold style_step. rewrite Hs, Ht. by apply guarded_throws. }
    msimpl. split; [done|]. right. apply elem_of_app. left.
    apply elem_of_app. right. by left.
  - destruct (style_step E settings [settings_lang settings] style0 w)
      as [o1 w1 t1] eqn:Hstyle.
    cbn [out post] in *. subst o1.
    rewrite (bind_run _ _ _ _ _ _ Hstyle). msimpl.
    erewrite bind_run.
    2:{ unfold lang_step. rewrite Hl, Ht. by apply guarded_throws. }
    msimpl. split; [done|]. right. apply elem_of_app. right.
    apply elem_of_app. left. apply elem_of_app. right. by left.
  - destruct (style_step E settings [settings_lang settings] style0 w)
      as [o1 w1 t1] eqn:Hstyle.
    cbn [out post] in *. subst o1.
    rewrite (bind_run _ _ _ _ _ _ Hstyle). msimpl.
    destruct (lang_step E settings langs lang0 w1) as [o2 w2 t2] eqn:Hlang.
    cbn [out post] in *. subst o2.
    rewrite (bind_run _ _ _ _ _ _ Hlang). msimpl.
    erewrite bind_run.
    2:{ unfold bib_step. rewrite Hb, Ht.
        erewrite bind_run by (by apply guarded_throws). msimpl.
        rewrite app_nil_r. reflexivity. }
    msimpl. split; [done|]. right. apply elem_of_app. right.
    apply elem_of_app. right. apply elem_of_app. left.
    apply elem_of_app. right. by left.
Qed.

(** C4 (as amended).  When the style load, the locale load or the
    bibliography conversion throws while [loadScopedEngine] builds the scope
    of a pass, the error is logged to the console and [loadScopedEngine]
    does not raise it: it returns the manager itself, so the pass goes on
    with the global lookup and the global engine.  The pass then returns
    null when the manager has no engine, and the only error it can still
    raise to its caller is one that the global engine throws when it is
    called to render or to make the bibliography. *)
Theorem scope_load_failure_falls_back file content w settings e :
  getScopedSettings w file = Ret (Some settings) →
  (LRU.peek file (fileCache (manager w)) = None
   ∨ ∃ d, LRU.peek file (fileCache (manager w)) = Some d
          ∧ ¬ settings_agree (Some settings) d) →
  scope_step_throws E settings (touch file w) e →
  let r := getReferenceList E file content w in
  let locales := langCache (manager (post (pass_scope E file w))) in
  out (loadScopedEngine E (Some settings) (touch file w)) = Ret SrcThis
  ∧ pass_source E file w = Some SrcThis
  ∧ pass_engine E file w = engine (manager w)
  ∧ pass_bibCache E file w = bibCache (manager w)
  ∧ EvConsoleError e ∈ trace (pass_scope E file w)
  ∧ (processed_of E content ≠ [] → EvConsoleError e ∈ trace r)
  ∧ (engine (manager w) = None → out r = Ret None)
  ∧ (∀ e', out r = Throw e' →
       ∃ eng groups,
         engine (manager w) = Some eng
         ∧ (renderCitations E locales eng groups = Throw e'
            ∨ makeBibliography E locales (record_call (CallCite groups) eng)
              = Throw e')).
Proof.
  intros Hsettings Hbuild Hfail r locales.
  pose proof (pass_scope_build E file w (Some settings) Hsettings Hbuild) as Hs.
  cbv zeta in Hs.
  destruct (loadScopedEngine_falls_back settings (touch file w) e Hfail)
    as [Hout Hlog].
  rewrite Hout in Hs.
  destruct (pass_observers file w _ _ SrcThis (f_equal out Hs))
    as (Hsource & Heng & Hbc).
  destruct (pass_scope_frame E file w) as (_ & Hb & _ & He & _).
  assert (EvConsoleError e ∈ trace (pass_scope E file w)) as Hin.
  { by rewrite Hs. }
  cbn [engine_of bibCache_of] in Heng, Hbc.
  change (engine (manager (touch file w))) with (engine (manager w)) in He.
  change (bibCache (manager (touch file w))) with (bibCache (manager w)) in Hb.
  destruct (pass_cases file content w)
    as [[Hnil Hr]|[(_ & e0 & He0 & _)|(Hp & s & src & _ & Hs' & Hcases)]].
  { fold r in Hr. split_and!; try done.
    - by rewrite Heng, He.
    - by rewrite Hbc, Hb.
    - intros _. by rewrite Hr.
    - intros e'. by rewrite Hr. }
  { rewrite Hs in He0. done. }
  assert (src = SrcThis) as ->.
  { rewrite Hs in Hs'. cbn [out] in Hs'. congruence. }
  cbv zeta in Hcases. fold r locales in Hcases.
  cbn [engine_of] in Hcases. rewrite He in Hcases.
  split_and!; try done.
  - by rewrite Heng, He.
  - by rewrite Hbc, Hb.
  - intros _. destruct (pass_trace file content w Hp) as (t & Ht & _).
    subst r. rewrite Ht. apply elem_of_app. by left.
  - intros Hnone. destruct Hcases as [(_ & ->)|(eng & Hsome & _)]; [done|].
    congruence.
  - intros e' He'.
    destruct Hcases as [(_ & Hr)|(eng & Hsome & Hc)].
    { rewrite Hr in He'. done. }
    rewrite called_langCache in Hc. fold locales in Hc.
    exists eng. eexists. split; [done|].
    destruct Hc
      as [(e1 & Hthrow & Hr)
         |(cits & _ & [[_ Hr]|[(_ & e1 & Hthrow & Hr)|[(_ & _ & Hr)
                               |(_ & md & entries & _ & Hr)]]])];
      rewrite Hr in He'; cbn [out] in He'; try done.
    + left. injection He' as <-. exact Hthrow.
    + right. injection He' as <-. exact Hthrow.
Qed.

(** ** Two passes in a row *)

Lemma called_metadataCache call s w :
  metadataCache (called call s w) = metadataCache w.
Proof. by destruct s. Qed.

Lemma called_nextNode call s w : nextNode (called call s w) = nextNode w.
Proof. by destruct s. Qed.

Lemma bibCache_of_called call s w :
  bibCache_of (called_source call s) (called call s w) = bibCache_of s w.
Proof. by destruct s. Qed.

Lemma render_record_call locales call e groups :
  render_stable E →
  renderCitations E locales (record_call call e) groups
  = renderCitations E locales e groups.
Proof. intros Hst. apply (Hst locales e (eng_calls e ++ [call])%list). Qed.

(** A pass over a file whose cached entry agrees with the declared settings
    and holds what the engine renders now returns the cached bibliography
    after one call of the engine. *)
Lemma pass_on_unchanged_cache file content w d s eng :
  processed_of E content ≠ [] →
  LRU.peek file (fileCache (manager w)) = Some d →
  getScopedSettings w file = Ret s →
  settings_agree s d →
  engine_of (source d) w = Some eng →
  let fg :=
    filter_groups (bibCache_of (source d) w) (processed_of E content)
      (partition_keys (bibCache_of (source d) w)
         (collect_keys (processed_of E content))) in
  renderCitations E (langCache (manager w)) eng fg.1 = Ret (fc_citations d) →
  out (getReferenceList E file content w) = Ret (bib d)
  ∧ trace (getReferenceList E file content w) = [EvCite fg.1].
Proof.
  intros Hp Hd Hset Ha He fg Hc.
  pose proof (pass_scope_reuse E file w d s Hset Hd Ha) as Hs.
  assert (engine_of (source d) (touch file w) = Some eng) as He'.
  { by destruct (source d). }
  assert (bibCache_of (source d) (touch file w) = bibCache_of (source d) w)
    as Hb by (by destruct (source d)).
  pose proof (pass_unchanged E file content w _ _ _ _ _ Hp Hs eng
                (fc_citations d) He') as Hr.
  cbv zeta in Hr. rewrite Hb in Hr. fold fg in Hr.
  change (langCache (manager (touch file w))) with (langCache (manager w)) in Hr.
  rewrite Hr; [done|done|]. cbn [unchanged].
  apply areSettingsEqual_agree in Ha. rewrite Ha.
  unfold equal. by rewrite bool_decide_true.
Qed.

End pass_properties.

Section repeated_pass.
Variable E : Env.
Hypothesis Hstable : render_stable E.

(** C3 (as amended).  When a call of [getReferenceList] has returned a
    bibliography, a second call for the same file with the same text and the
    same declared settings returns the same bibliography object.  The second
    call does invoke the engine, once, to render the citations it compares
    with the cached ones; it neither builds a scope, nor asks the engine for
    the bibliography, nor parses or delivers anything. *)
Theorem repeated_pass_returns_cached_bibliography file content w b :
  0 < LRU.max (fileCache (manager w)) →
  let r1 := getReferenceList E file content w in
  let r2 := getReferenceList E file content (post r1) in
  out r1 = Ret (Some b) →
  out r2 = Ret (Some b) ∧ ∃ groups, trace r2 = [EvCite groups].
Proof.
  intros Hmax r1 r2 Hout.
  destruct (pass_cases E file content w)
    as [[_ Hr]|[(_ & e & _ & Hr)|(Hp & s & src & Hset & Hs & Hcases)]].
  { fold r1 in Hr. rewrite Hr in Hout. done. }
  { fold r1 in Hr. rewrite Hr in Hout. done. }
  cbv zeta in Hcases. fold r1 in Hcases.
  set (w1 := post (pass_scope E file w)) in *.
  set (processed := processed_of E content) in *.
  set (fg := filter_groups (bibCache_of src w1) processed _) in *.
  destruct Hcases as [(_ & Hr)|(eng & He & Hc)].
  { rewrite Hr in Hout. done. }
  destruct Hc
    as [(e & _ & Hr)
       |(cits & Hcits & [[Hu Hr]|[(_ & e & _ & Hr)|[(_ & _ & Hr)
                                  |(Hu & md & entries & Hb & Hr)]]])].
  - rewrite Hr in Hout. done.
  - (* the first call already returned the cached bibliography *)
    rewrite Hr in Hout. cbn [out] in Hout.
    destruct (LRU.peek file (fileCache (manager w))) as [d0|] eqn:Hd0;
      [|done].
    cbn [cached_bib unchanged] in Hout, Hu.
    apply andb_prop in Hu as [Heq Ha]. apply areSettingsEqual_agree in Ha.
    apply bool_decide_eq_true in Heq.
    pose proof (pass_scope_reuse E file w d0 s Hset Hd0 Ha) as Hreuse.
    assert (src = source d0) as Hsrc.
    { rewrite Hreuse in Hs. cbn [out] in Hs. congruence. }
    assert (w1 = touch file w) as Hw1 by (subst w1; by rewrite Hreuse).
    set (src2 := called_source (CallCite fg.1) src) in *.
    set (w2 := called (CallCite fg.1) src w1) in *.
    assert (post r1 = shared file src2 w2) as Hpost by (by rewrite Hr).
    destruct (pass_on_unchanged_cache E file content (post r1)
                (with_source src2 d0) s (record_call (CallCite fg.1) eng))
      as [Hout2 Htrace2].
    + done.
    + rewrite Hpost. unfold shared.
      cbn [manager set_manager fileCache set_fileCache].
      rewrite peek_update_eq. subst w2. rewrite called_fileCache, Hw1.
      unfold touch. cbn [manager set_manager fileCache set_fileCache].
      by rewrite peek_get_eq, Hd0.
    + rewrite <- Hset. apply getScopedSettings_ext.
      rewrite Hpost. unfold shared. cbn [metadataCache set_manager].
      subst w2. rewrite called_metadataCache, Hw1. done.
    + done.
    + cbn [with_source source]. rewrite Hpost.
      change (engine_of src2 (shared file src2 w2)) with (engine_of src2 w2).
      by apply engine_of_called.
    + cbn [with_source source fc_citations]. rewrite Hpost.
      change (bibCache_of src2 (shared file src2 w2))
        with (bibCache_of src2 w2).
      change (langCache (manager (shared file src2 w2)))
        with (langCache (manager w2)).
      subst src2 w2. rewrite bibCache_of_called, called_langCache.
      fold processed fg. rewrite render_record_call by done. congruence.
    + fold r2 in Hout2, Htrace2. split; [|by eexists].
      rewrite Hout2. cbn [with_source bib]. congruence.
  - rewrite Hr in Hout. done.
  - rewrite Hr in Hout. done.
  - (* the first call stored a rendered result *)
    cbv zeta in Hr.
    set (src2 := called_source (CallCite fg.1) src) in *.
    set (w2 := called (CallCite fg.1) src w1) in *.
    set (src3 := called_source CallMakeBibliography src2) in *.
    set (w3 := called CallMakeBibliography src2 w2) in *.
    set (parsed := match entries with [] => None | _ :: _ => _ end) in *.
    set (w4 := match entries with [] => w3 | _ :: _ => _ end) in *.
    set (d := {| keys := _ |}) in *.
    rewrite Hr in Hout. cbn [out] in Hout.
    assert (post r1 = stored file d w4) as Hpost by (by rewrite Hr).
    assert (fileCache (manager w4) = fileCache (manager w1)) as Hfc.
    { subst w4 w3 w2. destruct entries; cbn [set_nextNode manager];
        by rewrite !called_fileCache. }
    assert (metadataCache w4 = metadataCache w) as Hmeta.
    { destruct (pass_scope_frame E file w) as (_ & _ & _ & _ & _ & Hm & _).
      subst w4 w3 w2. destruct entries; cbn [set_nextNode metadataCache];
        by rewrite !called_metadataCache. }
    assert (engine_of src3 w4
            = Some (record_call CallMakeBibliography
                      (record_call (CallCite fg.1) eng))) as He3.
    { assert (engine_of src3 w4 = engine_of src3 w3) as ->.
      { subst w4. by destruct entries, src3. }
      subst src3 w3. apply engine_of_called.
      subst src2 w2. by apply engine_of_called. }
    assert (bibCache_of src3 w4 = bibCache_of src w1) as Hbc.
    { assert (bibCache_of src3 w4 = bibCache_of src3 w3) as ->.
      { subst w4. by destruct entries, src3. }
      subst src3 w3 src2 w2. by rewrite !bibCache_of_called. }
    assert (langCache (manager w4) = langCache (manager w1)) as Hlc.
    { subst w4 w3 w2. destruct entries; cbn [set_nextNode manager];
        by rewrite !called_langCache. }
    destruct (pass_on_unchanged_cache E file content (post r1) d s
                (record_call CallMakeBibliography
                   (record_call (CallCite fg.1) eng)))
      as [Hout2 Htrace2].
    + done.
    + rewrite Hpost. apply peek_stored. rewrite Hfc. subst w1.
      by rewrite pass_scope_max.
    + rewrite <- Hset. apply getScopedSettings_ext. by rewrite Hpost.
    + subst d. unfold settings_agree. cbn [settings]. done.
    + rewrite Hpost. subst d. cbn [source].
      change (engine_of src3 (stored file _ w4)) with (engine_of src3 w4).
      done.
    + rewrite Hpost. subst d. cbn [source fc_citations].
      change (bibCache_of src3 (stored file _ w4)) with (bibCache_of src3 w4).
      change (langCache (manager (stored file _ w4)))
        with (langCache (manager w4)).
      rewrite Hbc, Hlc. fold processed fg.
      rewrite !render_record_call by done. done.
    + fold r2 in Hout2, Htrace2. split; [|by eexists].
      rewrite Hout2. subst d. cbn [bib]. done.
Qed.

End repeated_pass.

(** ** The resolution cache over runs of calls *)

Section cache_bound.
Variable E : Env.

Lemma cache_bounded_get file : preserves cache_bounded (fileCache_get file).
Proof.
  intros w [Hmax Hsize]. rewrite fileCache_get_eq. cbn [post]. unfold touch.
  split; cbn [manager set_manager fileCache set_fileCache].
  - by rewrite max_get.
  - etrans; [apply size_get|done].
Qed.

Lemma cache_bounded_set file d : preserves cache_bounded (fileCache_set file d).
Proof.
  intros w [Hmax Hsize].
  split; cbn [fileCache_set modify_manager modify post manager set_manager
              fileCache set_fileCache].
  - done.
  - etrans; [apply size_set|]. by rewrite Hmax.
Qed.

Lemma cache_bounded_share file s :
  preserves cache_bounded (fileCache_share_source file s).
Proof.
  intros w [Hmax Hsize].
  split; cbn [fileCache_share_source modify_manager modify post manager
              set_manager fileCache set_fileCache]; [done|].
  by rewrite size_update.
Qed.

Lemma cache_bounded_frame w w' :
  fileCache (manager w') = fileCache (manager w) →
  cache_bounded w → cache_bounded w'.
Proof. unfold cache_bounded. by intros ->. Qed.

Lemma cache_bounded_engine_called call s :
  preserves cache_bounded (engine_called call s).
Proof.
  intros w Hw. rewrite engine_called_eq. cbn [post].
  eapply cache_bounded_frame; [apply called_fileCache|done].
Qed.

Lemma cache_bounded_parse html :
  preserves cache_bounded (parseFromString E html).
Proof. intros w Hw. exact Hw. Qed.

Lemma cache_bounded_loadScopedEngine s :
  preserves cache_bounded (loadScopedEngine E s).
Proof.
  intros w Hw.
  destruct (loadScopedEngine_frame E w s w (scope_frame_refl w)) as [Hfc _].
  by eapply cache_bounded_frame.
Qed.

Lemma cache_bounded_commit file c a s :
  preserves cache_bounded (commit_source file c a s).
Proof.
  pose proof cache_bounded_share. unfold commit_source. mstructure.
Qed.

Lemma cache_bounded_getReferenceList file content :
  preserves cache_bounded (getReferenceList E file content).
Proof.
  pose proof cache_bounded_get. pose proof cache_bounded_set.
  pose proof cache_bounded_share. pose proof cache_bounded_engine_called.
  pose proof cache_bounded_parse. pose proof cache_bounded_loadScopedEngine.
  pose proof cache_bounded_commit.
  unfold getReferenceList, pass_scope, select_source, setNull, cite,
    source_makeBibliography, source_engine, source_bibCache, dispatchResult.
  mstructure.
Qed.

Lemma cache_bounded_getNoteForNoteIndex file index :
  preserves cache_bounded (getNoteForNoteIndex E file index).
Proof.
  pose proof cache_bounded_get. pose proof cache_bounded_parse.
  unfold getNoteForNoteIndex. mstructure.
Qed.

Lemma cache_bounded_getBibForCiteKey file key :
  preserves cache_bounded (getBibForCiteKey E file key).
Proof.
  pose proof cache_bounded_get. pose proof cache_bounded_parse.
  unfold getBibForCiteKey. mstructure.
Qed.

Lemma cache_bounded_getResolution file key :
  preserves cache_bounded (getResolution file key).
Proof.
  pose proof cache_bounded_get. unfold getResolution. mstructure.
Qed.

Lemma cache_bounded_step op w : cache_bounded w → cache_bounded (step E op w).
Proof.
  intros Hw. destruct op; cbn [step].
  - by apply cache_bounded_getReferenceList.
  - by apply cache_bounded_getNoteForNoteIndex.
  - by apply cache_bounded_getBibForCiteKey.
  - by apply cache_bounded_getResolution.
  - by apply cache_bounded_get.
  - destruct Hw as [Hmax _]. split; [done|]. cbn. lia.
  - done.
Qed.

Lemma cache_bounded_run ops w : cache_bounded w → cache_bounded (run E ops w).
Proof.
  revert w. induction ops as [|op ops IH]; intros w Hw; [done|].
  cbn [run fold_left]. apply IH. by apply cache_bounded_step.
Qed.

(** The resolution cache after a pass over a text with a citation group:
    the pass has read the entry of the file, and it has written one exactly
    when it has delivered a result. *)
Lemma pass_cache file content w :
  processed_of E content ≠ [] →
  let r := getReferenceList E file content w in
  let read := (LRU.get file (fileCache (manager w))).2 in
  (∃ d, fileCache (manager (post r)) = LRU.set file d read)
  ∨ ((∀ f d, EvDispatch f d ∉ trace r)
     ∧ LRU.keys (fileCache (manager (post r))) = LRU.keys read).
Proof.
  intros Hp r read.
  assert (fileCache (manager (post (pass_scope E file w))) = read) as Hread.
  { by destruct (pass_scope_frame E file w) as (-> & _). }
  assert (∀ t, Forall render_event t →
               (∀ f d, EvDispatch f d ∉ t) →
               ∀ f d, EvDispatch f d ∉ (trace (pass_scope E file w) ++ t)%list)
    as Hquiet.
  { intros t _ Ht f d [Hin|Hin]%elem_of_app; [|by eapply Ht].
    by apply scope_trace_events in Hin. }
  assert (∀ c a s w',
            LRU.keys (fileCache (manager (committed file c a s w')))
            = LRU.keys (fileCache (manager w'))) as Hcommitted.
  { intros c a s w'. destruct c; [destruct a|]; cbn [committed]; [|done|done].
    apply keys_update. }
  destruct (pass_cases E file content w)
    as [[Hnil _]|[(_ & e & _ & Hr)|(_ & s & src & _ & _ & Hcases)]]; [done| |].
  { right. fold r in Hr. rewrite Hr. cbn [post trace]. split; [|by rewrite Hread].
    intros f d Hin. by apply scope_trace_events in Hin. }
  cbv zeta in Hcases. fold r in Hcases.
  destruct Hcases as [(_ & Hr)|(eng & _ & Hc)].
  { left. rewrite Hr. cbn [post]. eexists. unfold stored.
    cbn [manager set_manager fileCache set_fileCache]. by rewrite Hread. }
  destruct Hc
    as [(e & _ & Hr)
       |(cits & _ & [[_ Hr]|[(_ & e & _ & Hr)|[(_ & _ & Hr)
                             |(_ & md & entries & _ & Hr)]]])];
    rewrite Hr; cbn [post trace].
  - right. split.
    + apply Hquiet; [by repeat constructor|].
      intros f d Hin%list_elem_of_singleton. done.
    + by rewrite Hcommitted, called_fileCache, Hread.
  - right. split.
    + apply Hquiet; [by repeat constructor|].
      intros f d Hin%list_elem_of_singleton. done.
    + unfold shared. cbn [manager set_manager fileCache set_fileCache].
      by rewrite keys_update, called_fileCache, Hread.
  - right. split.
    + apply Hquiet; [by repeat constructor|].
      intros f d Hin. repeat (apply elem_of_cons in Hin as [?|Hin]; [done|]).
      by apply elem_of_nil in Hin.
    + by rewrite Hcommitted, !called_fileCache, Hread.
  - left. eexists. unfold stored.
    cbn [manager set_manager fileCache set_fileCache].
    by rewrite !called_fileCache, Hread.
  - left. cbv zeta. unfold stored.
    cbn [manager set_manager fileCache set_fileCache].
    destruct entries; cbn [set_nextNode manager];
      rewrite !called_fileCache, Hread; by eexists.
Qed.

(** C8.  The resolution cache of a manager never holds entries for more
    than 10 files: after every run of calls on a new manager the number of
    cached files is at most 10.  A pass of [getReferenceList] that delivers
    a result leaves that result as the most recently used entry; when the
    file was not cached and the cache held 10 files, the least recently
    used entry is gone and the other nine follow the new one; when there
    was room, every entry is kept.  A pass over a text with a citation
    group is a use of the entry of its file: a cached file becomes the most
    recently used one and the order of the others is kept. *)
Theorem resolution_cache_bounded ops w :
  manager w = newBibManager →
  let w' := run E ops w in
  let cache := fileCache (manager w') in
  LRU.size cache ≤ 10
  ∧ (∀ file content d,
       let r := getReferenceList E file content w' in
       let cache' := fileCache (manager (post r)) in
       EvDispatch file d ∈ trace r →
       LRU.peek file cache' = Some d
       ∧ LRU.size cache' ≤ 10
       ∧ (file ∉ LRU.keys cache → LRU.size cache = 10 →
          LRU.keys cache' = file :: removelast (LRU.keys cache))
       ∧ (file ∉ LRU.keys cache → LRU.size cache < 10 →
          LRU.keys cache' = file :: LRU.keys cache))
  ∧ (∀ file content,
       processed_of E content ≠ [] → file ∈ LRU.keys cache →
       LRU.keys
         (fileCache (manager (post (getReferenceList E file content w'))))
       = file :: filter (λ k, k ≠ file) (LRU.keys cache)).
Proof.
  intros Hnew w' cache.
  assert (cache_bounded w') as Hbounded.
  { apply cache_bounded_run. unfold cache_bounded. rewrite Hnew. cbn. lia. }
  destruct Hbounded as [Hmax Hsize].
  fold cache in Hmax, Hsize. split; [done|]. split.
  - intros file content d r cache' Hd.
    assert (processed_of E content ≠ []) as Hp.
    { intros Hnil. subst r. unfold getReferenceList in Hd.
      fold (processed_of E content) in Hd. rewrite Hnil in Hd.
      by apply elem_of_nil in Hd. }
    assert (cache_bounded (post r)) as [_ Hsize'].
    { by apply cache_bounded_getReferenceList. }
    destruct (dispatched_cases E file content w' file d Hd)
      as (src & _ & _ & _ & Hpeek & _).
    split_and!; [apply Hpeek; fold cache; lia|done| |].
    + intros Hfresh Hfull.
      destruct (pass_cache file content w' Hp) as [[d' Hset]|[Hno _]];
        [|by apply Hno in Hd].
      subst cache'. fold r in Hset. rewrite Hset. fold cache.
      rewrite get_miss by done.
      apply keys_set_full; [by rewrite Hmax|rewrite Hmax; lia|done].
    + intros Hfresh Hroom.
      destruct (pass_cache file content w' Hp) as [[d' Hset]|[Hno _]];
        [|by apply Hno in Hd].
      subst cache'. fold r in Hset. rewrite Hset. fold cache.
      rewrite get_miss by done.
      apply keys_set_room; [by rewrite Hmax|done].
  - intros file content Hp Hcached.
    destruct (pass_cache file content w' Hp) as [[d' Hset]|[_ Hkeys]].
    + rewrite Hset. fold cache. rewrite set_get.
      apply keys_set_hit; [by rewrite Hmax|done].
    + rewrite Hkeys. fold cache. by apply keys_get_hit.
Qed.


(** The three outcomes of [getNoteForNoteIndex] on a cached file. *)
Lemma getNoteForNoteIndex_cases file index w d :
  LRU.peek file (fileCache (manager w)) = Some d →
  let found :=
    find (λ c, match rc_noteIndex c with
               | Some a => JS.strict_eq a (JS.parseInt index)
               | None => false
               end) (fc_citations d) in
  match found with
  | None =>
      out (getNoteForNoteIndex E file index w)
      = Throw "TypeError: Cannot read properties of undefined (reading 'note')"
  | Some c =>
      if JS.truthy_opt (rc_note c)
      then ∃ nodes, out (getNoteForNoteIndex E file index w) = Ret (Some nodes)
      else out (getNoteForNoteIndex E file index w) = Ret None
  end.
Proof.
  intros Hd found. unfold getNoteForNoteIndex.
  mstep fileCache_get_eq. rewrite Hd. fold found.
  destruct found as [c|]; [|done].
  destruct (JS.truthy_opt (rc_note c)); cbn [negb]; [|done].
  unfold parseFromString. msimpl. by eexists.
Qed.

End cache_bound.

(** ** Runs on the small vault *)

Ltac in_trace :=
  apply list_elem_of_In; vm_compute;
  repeat first [left; reflexivity | right].

(** C1, a pass that contradicts the claim as stated: the text has no
    citation group, the file has no cached entry, and no scope is built. *)
Lemma no_citation_pass_builds_no_scope :
  ¬ (LRU.peek "a.md" (fileCache (manager Demo.fresh)) = None →
     ∃ s, EvLoadScopedEngine s
          ∈ trace (getReferenceList Demo.env "a.md" "plain text" Demo.fresh)).
Proof.
  intros H. destruct H as [s Hs]; [reflexivity|].
  assert (trace (getReferenceList Demo.env "a.md" "plain text" Demo.fresh) = [])
    as Ht by (vm_compute; reflexivity).
  rewrite Ht in Hs. by apply elem_of_nil in Hs.
Qed.

Lemma scope_reused_iff_settings_agree_witness :
  let w := Demo.with_apa_style in
  let r1 := getReferenceList Demo.env "a.md" "@smith99" w in
  let r2 := getReferenceList Demo.env "a.md" "@smith99" (post r1) in
  (EvLoadScopedEngine (Some Demo.apa_style) ∈ trace r1
   ∧ ∀ src,
       out (loadScopedEngine Demo.env (Some Demo.apa_style) (touch "a.md" w))
       = Ret src →
       pass_source Demo.env "a.md" w = Some src)
  ∧ (pass_source Demo.env "a.md" (post r1)
     = Some (source (Demo.entry_of "a.md" (post r1)))
     ∧ ∀ s, EvLoadScopedEngine s ∉ trace r2).
Proof.
  intros w r1 r2. split.
  - destruct (scope_reused_iff_settings_agree Demo.env "a.md" "@smith99" w)
      as [_ Hpass].
    destruct Hpass as [Hread _].
    { intros H. vm_compute in H. discriminate H. }
    destruct (Hread (Some Demo.apa_style)) as (_ & Hbuild & _);
      [reflexivity|].
    destruct Hbuild as (Hin & Hret & _); [left; reflexivity|].
    split; [exact Hin|exact Hret].
  - destruct (scope_reused_iff_settings_agree Demo.env "a.md" "@smith99"
                (post r1)) as [_ Hpass].
    destruct Hpass as [Hread _].
    { intros H. vm_compute in H. discriminate H. }
    destruct (Hread (Some Demo.apa_style)) as (Hreuse & _);
      [vm_compute; reflexivity|].
    apply (Hreuse (Demo.entry_of "a.md" (post r1))).
    + vm_compute. reflexivity.
    + vm_compute. repeat split; reflexivity.
Defined.

(** C2, an entry that contradicts the claim as stated: without a usable
    engine the stored entry has the cited key in [keys] and in neither of
    the two sets. *)
Lemma no_engine_entry_is_not_partitioned :
  let r := getReferenceList Demo.env "a.md" "@smith99" Demo.fresh in
  ¬ (∀ d, LRU.peek "a.md" (fileCache (manager (post r))) = Some d →
          resolvedKeys d ∪ unresolvedKeys d = keys d
          ∧ resolvedKeys d ## unresolvedKeys d).
Proof.
  intros r H.
  assert (LRU.peek "a.md" (fileCache (manager (post r)))
          = Some (null_result {["smith99"]} ∅ ∅ SrcThis)) as Hpeek
    by (vm_compute; reflexivity).
  destruct (H _ Hpeek) as [Hu _]. cbn [null_result resolvedKeys unresolvedKeys keys] in Hu.
  assert ("smith99" ∈ (∅ ∪ ∅ : gset string)) as Hin
    by (rewrite Hu; by apply elem_of_singleton).
  apply elem_of_union in Hin as [Hin|Hin]; by apply elem_of_empty in Hin.
Qed.

Lemma stored_key_sets_witness :
  let r := getReferenceList Demo.env "a.md" "@smith99 @doe2000" Demo.ready in
  let d := Demo.entry_of "a.md" (post r) in
  resolvedKeys d ## unresolvedKeys d.
Proof.
  intros r d.
  apply (stored_key_sets Demo.env "a.md" "@smith99 @doe2000" Demo.ready
           "a.md" d).
  in_trace.
Defined.

(** C3, a second call that contradicts the claim as stated: it returns what
    the first call returned, and it calls the engine to render. *)
Lemma second_pass_invokes_engine :
  let r1 := getReferenceList Demo.env "a.md" "@smith99" Demo.ready in
  let r2 := getReferenceList Demo.env "a.md" "@smith99" (post r1) in
  ¬ (out r2 = out r1 ∧ Forall (λ ev, ¬ engine_event ev) (trace r2)).
Proof.
  intros r1 r2 [_ H].
  assert (∃ groups, trace r2 = [EvCite groups]) as [groups Ht]
    by (eexists; vm_compute; reflexivity).
  rewrite Ht in H. apply Forall_cons in H as [H _]. by apply H.
Qed.

Lemma demo_render_stable : render_stable Demo.env.
Proof. intros locales e calls groups. reflexivity. Qed.

Lemma repeated_pass_returns_cached_bibliography_witness :
  let r1 := getReferenceList Demo.env "a.md" "@smith99" Demo.ready in
  let r2 := getReferenceList Demo.env "a.md" "@smith99" (post r1) in
  out r2
  = Ret (Some {| node_ref := 0; node_html := "<div><p>smith99</p></div>" |})
  ∧ ∃ groups, trace r2 = [EvCite groups].
Proof.
  apply (repeated_pass_returns_cached_bibliography Demo.env
           demo_render_stable "a.md" "@smith99" Demo.ready).
  - vm_compute. lia.
  - vm_compute. reflexivity.
Defined.

(** C4, a pass that contradicts the claim as stated: the style of the file
    cannot be loaded, and the pass resolves the cited key against the
    global bibliography, renders it and returns a bibliography. *)
Lemma failed_scope_still_resolves :
  let r := getReferenceList Demo.env "a.md" "@smith99" Demo.with_missing_style in
  scope_step_throws Demo.env Demo.missing_style
    (touch "a.md" Demo.with_missing_style) "style not found"
  ∧ ¬ (∀ d, LRU.peek "a.md" (fileCache (manager (post r))) = Some d →
            (∀ k, k ∈ keys d → k ∈ unresolvedKeys d)
            ∧ fc_citations d = [] ∧ bib d = None).
Proof.
  intros r. split.
  - left. exists "missing.csl". split_and!; [reflexivity..|].
    vm_compute. reflexivity.
  - intros H.
    assert (LRU.peek "a.md" (fileCache (manager (post r)))
            = Some (Demo.entry_of "a.md" (post r))) as Hpeek
      by (vm_compute; reflexivity).
    destruct (H _ Hpeek) as (_ & _ & Hbib).
    vm_compute in Hbib. discriminate Hbib.
Qed.

Lemma scope_load_failure_falls_back_witness :
  let w := Demo.with_missing_style in
  let r := getReferenceList Demo.env "a.md" "@smith99" w in
  let locales := langCache (manager (post (pass_scope Demo.env "a.md" w))) in
  out (loadScopedEngine Demo.env (Some Demo.missing_style) (touch "a.md" w))
  = Ret SrcThis
  ∧ pass_source Demo.env "a.md" w = Some SrcThis
  ∧ pass_engine Demo.env "a.md" w = engine (manager w)
  ∧ pass_bibCache Demo.env "a.md" w = bibCache (manager w)
  ∧ EvConsoleError "style not found" ∈ trace (pass_scope Demo.env "a.md" w)
  ∧ (processed_of Demo.env "@smith99" ≠ [] →
     EvConsoleError "style not found" ∈ trace r)
  ∧ (engine (manager w) = None → out r = Ret None)
  ∧ (∀ e', out r = Throw e' →
       ∃ eng groups,
         engine (manager w) = Some eng
         ∧ (renderCitations Demo.env locales eng groups = Throw e'
            ∨ makeBibliography Demo.env locales
                (record_call (CallCite groups) eng) = Throw e')).
Proof.
  apply (scope_load_failure_falls_back Demo.env "a.md" "@smith99"
           Demo.with_missing_style Demo.missing_style "style not found").
  - vm_compute. reflexivity.
  - left. reflexivity.
  - left. exists "missing.csl". split_and!; [reflexivity..|].
    vm_compute. reflexivity.
Defined.

(** C5, a pass that contradicts the claim as stated: without a usable
    engine the cited key is stored in [keys] and not in [unresolvedKeys]. *)
Lemma no_engine_pass_leaves_unresolved_empty :
  let r := getReferenceList Demo.env "a.md" "@smith99" Demo.fresh in
  pass_engine Demo.env "a.md" Demo.fresh = None
  ∧ ¬ (∀ d, LRU.peek "a.md" (fileCache (manager (post r))) = Some d →
            ∀ k, k ∈ keys d → k ∈ unresolvedKeys d).
Proof.
  intros r. split; [reflexivity|]. intros H.
  assert (LRU.peek "a.md" (fileCache (manager (post r)))
          = Some (null_result {["smith99"]} ∅ ∅ SrcThis)) as Hpeek
    by (vm_compute; reflexivity).
  specialize (H _ Hpeek "smith99").
  cbn [null_result keys unresolvedKeys] in H.
  apply (not_elem_of_empty (C:=gset string) "smith99"), H.
  by apply elem_of_singleton.
Qed.

Lemma no_engine_pass_stores_empty_result_witness :
  let r := getReferenceList Demo.env "a.md" "@smith99" Demo.fresh in
  ∃ src d,
    pass_source Demo.env "a.md" Demo.fresh = Some src
    ∧ d = null_result (collect_keys (processed_of Demo.env "@smith99")) ∅ ∅ src
    ∧ out r = Ret None
    ∧ LRU.peek "a.md" (fileCache (manager (post r))) = Some d
    ∧ trace r
      = (trace (pass_scope Demo.env "a.md" Demo.fresh)
         ++ [EvDispatch "a.md" d])%list
    ∧ resolvedKeys d = ∅ ∧ unresolvedKeys d = ∅
    ∧ (∀ k, k ∈ keys d
            ↔ k ≠ EmptyString
              ∧ k ∈ cited_ids (processed_of Demo.env "@smith99"))
    ∧ fc_citations d = [] ∧ bib d = None ∧ settings d = None.
Proof.
  apply (no_engine_pass_stores_empty_result Demo.env "a.md" "@smith99"
           Demo.fresh).
  - intros H. vm_compute in H. discriminate H.
  - vm_compute. lia.
  - vm_compute. eexists. reflexivity.
  - reflexivity.
Defined.

(** C6, a pass that contradicts the claim as stated: the second citation of
    the group has an empty id and follows a citation that does not resolve,
    so the walk stops before it and the id is in neither key set. *)
Lemma empty_id_after_unresolved_is_in_no_set :
  let content := "@unknown;@" in
  let part := pass_partition Demo.env "a.md" content Demo.ready in
  is_Some (pass_engine Demo.env "a.md" Demo.ready)
  ∧ ¬ (∀ k, k ∈ cited_ids (processed_of Demo.env content) →
            k ∈ part.2.1 ∨ k ∈ part.2.2).
Proof.
  intros content part. split; [by eexists|]. intros H.
  assert (part.2.1 = ∅ ∧ part.2.2 = {["unknown"]}) as [H1 H2]
    by (split; vm_compute; reflexivity).
  destruct (H EmptyString) as [Hin|Hin].
  - apply list_elem_of_In. vm_compute. right. left. reflexivity.
  - rewrite H1 in Hin. by apply elem_of_empty in Hin.
  - rewrite H2 in Hin. apply elem_of_singleton in Hin. discriminate Hin.
Qed.

Lemma groups_rendered_iff_all_resolve_witness :
  let content := "@smith99 @doe2000;@smith99" in
  let part := pass_partition Demo.env "a.md" content Demo.ready in
  length part.1 = 1
  ∧ EvCite part.1
    ∈ trace (getReferenceList Demo.env "a.md" content Demo.ready).
Proof.
  intros content part. split; [reflexivity|].
  refine (proj1 (proj2 (proj2
            (groups_rendered_iff_all_resolve Demo.env "a.md" content
               Demo.ready Demo.global_engine _))) _).
  - reflexivity.
  - intros H. vm_compute in H. discriminate H.
Defined.

(** C7, a pass that contradicts the claim as stated: the engine makes a
    bibliography with no entry, and the rendered citation is stored. *)
Lemma zero_entries_keep_rendered_citations :
  let r :=
    getReferenceList Demo.env_without_entries "a.md" "@smith99" Demo.ready in
  EvMakeBibliography ∈ trace r
  ∧ ¬ (∀ d, LRU.peek "a.md" (fileCache (manager (post r))) = Some d →
            bib d = None ∧ fc_citations d = []).
Proof.
  intros r. split; [in_trace|]. intros H.
  assert (LRU.peek "a.md" (fileCache (manager (post r)))
          = Some (Demo.entry_of "a.md" (post r))) as Hpeek
    by (vm_compute; reflexivity).
  destruct (H _ Hpeek) as [_ Hc]. vm_compute in Hc. discriminate Hc.
Qed.

Lemma empty_bibliography_result_witness :
  (let r := getReferenceList Demo.env "a.md" "@smith99" Demo.unstyled in
   out r = Ret None
   ∧ ∃ d, EvDispatch "a.md" d ∈ trace r
          ∧ bib d = None ∧ fc_citations d = [] ∧ settings d = None
          ∧ citeBibMap d = ∅)
  ∧ (let r :=
       getReferenceList Demo.env_without_entries "a.md" "@smith99" Demo.ready in
     out r = Ret None).
Proof.
  split.
  - refine (proj1 (empty_bibliography_result Demo.env "a.md" "@smith99"
                     Demo.unstyled _ _ _) _).
    + reflexivity.
    + in_trace.
    + reflexivity.
  - refine (proj1 (proj2 (empty_bibliography_result Demo.env_without_entries
                            "a.md" "@smith99" Demo.ready Demo.global_engine
                            _ _) _ _)).
    + reflexivity.
    + in_trace.
    + reflexivity.
Defined.

Lemma resolution_cache_bounded_witness :
  let w' := run Demo.env Demo.ten_passes Demo.fresh in
  let cache := fileCache (manager w') in
  let eleventh := getReferenceList Demo.env "f10" "@smith99" w' in
  let again := getReferenceList Demo.env "f3" "@smith99" w' in
  LRU.size cache ≤ 10
  ∧ LRU.keys (fileCache (manager (post eleventh)))
    = "f10" :: removelast (LRU.keys cache)
  ∧ LRU.keys (fileCache (manager (post again)))
    = "f3" :: filter (λ k, k ≠ "f3") (LRU.keys cache).
Proof.
  intros w' cache eleventh again.
  destruct (resolution_cache_bounded Demo.env Demo.ten_passes Demo.fresh)
    as (Hsize & Hwrite & Huse); [reflexivity|].
  split; [exact Hsize|]. split.
  - destruct (Hwrite "f10" "@smith99" (Demo.entry_of "f10" (post eleventh)))
      as (_ & _ & Hfull & _); [in_trace|].
    apply Hfull.
    + intros Hin. apply list_elem_of_In in Hin. vm_compute in Hin.
      repeat (destruct Hin as [Hin|Hin]; [discriminate Hin|]). exact Hin.
    + vm_compute. reflexivity.
  - apply Huse.
    + intros H. vm_compute in H. discriminate H.
    + apply list_elem_of_In. vm_compute.
      repeat first [left; reflexivity | right].
Defined.

Example eleventh_file_evicts_the_oldest :
  LRU.keys
    (fileCache
       (manager
          (run Demo.env
             (Demo.ten_passes ++ [OpGetReferenceList "f10" "@smith99"])
             Demo.fresh)))
  = ["f10"; "f9"; "f8"; "f7"; "f6"; "f5"; "f4"; "f3"; "f2"; "f1"].
Proof. vm_compute. reflexivity. Qed.


(** C10.  The claim holds of a lookup that finds a citation, and of a file
    without a cached entry; the code breaks it when the file is cached and
    no cached citation has the index: [find] returns [undefined], reading
    [cite.note] throws a TypeError, and the call fails instead of returning
    null.  Here the file has been resolved, its one citation carries no
    note index, and the note 1 is asked for. *)
Theorem getNoteForNoteIndex_unknown_index_throws :
  let w := post (getReferenceList Demo.env "a.md" "@smith99" Demo.ready) in
  LRU.has "a.md" (fileCache (manager w)) = true
  ∧ out (getNoteForNoteIndex Demo.env "a.md" "1" w)
    = Throw "TypeError: Cannot read properties of undefined (reading 'note')"
  ∧ out (getNoteForNoteIndex Demo.env "b.md" "1" w) = Ret None.
Proof. vm_compute. repeat split; reflexivity. Qed.

(** * Further properties *)

(** ** The settings a file declares *)

Lemma starts_with_app p l x :
  JS.starts_with p l = true → JS.starts_with p (l ++ x) = true.
Proof.
  revert l. induction p as [|a p IH]; intros [|b l]; cbn; try done.
  intros [Hab Hp]%andb_prop. rewrite Hab. cbn. by apply IH.
Qed.

Lemma head_length_zero chars l :
  Forall (λ p, p ≠ []) chars →
  JS.head_length chars l = 0 ↔ Forall (λ p, JS.starts_with p l = false) chars.
Proof.
  intros Hne. unfold JS.head_length.
  induction Hne as [|p chars Hp Hne IH]; cbn [find]; [done|].
  destruct (JS.starts_with p l) eqn:Hs.
  - split.
    + intros Hlen. by destruct p.
    + intros Hall. apply Forall_cons in Hall as [Hall _]. congruence.
  - rewrite IH. split; [by constructor|]. by intros [_ ?]%Forall_cons.
Qed.

Lemma head_length_prefix chars l x :
  Forall (λ p, p ≠ []) chars →
  JS.head_length chars (l ++ x) = 0 → JS.head_length chars l = 0.
Proof.
  intros Hne. rewrite !head_length_zero by done.
  intros Hall. eapply Forall_impl; [exact Hall|]. intros p Hp. cbn in Hp.
  destruct (JS.starts_with p l) eqn:Hs; [|done].
  by rewrite (starts_with_app p l x Hs) in Hp.
Qed.

Lemma head_length_nil chars : JS.head_length chars [] = 0.
Proof.
  unfold JS.head_length. induction chars as [|p chars IH]; [done|].
  cbn [find]. by destruct p.
Qed.

Lemma drop_chars_head chars n l :
  length l ≤ n → JS.head_length chars (JS.drop_chars chars n l) = 0.
Proof.
  revert l. induction n as [|n IH]; intros l Hl; cbn [JS.drop_chars].
  - destruct l; [apply head_length_nil|cbn in Hl; lia].
  - destruct (JS.head_length chars l) as [|k] eqn:Hk; [done|].
    apply IH. rewrite length_drop. lia.
Qed.

Lemma drop_chars_fixed chars n l :
  JS.head_length chars l = 0 → JS.drop_chars chars n l = l.
Proof. intros Hl. destruct n; cbn [JS.drop_chars]; [done|]. by rewrite Hl. Qed.

Lemma drop_chars_suffix chars n l : ∃ p, l = (p ++ JS.drop_chars chars n l)%list.
Proof.
  revert l. induction n as [|n IH]; intros l; cbn [JS.drop_chars];
    [by exists []|].
  destruct (JS.head_length chars l) as [|k]; [by exists []|].
  destruct (IH (drop (S k) l)) as [p Hp].
  exists (take (S k) l ++ p)%list.
  rewrite <- app_assoc, <- Hp. by rewrite take_drop.
Qed.

Lemma white_space_chars :
  Forall (λ p, p ≠ []) JS.white_space
  ∧ Forall (λ p, p ≠ []) (map (@rev ascii) JS.white_space).
Proof. split; repeat constructor; done. Qed.

Lemma trim_idem s : JS.trim (JS.trim s) = JS.trim s.
Proof.
  destruct white_space_chars as [Hws Hrev].
  unfold JS.trim. rewrite list_ascii_of_string_of_list_ascii.
  set (l := JS.drop_ws (list_ascii_of_string s)).
  assert (JS.head_length JS.white_space l = 0) as Hl.
  { by apply drop_chars_head. }
  unfold JS.drop_ws_end at 2 3.
  set (u := JS.drop_chars _ (length l) (rev l)).
  assert (JS.head_length (map (@rev ascii) JS.white_space) u = 0) as Hu.
  { apply drop_chars_head. by rewrite length_rev. }
  destruct (drop_chars_suffix (map (@rev ascii) JS.white_space) (length l)
              (rev l)) as [p Hp]. fold u in Hp.
  assert (l = (rev u ++ rev p)%list) as Hl'.
  { rewrite <- rev_app_distr, <- Hp. by rewrite rev_involutive. }
  assert (JS.drop_ws (rev u) = rev u) as ->.
  { apply drop_chars_fixed. apply (head_length_prefix _ _ (rev p)); [done|].
    by rewrite <- Hl'. }
  unfold JS.drop_ws_end. rewrite rev_involutive.
  by rewrite drop_chars_fixed.
Qed.

Lemma or_undefined_clean o :
  (∀ x, o = Some x → JS.trim x = x) → clean (JS.or_undefined o).
Proof.
  intros Ho x. unfold JS.or_undefined. destruct o as [y|]; cbn; [|done].
  destruct y; cbn; [done|]. intros [= <-]. split; [done|]. by apply Ho.
Qed.

Lemma or_undefined_none o :
  JS.truthy_opt (JS.or_undefined o) = false → JS.or_undefined o = None.
Proof. unfold JS.or_undefined. destruct (JS.truthy_opt o) eqn:H; [by rewrite H|done]. Qed.

Lemma or_undefined_falsy o :
  JS.or_undefined o = None ↔ JS.truthy_opt o = false.
Proof.
  unfold JS.or_undefined. destruct (JS.truthy_opt o) eqn:H; [|done].
  split; [|done]. intros ->. done.
Qed.

Section settings_properties.

(** What [fm_trim] reads when it returns. *)
Lemma fm_trim_returns key v x :
  fm_trim key v = Ret x →
  (v = None ∧ x = None) ∨ (∃ s, v = Some (FmString s) ∧ x = Some (JS.trim s)).
Proof.
  destruct v as [[s|]|]; cbn [fm_trim]; [|done|].
  - intros [= <-]. right. by exists s.
  - intros [= <-]. by left.
Qed.

Lemma fm_trim_trimmed key v x y :
  fm_trim key v = Ret x → x = Some y → JS.trim y = y.
Proof.
  intros [[_ ->]|(s & _ & ->)]%fm_trim_returns; [done|].
  intros [= <-]. apply trim_idem.
Qed.

Lemma fm_trim_blank key v :
  blank v ↔ ∃ x, fm_trim key v = Ret x ∧ JS.truthy_opt x = false.
Proof.
  unfold blank. destruct v as [[s|]|]; cbn [fm_trim].
  - split.
    + intros H. destruct (H _ eq_refl) as (s' & [= <-] & Hs).
      exists (Some (JS.trim s)). split; [done|]. cbn. by rewrite Hs.
    + intros (x & [= <-] & Hx) v [= <-]. exists s. split; [done|].
      cbn in Hx. by destruct (JS.trim s).
  - split.
    + intros H. by destruct (H _ eq_refl) as (s' & ? & _).
    + by intros (x & ? & _).
  - split; [|done]. intros _. by exists None.
Qed.

Lemma or_read_returns a b x :
  or_read a b = Ret x →
  (a = Ret x ∧ JS.truthy_opt x = true)
  ∨ (∃ x', a = Ret x' ∧ JS.truthy_opt x' = false ∧ b = Ret x).
Proof.
  unfold or_read. destruct a as [x'|e]; cbn [and_then]; [|done].
  destruct (JS.truthy_opt x') eqn:Hx.
  - intros [= <-]. by left.
  - intros Hb. right. by exists x'.
Qed.

Lemma or_read_trimmed k1 v1 k2 v2 x y :
  or_read (fm_trim k1 v1) (fm_trim k2 v2) = Ret x → x = Some y →
  JS.trim y = y.
Proof.
  intros [[H _]|(x' & _ & _ & H)]%or_read_returns; by eapply fm_trim_trimmed.
Qed.

Lemma or_read_blank k1 v1 k2 v2 :
  blank v1 ∧ blank v2
  ↔ ∃ x, or_read (fm_trim k1 v1) (fm_trim k2 v2) = Ret x
         ∧ JS.truthy_opt x = false.
Proof.
  rewrite (fm_trim_blank k1 v1), (fm_trim_blank k2 v2). split.
  - intros [(x1 & H1 & Hx1) (x2 & H2 & Hx2)]. exists x2.
    unfold or_read. rewrite H1. cbn [and_then]. by rewrite Hx1.
  - intros (x & [[H1 Hx]|(x' & H1 & Hx' & H2)]%or_read_returns & Hf);
      [congruence|].
    split; [by exists x'|by exists x].
Qed.

(** The three reads of a call of [getScopedSettings] that returns. *)
Lemma getScopedSettings_reads w file fm r :
  metadataCache w file = Some fm →
  getScopedSettings w file = Ret r →
  ∃ bibliography style lang,
    fm_trim "bibliography" (fm_bibliography fm) = Ret bibliography
    ∧ or_read (fm_trim "csl" (fm_csl fm))
        (fm_trim "citation-style" (fm_citation_style fm)) = Ret style
    ∧ or_read (fm_trim "lang" (fm_lang fm))
        (fm_trim "citation-language" (fm_citation_language fm)) = Ret lang
    ∧ r = (if (negb (JS.truthy_opt (JS.or_undefined bibliography))
               && negb (JS.truthy_opt (JS.or_undefined style))
               && negb (JS.truthy_opt (JS.or_undefined lang)))%bool
           then None
           else Some {| settings_bibliography := JS.or_undefined bibliography;
                        settings_style := JS.or_undefined style;
                        settings_lang := JS.or_undefined lang |}).
Proof.
  intros Hfm. unfold getScopedSettings. rewrite Hfm.
  destruct (fm_trim "bibliography" _) as [b|]; cbn [and_then]; [|done].
  destruct (or_read (fm_trim "csl" _) _) as [s|]; cbn [and_then]; [|done].
  destruct (or_read (fm_trim "lang" _) _) as [l|]; cbn [and_then]; [|done].
  cbn [settings_bibliography settings_style settings_lang].
  intros Hr. exists b, s, l. split_and!; [done..|].
  destruct (_ && _)%bool; congruence.
Qed.

Lemma scoped_settings_fields w file s :
  getScopedSettings w file = Ret (Some s) →
  clean (settings_style s) ∧ clean (settings_lang s)
  ∧ clean (settings_bibliography s)
  ∧ (is_Some (settings_style s) ∨ is_Some (settings_lang s)
     ∨ is_Some (settings_bibliography s)).
Proof.
  intros Hs.
  destruct (metadataCache w file) as [fm|] eqn:Hfm.
  2:{ unfold getScopedSettings in Hs. by rewrite Hfm in Hs. }
  destruct (getScopedSettings_reads w file fm _ Hfm Hs)
    as (b & st & l & Hb & Hst & Hl & Hr).
  destruct (_ && _)%bool eqn:Hall; [done|]. injection Hr as ->.
  cbn [settings_bibliography settings_style settings_lang].
  split_and!.
  - apply or_undefined_clean. intros x. by eapply or_read_trimmed.
  - apply or_undefined_clean. intros x. by eapply or_read_trimmed.
  - apply or_undefined_clean. intros x. by eapply fm_trim_trimmed.
  - apply andb_false_iff in Hall as [Hall|Hl'].
    + apply andb_false_iff in Hall as [Hb'|Hs'].
      * right; right. apply negb_false_iff in Hb'.
        destruct (JS.or_undefined b); [by eexists|done].
      * left. apply negb_false_iff in Hs'.
        destruct (JS.or_undefined st); [by eexists|done].
    + right; left. apply negb_false_iff in Hl'.
      destruct (JS.or_undefined l); [by eexists|done].
Qed.

(** X1.  The settings object that [getScopedSettings] returns for a file
    never has an empty field: each of style, lang and bibliography is
    absent or a non-empty string without white space (as [trim] knows it,
    the no-break space and the other Unicode spaces included) at either
    end, and at least one of them is present. *)
Theorem getScopedSettings_fields_are_clean w file s :
  getScopedSettings w file = Ret (Some s) →
  clean (settings_style s) ∧ clean (settings_lang s)
  ∧ clean (settings_bibliography s)
  ∧ (is_Some (settings_style s) ∨ is_Some (settings_lang s)
     ∨ is_Some (settings_bibliography s)).
Proof. apply scoped_settings_fields. Qed.

(** X2.  [getScopedSettings] returns null exactly when the file has no
    front matter, or when each of the five keys it reads (bibliography, csl,
    citation-style, lang, citation-language) is absent or a blank string.
    It throws when the value under [bibliography] is not a string, and when
    the value under [csl] or under [lang] is not one and the bibliography
    could be read. *)
Theorem getScopedSettings_null_iff_blank w file :
  (getScopedSettings w file = Ret None
   ↔ match metadataCache w file with
     | None => True
     | Some fm =>
         blank (fm_bibliography fm) ∧ blank (fm_csl fm)
         ∧ blank (fm_citation_style fm) ∧ blank (fm_lang fm)
         ∧ blank (fm_citation_language fm)
     end)
  ∧ (∀ fm, metadataCache w file = Some fm →
       (fm_bibliography fm = Some FmOther →
        ∃ e, getScopedSettings w file = Throw e)
       ∧ ((fm_bibliography fm = None
           ∨ ∃ s, fm_bibliography fm = Some (FmString s)) →
          fm_csl fm = Some FmOther ∨ fm_lang fm = Some FmOther →
          ∃ e, getScopedSettings w file = Throw e)).
Proof.
  split.
  - destruct (metadataCache w file) as [fm|] eqn:Hfm.
    2:{ unfold getScopedSettings. by rewrite Hfm. }
    pose proof (fm_trim_blank "bibliography" (fm_bibliography fm)) as Hbib.
    pose proof (or_read_blank "csl" (fm_csl fm) "citation-style"
                  (fm_citation_style fm)) as Hstyle.
    pose proof (or_read_blank "lang" (fm_lang fm) "citation-language"
                  (fm_citation_language fm)) as Hlang.
    split.
    + intros Hr.
      destruct (getScopedSettings_reads w file fm _ Hfm Hr)
        as (b & st & l & Hb & Hst & Hl & Hnone).
      destruct (_ && _)%bool eqn:Hall; [|done].
      apply andb_true_iff in Hall as [Hall Hl'].
      apply andb_true_iff in Hall as [Hb' Hs'].
      apply negb_true_iff, or_undefined_none, or_undefined_falsy in Hb', Hs', Hl'.
      assert (blank (fm_bibliography fm)) by (apply Hbib; eauto).
      assert (blank (fm_csl fm) ∧ blank (fm_citation_style fm))
        by (apply Hstyle; eauto).
      assert (blank (fm_lang fm) ∧ blank (fm_citation_language fm))
        by (apply Hlang; eauto).
      tauto.
    + intros (Hb & Hc & Hcs & Hl1 & Hl2).
      apply Hbib in Hb as (b & Hb & Hb').
      destruct (proj1 Hstyle (conj Hc Hcs)) as (st & Hst & Hst').
      destruct (proj1 Hlang (conj Hl1 Hl2)) as (l & Hl & Hl').
      unfold getScopedSettings. rewrite Hfm, Hb. cbn [and_then].
      rewrite Hst. cbn [and_then]. rewrite Hl. cbn [and_then].
      cbn [settings_bibliography settings_style settings_lang].
      apply or_undefined_falsy in Hb', Hst', Hl'.
      by rewrite Hb', Hst', Hl'.
  - intros fm Hfm. unfold getScopedSettings. rewrite Hfm. split.
    + intros ->. cbn. by eexists.
    + intros Hb Hother.
      assert (∃ b, fm_trim "bibliography" (fm_bibliography fm) = Ret b)
        as [b ->].
      { destruct Hb as [->|[s ->]]; by eexists. }
      cbn [and_then]. destruct Hother as [->| ->].
      * cbn. by eexists.
      * destruct (or_read _ _); cbn; by eexists.
Qed.

End settings_properties.

(** ** The locales to load *)

Section locale_properties.
Variable E : Env.

Lemma object_keys_perm obj : object_keys obj ≡ₚ obj.
Proof.
  unfold object_keys. rewrite merge_sort_Permutation.
  induction obj as [|k obj IH]; [done|].
  cbn [omap list_omap]. rewrite filter_cons.
  destruct (JS.array_index k) as [n|] eqn:Hk; cbn [fmap option_fmap option_map].
  - rewrite decide_False by done. rewrite fmap_cons. cbn [snd app].
    by rewrite IH.
  - rewrite decide_True by done. rewrite <- Permutation_middle. by rewrite IH.
Qed.

Lemma locale_step_cases obj x :
  locale_step E obj x = Ret obj
  ∨ (∃ k, known_locale E k ∧ locale_step E obj x = Ret (set_key k obj))
  ∨ (reads_inherited_base E x ∧ ∃ e, locale_step E obj x = Throw e).
Proof.
  unfold locale_step, reads_inherited_base.
  destruct (JS.truthy_member (JS.get (CSL_LANGS E) _)) eqn:Hl.
  { right; left. eexists. split; [by left|done]. }
  destruct (JS.get (CSL_LANG_BASES E) _) as [base| |] eqn:Hb.
  - destruct (JS.truthy base) eqn:Ht; [|by left].
    right; left. eexists. split; [|done]. right. eexists _, base.
    split_and!; [|done|done].
    unfold JS.get in Hb.
    destruct (CSL_LANG_BASES E !! _) as [base'|] eqn:Hown.
    + by injection Hb as ->.
    + by case_bool_decide.
  - right; right. split; [done|]. by eexists.
  - by left.
Qed.

Lemma locale_step_returns obj x :
  (∃ r, locale_step E obj x = Ret r) ↔ ¬ reads_inherited_base E x.
Proof.
  unfold locale_step, reads_inherited_base.
  destruct (JS.truthy_member (JS.get (CSL_LANGS E) _)) eqn:Hl.
  { split; [by intros _ [? _]|]. intros _. by eexists. }
  destruct (JS.get (CSL_LANG_BASES E) _) as [base| |] eqn:Hb.
  - split; [by intros _ [_ ?]|]. intros _. destruct (JS.truthy base); by eexists.
  - split; [by intros [r ?]|]. intros H. by destruct H.
  - split; [by intros _ [_ ?]|]. intros _. by eexists.
Qed.

Lemma add_key_spec k obj :
  (NoDup obj → NoDup (add_key k obj))
  ∧ k ∈ add_key k obj
  ∧ (∃ t, add_key k obj = (obj ++ t)%list ∧ length t ≤ 1 ∧ ∀ x, x ∈ t → x = k).
Proof.
  unfold add_key. case_bool_decide as Hk.
  - split_and!; [done|done|]. exists []. rewrite app_nil_r.
    split_and!; [done|cbn; lia|]. by intros x Hx%elem_of_nil.
  - split_and!.
    + intros Hn. apply NoDup_app. split_and!; [done| |apply NoDup_singleton].
      intros x Hx ->%list_elem_of_singleton. done.
    + apply elem_of_app. right. by left.
    + exists [k]. split_and!; [done|cbn; lia|].
      by intros x ->%list_elem_of_singleton.
Qed.

Lemma set_key_spec k obj :
  (NoDup obj → NoDup (set_key k obj))
  ∧ (k ≠ "__proto__" → k ∈ set_key k obj)
  ∧ (∃ t, set_key k obj = (obj ++ t)%list ∧ length t ≤ 1 ∧ ∀ x, x ∈ t → x = k).
Proof.
  unfold set_key. case_bool_decide as Hk.
  - split_and!; [done|done|]. exists []. rewrite app_nil_r.
    split_and!; [done|cbn; lia|]. by intros x Hx%elem_of_nil.
  - destruct (add_key_spec k obj) as (H1 & H2 & H3). by split_and!.
Qed.

Lemma locale_loop_spec l acc r :
  locale_loop E l acc = Ret r →
  (NoDup acc → NoDup r)
  ∧ (Forall (known_locale E) acc → Forall (known_locale E) r)
  ∧ length r ≤ length acc + length l
  ∧ ∃ t, r = (acc ++ t)%list.
Proof.
  revert acc. induction l as [|x l IH]; intros acc; cbn [locale_loop].
  { intros [= <-]. split_and!; [done|done|lia|]. exists []. by rewrite app_nil_r. }
  destruct (locale_step_cases acc x) as [Heq|[(k & Hk & Heq)|(_ & e & Heq)]];
    rewrite Heq; cbn [and_then]; [| |done].
  - intros Hr. destruct (IH acc Hr) as (IH1 & IH2 & IH3 & t & IH4).
    split_and!; [done|done|cbn; lia|by exists t].
  - intros Hr. destruct (IH _ Hr) as (IH1 & IH2 & IH3 & t & IH4).
    destruct (set_key_spec k acc) as (Hn & _ & t' & Ht' & Hlen & Hin).
    split_and!.
    + intros H. apply IH1. by apply Hn.
    + intros H. apply IH2. rewrite Ht'. apply Forall_app. split; [done|].
      apply Forall_forall. by intros y ->%Hin.
    + rewrite Ht' in IH3. rewrite length_app in IH3. cbn [length]. lia.
    + exists (t' ++ t)%list. rewrite IH4, Ht'. by rewrite app_assoc.
Qed.

Lemma locale_loop_returns l acc :
  (∃ r, locale_loop E l acc = Ret r)
  ↔ Forall (λ x, ¬ reads_inherited_base E x) l.
Proof.
  revert acc. induction l as [|x l IH]; intros acc; cbn [locale_loop].
  { split; [done|]. intros _. by eexists. }
  rewrite Forall_cons, <- (locale_step_returns acc x). split.
  - intros [r Hr]. destruct (locale_step E acc x) as [obj|e] eqn:Hstep;
      [|done]. cbn [and_then] in Hr. split; [by eexists|].
    apply (IH obj). by eexists.
  - intros [[obj ->] Hl]. cbn [and_then]. by apply IH.
Qed.

(** X3.  When [normalizeLocales] returns, it returns no locale twice, it
    returns only locale ids under which [CSL.LANGS] reads a truthy member
    (one of its own, or one a plain object inherits, such as
    [constructor]) or that are the value of [CSL.LANG_BASES] for a base
    language, and it returns at most one id for each locale it is given:
    what neither table knows is dropped.  It returns exactly when no locale
    it is given makes it read an inherited member of [CSL.LANG_BASES], on
    which the call of [split] throws. *)
Theorem normalizeLocales_sound locales :
  (∀ l, normalizeLocales E locales = Ret l →
        NoDup l ∧ Forall (known_locale E) l ∧ length l ≤ length locales)
  ∧ ((∃ l, normalizeLocales E locales = Ret l)
     ↔ Forall (λ x, ¬ reads_inherited_base E x) locales).
Proof.
  unfold normalizeLocales. split.
  - intros l Hl.
    destruct (locale_loop E locales []) as [obj|e] eqn:Hobj; [|done].
    injection Hl as <-.
    destruct (locale_loop_spec locales [] obj Hobj) as (H1 & H2 & H3 & _).
    rewrite object_keys_perm.
    split_and!; [apply H1; constructor|by apply H2|exact H3].
  - rewrite <- (locale_loop_returns locales []). split.
    + intros [l Hl].
      destruct (locale_loop E locales []) as [obj|e]; [by exists obj|done].
    + intros [obj ->]. by eexists.
Qed.

Lemma locale_loop_keeps l acc r k :
  locale_loop E l acc = Ret r → k ∈ acc → k ∈ r.
Proof.
  intros Hr Hk. destruct (locale_loop_spec l acc r Hr) as (_ & _ & _ & t & ->).
  apply elem_of_app. by left.
Qed.

Lemma locale_loop_elem l acc r x :
  locale_loop E l acc = Ret r →
  x ∈ l → x ≠ "__proto__" →
  JS.join "-" (take 2 (JS.split_on "-" x)) = x →
  JS.truthy_member (JS.get (CSL_LANGS E) x) = true →
  x ∈ r.
Proof.
  intros Hr Hx Hproto Hshort Hknown. revert acc Hr.
  induction l as [|y l IH]; intros acc Hr; [by apply elem_of_nil in Hx|].
  cbn [locale_loop] in Hr.
  destruct (locale_step E acc y) as [obj|e] eqn:Hstep; [|done].
  cbn [and_then] in Hr.
  apply elem_of_cons in Hx as [<-|Hx]; [|by apply (IH Hx obj)].
  apply (locale_loop_keeps l obj r x Hr).
  unfold locale_step in Hstep. rewrite Hshort, Hknown in Hstep.
  injection Hstep as <-. by apply set_key_spec.
Qed.

Lemma fold_app_prefix {A B} (g : B → list A) (l : list B) (acc : list A) :
  ∃ t, fold_left (λ acc x, (acc ++ g x)%list) l acc = (acc ++ t)%list.
Proof.
  revert acc. induction l as [|x l IH]; intros acc; cbn [fold_left].
  - exists []. by rewrite app_nil_r.
  - destruct (IH (acc ++ g x)%list) as [t ->]. exists (g x ++ t)%list.
    by rewrite app_assoc.
Qed.

(** X4.  When [extractRawLocales] returns and [CSL.LANGS] reads a truthy
    member under [en-US], the list it returns has [en-US], whatever the
    style says; and a requested locale under which [CSL.LANGS] reads a
    truthy member as it stands (a language, or a language and a region;
    [__proto__] names no key) is in the list. *)
Theorem extractRawLocales_requested style localeName l :
  extractRawLocales E style localeName = Ret l →
  JS.truthy_member (JS.get (CSL_LANGS E) "en-US") = true →
  "en-US" ∈ l
  ∧ ∀ n, localeName = Some n → n ≠ EmptyString → n ≠ "__proto__" →
         JS.join "-" (take 2 (JS.split_on "-" n)) = n →
         JS.truthy_member (JS.get (CSL_LANGS E) n) = true →
         n ∈ l.
Proof.
  unfold extractRawLocales, normalizeLocales. cbv zeta.
  set (l1 := match localeName with
             | Some n => if JS.truthy n then (["en-US"] ++ [n])%list else ["en-US"]
             | None => ["en-US"]
             end).
  set (l2 := if JS.truthy style then _ else l1).
  intros Hl Hen.
  destruct (locale_loop E l2 []) as [obj|e] eqn:Hobj; [|done].
  injection Hl as <-. setoid_rewrite object_keys_perm.
  assert (∃ t, l2 = (l1 ++ t)%list) as [t Ht].
  { subst l2. destruct (JS.truthy style).
    - apply (fold_app_prefix
               (λ mtch, JS.split_ws (string_of_list_ascii (drop 8 (removelast mtch))))).
    - exists []. by rewrite app_nil_r. }
  assert ("en-US" ∈ l1) as Hen1.
  { subst l1. destruct localeName as [n|]; [|by left].
    destruct (JS.truthy n); by left. }
  split.
  - apply (locale_loop_elem l2 [] obj "en-US" Hobj); [|done|done|done].
    rewrite Ht. apply elem_of_app. by left.
  - intros n -> Hn Hproto Hshort Hknown.
    apply (locale_loop_elem l2 [] obj n Hobj); [|done..].
    rewrite Ht. apply elem_of_app. left. subst l1.
    destruct n; [done|]. cbn. apply elem_of_cons. right. by left.
Qed.

End locale_properties.

(** ** More on the least-recently-used cache *)

Section lru_more.
Context {K V : Type} `{EqDecision K}.
Implicit Types (c : LRU.t K V) (k : K) (v : V) (l : list (K * V)).

Lemma peek_get k k' c : LRU.peek k' (LRU.get k c).2 = LRU.peek k' c.
Proof.
  unfold LRU.get. destruct (LRU.peek k c) as [v|] eqn:Hk; [|done].
  unfold LRU.peek in *. cbn [snd LRU.entries LRU.assoc].
  destruct (decide (k = k')) as [<-|Hne]; [done|].
  by apply assoc_remove_ne.
Qed.

Lemma assoc_take k n l v :
  LRU.assoc k (take n l) = Some v → LRU.assoc k l = Some v.
Proof.
  revert n. induction l as [|[k0 v0] l IH]; intros [|n]; cbn; try done.
  destruct (decide (k0 = k)); [done|]. apply IH.
Qed.

Lemma peek_set_cases k k' v v' c :
  LRU.peek k' (LRU.set k v c) = Some v' →
  (k' = k ∧ v' = v) ∨ (k' ≠ k ∧ LRU.peek k' c = Some v').
Proof.
  unfold LRU.peek, LRU.set. cbn [LRU.entries]. intros H%assoc_take.
  cbn [LRU.assoc] in H. destruct (decide (k = k')) as [<-|Hne].
  - left. split; congruence.
  - right. split; [done|]. by rewrite assoc_remove_ne in H.
Qed.

Lemma peek_update_ne k k' (f : V → V) c :
  k ≠ k' → LRU.peek k' (LRU.update k f c) = LRU.peek k' c.
Proof. apply assoc_update_ne. Qed.

Lemma peek_clear k c : LRU.peek k (LRU.clear c) = None.
Proof. done. Qed.

End lru_more.

(** ** How a pass ends *)

Section pass_summary.
Variable E : Env.

Lemma silent_app t1 t2 : silent t1 → silent t2 → silent (t1 ++ t2).
Proof. intros H1 H2 f d [?|?]%elem_of_app; [by eapply H1|by eapply H2]. Qed.

Lemma silent_scope file w : silent (trace (pass_scope E file w)).
Proof. intros f d Hin. by apply scope_trace_events in Hin. Qed.

Lemma silent_list t : Forall (λ ev, ∀ f d, ev ≠ EvDispatch f d) t → silent t.
Proof.
  intros Hall f d Hin. rewrite Forall_forall in Hall.
  by apply (Hall _ Hin f d).
Qed.

Lemma pass_cache_after_scope file w :
  fileCache (manager (post (pass_scope E file w)))
  = (LRU.get file (fileCache (manager w))).2.
Proof. by destruct (pass_scope_frame E file w) as (-> & _). Qed.

Lemma trace_regroup {A} (t1 t2 t3 : list A) x :
  (t1 ++ t2 ++ t3 ++ [x] = (t1 ++ t2 ++ t3) ++ [x])%list.
Proof. by rewrite <- !app_assoc. Qed.

(** The four ways a pass ends: without a citation it does nothing; or it
    stores and delivers one entry, whose bibliography it returns; or it
    returns the cached bibliography and delivers nothing; or it throws what
    the read of the front matter, the construction of the engine or a call
    of the engine has thrown, and delivers nothing. *)
Lemma pass_summary file content w :
  let r := getReferenceList E file content w in
  let c0 := (LRU.get file (fileCache (manager w))).2 in
  (processed_of E content = []
   ∧ r = {| out := Ret None; post := w; trace := [] |})
  ∨ (processed_of E content ≠ []
     ∧ ∃ d t, trace r = (t ++ [EvDispatch file d])%list ∧ silent t
              ∧ out r = Ret (bib d)
              ∧ fileCache (manager (post r)) = LRU.set file d c0
              ∧ resolvedKeys d ## unresolvedKeys d)
  ∨ (processed_of E content ≠ []
     ∧ ∃ d s, LRU.peek file (fileCache (manager w)) = Some d
              ∧ getScopedSettings w file = Ret s
              ∧ settings_agree s d
              ∧ silent (trace r)
              ∧ out r = Ret (bib d)
              ∧ fileCache (manager (post r))
                = LRU.update file
                    (with_source
                       (called_source
                          (CallCite (pass_partition E file content w).1)
                          (source d)))
                    c0)
  ∨ (processed_of E content ≠ []
     ∧ ∃ e, out r = Throw e
            ∧ silent (trace r)
            ∧ (fileCache (manager (post r)) = c0
               ∨ ∃ src, fileCache (manager (post r))
                        = LRU.update file (with_source src) c0)).
Proof.
  intros r c0.
  pose proof (silent_scope file w) as Hscope.
  pose proof (pass_cache_after_scope file w) as Hc0. fold c0 in Hc0.
  assert (∀ c a s w',
            fileCache (manager w') = c0 →
            fileCache (manager (committed file c a s w')) = c0
            ∨ ∃ src, fileCache (manager (committed file c a s w'))
                     = LRU.update file (with_source src) c0) as Hcommitted.
  { intros c a s w' Hw'. destruct c; [destruct a|]; cbn [committed];
      [right|by left|by left].
    exists s. unfold shared.
    cbn [manager set_manager fileCache set_fileCache]. by rewrite Hw'. }
  destruct (pass_cases E file content w)
    as [[Hp Hr]|[(Hp & e & _ & Hr)|(Hp & s & src & Hset & Hs & Hcases)]].
  { left. by split. }
  { right; right; right. split; [exact Hp|]. exists e. subst r. rewrite Hr.
    cbn [out post trace]. split_and!; [done|exact Hscope|by left]. }
  cbv zeta in Hcases.
  destruct (pass_observers E file w _ _ src Hs) as (_ & _ & Hbc).
  set (bc := bibCache_of src (post (pass_scope E file w))) in *.
  pose proof (pass_sets_spec bc (processed_of E content)) as (Hdisj & _).
  cbv zeta in Hdisj.
  set (fg := filter_groups bc _ _) in *.
  assert (pass_partition E file content w = fg) as Hpart.
  { unfold pass_partition. by rewrite Hbc. }
  set (t1 := trace (pass_scope E file w)) in *.
  set (w1 := post (pass_scope E file w)) in *.
  clearbody t1 w1 fg bc c0.
  destruct Hcases as [(He & Hr)|(eng & He & Hcases)].
  - right; left. split; [exact Hp|].
    eexists _, t1. subst r. rewrite Hr.
    cbn [out post trace]. split_and!.
    + reflexivity.
    + exact Hscope.
    + reflexivity.
    + cbn [stored manager set_manager fileCache set_fileCache]. by rewrite Hc0.
    + cbn [null_result resolvedKeys unresolvedKeys]. set_solver.
  - destruct Hcases
      as [(e & _ & Hr)
         |(cits & _ & [[Hu Hr]|[(_ & e & _ & Hr)|[(_ & _ & Hr)
                               |(_ & md & entries & _ & Hr)]]])].
    + right; right; right. split; [exact Hp|]. exists e. subst r. rewrite Hr.
      cbn [out post trace]. split_and!; [done| |].
      * apply silent_app; [exact Hscope|]. apply silent_list.
        by repeat constructor.
      * apply Hcommitted. by rewrite called_fileCache.
    + right; right; left. split; [exact Hp|].
      destruct (LRU.peek file (fileCache (manager w))) as [d|] eqn:Hd.
      2:{ cbn [unchanged] in Hu. discriminate Hu. }
      exists d, s.
      subst r. rewrite Hr. cbn [out post trace].
      cbn [unchanged] in Hu. apply andb_true_iff in Hu as [_ Ha].
      apply areSettingsEqual_agree in Ha.
      assert (src = source d) as Hsrc.
      { pose proof (pass_scope_reuse E file w d s Hset Hd Ha) as Hreuse.
        rewrite Hreuse in Hs. cbn [out] in Hs. congruence. }
      rewrite Hpart, <- Hsrc.
      split_and!.
      * reflexivity.
      * exact Hset.
      * exact Ha.
      * apply silent_app; [exact Hscope|]. apply silent_list.
        by repeat constructor.
      * reflexivity.
      * cbn [shared manager set_manager fileCache set_fileCache].
        by rewrite called_fileCache, Hc0.
    + right; right; right. split; [exact Hp|]. exists e. subst r. rewrite Hr.
      cbn [out post trace]. split_and!; [done| |].
      * apply silent_app; [exact Hscope|]. apply silent_list.
        by repeat constructor.
      * apply Hcommitted. by rewrite !called_fileCache.
    + right; left. split; [exact Hp|].
      eexists _, (t1 ++ [_; _])%list. subst r. rewrite Hr.
      cbn [out post trace]. split_and!.
      * rewrite <- app_assoc. reflexivity.
      * apply silent_app; [exact Hscope|]. apply silent_list.
        by repeat constructor.
      * reflexivity.
      * cbn [stored manager set_manager fileCache set_fileCache].
        by rewrite !called_fileCache, Hc0.
      * exact Hdisj.
    + right; left. split; [exact Hp|].
      eexists _, _. subst r. rewrite Hr.
      cbn [out post trace]. split_and!.
      * rewrite trace_regroup. reflexivity.
      * apply silent_app; [exact Hscope|]. apply silent_list.
        destruct entries; by repeat constructor.
      * cbn [bib]. reflexivity.
      * cbn [stored manager set_manager fileCache set_fileCache].
        destruct entries; cbn [set_nextNode manager];
          by rewrite !called_fileCache, Hc0.
      * exact Hdisj.
Qed.

End pass_summary.

(** ** The scope that is built *)

(** Case analysis on the computation at the head of a [bind], with names
    for the value or the thrown value, the state and the events. *)
Tactic Notation "mcase" constr(r) "as" ident(a) ident(e) ident(w) ident(t)
    ident(H) :=
  destruct r as [[a|e] w t] eqn:H;
  [rewrite (bind_run _ _ _ _ _ _ H) | rewrite (bind_throws _ _ _ _ _ _ H)];
  msimpl.

Section scope_more.
Variable E : Env.

Lemma caches_grow_refl w : caches_grow w w.
Proof. by split. Qed.

Lemma post_bind_ret {A B} (m : M A) (g : A → B) w :
  post ((let* a := m in ret (g a)) w) = post (m w).
Proof. unfold bind. by destruct (m w) as [[a|e] w1 t1]. Qed.

Lemma loadStyles_grows w0 styles :
  preserves (caches_grow w0) (loadStyles E styles).
Proof.
  induction styles as [|style styles IH]; intros w Hw; cbn [loadStyles];
    [done|].
  destruct (negb _ && negb _)%bool; [by apply IH|]. msimpl.
  assert (∀ doc w',
            caches_grow w0 w' →
            caches_grow w0
              (post ((let* res := loadStyles E styles in ret (doc :: res)) w')))
    as Hrest.
  { intros doc w' Hw'. rewrite post_bind_ret. by apply IH. }
  destruct (style_key (style_id style) (explicitPath style)) as [k|] eqn:Hk.
  - rewrite result_eta.
    destruct (styleCache (manager w) !! k) as [doc|] eqn:Hc; [by apply IH|].
    unfold getCSLStyle. rewrite Hk. msimpl.
    destruct (fetchStyle E (style_id style) (explicitPath style)) as [doc|e];
      msimpl; [|done].
    set (w' := set_manager _ w).
    assert (caches_grow w0 w') as Hw'.
    { destruct Hw as [Hs Hl]. split; [|done]. subst w'.
      cbn [set_manager manager set_styleCache styleCache].
      etrans; [exact Hs|]. by apply insert_subseteq. }
    specialize (Hrest doc w' Hw').
    by destruct ((let* res := loadStyles E styles in ret (doc :: res)) w').
  - unfold getCSLStyle. rewrite Hk. msimpl.
    destruct (fetchStyle E (style_id style) (explicitPath style)) as [doc|e];
      msimpl; [|done].
    specialize (Hrest doc w Hw).
    by destruct ((let* res := loadStyles E styles in ret (doc :: res)) w).
Qed.

Lemma loadLangs_grows w0 langs :
  preserves (caches_grow w0) (loadLangs E langs).
Proof.
  induction langs as [|lang langs IH]; intros w Hw; cbn [loadLangs]; [done|].
  destruct lang as [l|]; [|by apply IH].
  destruct (JS.truthy l); [|by apply IH]. msimpl.
  destruct (langCache (manager w) !! l) as [doc|] eqn:Hc; msimpl.
  { rewrite !result_eta. by apply IH. }
  unfold getCSLLocale. msimpl.
  destruct (fetchLocale E l) as [doc|e]; msimpl; [|done].
  set (w' := set_manager _ w).
  assert (caches_grow w0 w') as Hw'.
  { destruct Hw as [Hs Hl]. split; [done|]. subst w'.
    cbn [set_manager manager set_langCache langCache].
    etrans; [exact Hl|]. by apply insert_subseteq. }
  specialize (IH w' Hw'). by destruct (loadLangs E langs w').
Qed.

Lemma loadScopedEngine_grows w0 s :
  preserves (caches_grow w0) (loadScopedEngine E s).
Proof.
  pose proof loadStyles_grows. pose proof loadLangs_grows.
  unfold loadScopedEngine, style_step, lang_step, bib_step, guarded,
    styleBlock, langBlock, bibBlock.
  mstructure.
Qed.

(** X5.  Whatever it loads and whatever fails while it loads,
    [loadScopedEngine] leaves the resolution cache, the global lookup,
    index and engine, the settings and the metadata as they are, and the
    style and locale caches keep every document they held: the scope it
    builds is handed to the caller, the manager only gains documents. *)
Theorem loadScopedEngine_only_adds_documents s w :
  let r := loadScopedEngine E s w in
  scope_frame w (post r) ∧ caches_grow w (post r).
Proof.
  split.
  - apply loadScopedEngine_frame, scope_frame_refl.
  - apply loadScopedEngine_grows, caches_grow_refl.
Qed.

Lemma style_step_frame w0 settings langs style :
  preserves (scope_frame w0) (style_step E settings langs style).
Proof.
  pose proof (loadStyles_frame E).
  unfold style_step, guarded, styleBlock. mstructure.
Qed.

Lemma lang_step_frame w0 settings langs lang :
  preserves (scope_frame w0) (lang_step E settings langs lang).
Proof.
  pose proof (loadLangs_frame E).
  unfold lang_step, guarded, langBlock. mstructure.
Qed.

Lemma guarded_cases {A} (block : M A) w :
  (∃ a, out (block w) = Ret a ∧ out (guarded block w) = Ret (inr a))
  ∨ out (guarded block w) = Ret (inl SrcThis).
Proof.
  destruct (out (block w)) as [a|e] eqn:Hb.
  - left. exists a. split; [done|]. by rewrite (guarded_returns block w a Hb).
  - right. by rewrite (guarded_throws block w e Hb).
Qed.

Lemma guarded_inl {A} (block : M A) w s :
  out (guarded block w) = Ret (inl s) → s = SrcThis.
Proof.
  destruct (guarded_cases block w) as [(a & _ & ->) | ->]; congruence.
Qed.

Lemma bibBlock_eq b w :
  bibBlock E b w =
    {| out := match bibToCSL E b (pathToPandoc (pluginSettings w)) with
              | Ret bib => Ret (entries_by_id bib, Some bib)
              | Throw e => Throw e
              end;
       post := w; trace := [EvBibToCSL b] |}.
Proof.
  unfold bibBlock. msimpl.
  by destruct (bibToCSL E b (pathToPandoc (pluginSettings w))).
Qed.

Lemma steps_return settings langs style lang bc f :
  returns (style_step E settings langs style)
  ∧ returns (lang_step E settings langs lang)
  ∧ returns (bib_step E settings bc f).
Proof.
  unfold style_step, lang_step, bib_step, guarded. split_and!; mstructure.
Qed.

Lemma bib_step_eq b w :
  (let* r := guarded (bibBlock E b) in
   match r with
   | inl this => ret (inl this)
   | inr (bibCache, fuse) =>
       ret (inr (bibCache, OwnFuse <$> fuse)
            : Source + (gmap string PartialCSLEntry * option FuseRef))
   end) w
  = match bibToCSL E b (pathToPandoc (pluginSettings w)) with
    | Ret bib =>
        {| out := Ret (inr (entries_by_id bib, Some (OwnFuse bib)));
           post := w; trace := [EvBibToCSL b] |}
    | Throw e =>
        {| out := Ret (inl SrcThis); post := w;
           trace := [EvBibToCSL b; EvConsoleError e] |}
    end.
Proof.
  unfold guarded, try_catch, bind. rewrite bibBlock_eq.
  by destruct (bibToCSL E b (pathToPandoc (pluginSettings w))).
Qed.

Lemma steps_inl settings langs style lang bc f w s :
  (out (style_step E settings langs style w) = Ret (inl s) → s = SrcThis)
  ∧ (out (lang_step E settings langs lang w) = Ret (inl s) → s = SrcThis)
  ∧ (out (bib_step E settings bc f w) = Ret (inl s) → s = SrcThis).
Proof.
  unfold style_step, lang_step, bib_step. split_and!.
  - destruct (settings_style settings) as [x|]; [|done].
    destruct (JS.truthy x); [apply guarded_inl|done].
  - destruct (settings_lang settings) as [x|]; [|done].
    destruct (JS.truthy x); [apply guarded_inl|done].
  - destruct (settings_bibliography settings) as [x|]; [|done].
    destruct (JS.truthy x); [|done]. rewrite bib_step_eq.
    destruct (bibToCSL E x (pathToPandoc (pluginSettings w))); [done|].
    cbn. congruence.
Qed.

Lemma style_step_inr settings langs style w langs' style' :
  out (style_step E settings langs style w) = Ret (inr (langs', style')) →
  style' = default style (JS.or_undefined (settings_style settings)).
Proof.
  unfold style_step, JS.or_undefined.
  destruct (settings_style settings) as [s|]; cbn [JS.truthy_opt default].
  2:{ cbn. congruence. }
  destruct (JS.truthy s); cbn [default].
  2:{ cbn. congruence. }
  destruct (guarded_cases (styleBlock E settings s langs) w)
    as [(a & Hb & ->) | ->]; [|done].
  intros [= ->]. unfold styleBlock in Hb.
  match type of Hb with context [loadStyles E ?x] =>
    destruct (loadStyles E x w) as [[styles|e] w1 t1] eqn:Hl end.
  - rewrite (bind_run _ _ _ _ _ _ Hl) in Hb. unfold bind, lift in Hb.
    destruct (style_locales E styles (settings_lang settings) langs);
      cbn in Hb |- *; congruence.
  - rewrite (bind_throws _ _ _ _ _ _ Hl) in Hb. done.
Qed.

Lemma lang_step_inr settings langs lang w lang' :
  out (lang_step E settings langs lang w) = Ret (inr lang') →
  lang' = default lang (JS.or_undefined (settings_lang settings)).
Proof.
  unfold lang_step, JS.or_undefined.
  destruct (settings_lang settings) as [l|]; cbn [JS.truthy_opt default].
  2:{ cbn. congruence. }
  destruct (JS.truthy l); cbn [default].
  2:{ cbn. congruence. }
  destruct (guarded_cases (langBlock E l langs) w)
    as [(a & Hb & ->) | ->]; [|done].
  intros [= ->]. unfold langBlock in Hb.
  destruct (loadLangs E langs w) as [[[]|e] w1 t1] eqn:Hl.
  - rewrite (bind_run _ _ _ _ _ _ Hl) in Hb. cbn in Hb |- *. congruence.
  - rewrite (bind_throws _ _ _ _ _ _ Hl) in Hb. done.
Qed.

Lemma bib_step_post settings bc f w : post (bib_step E settings bc f w) = w.
Proof.
  unfold bib_step. destruct (settings_bibliography settings) as [b|]; [|done].
  destruct (JS.truthy b); [|done]. rewrite bib_step_eq.
  by destruct (bibToCSL E b (pathToPandoc (pluginSettings w))).
Qed.

Lemma bib_step_inr settings bc f w bc' f' :
  out (bib_step E settings bc f w) = Ret (inr (bc', f')) →
  match JS.or_undefined (settings_bibliography settings) with
  | None => bc' = bc ∧ f' = f
  | Some b =>
      ∃ bib, bibToCSL E b (pathToPandoc (pluginSettings w)) = Ret bib
             ∧ bc' = entries_by_id bib ∧ f' = Some (OwnFuse bib)
  end.
Proof.
  unfold bib_step, JS.or_undefined.
  destruct (settings_bibliography settings) as [b|]; cbn [JS.truthy_opt].
  2:{ cbn. intros [= -> ->]. done. }
  destruct (JS.truthy b).
  2:{ cbn. intros [= -> ->]. done. }
  rewrite bib_step_eq.
  destruct (bibToCSL E b (pathToPandoc (pluginSettings w))) as [bib|e];
    [|done].
  cbn [out]. intros [= <- <-]. by exists bib.
Qed.

(** What [loadScopedEngine] returns for settings that are not null: the
    manager itself, or what the construction of the engine gives. *)
Lemma loadScopedEngine_out settings w :
  let r := loadScopedEngine E (Some settings) w in
  let w' := post r in
  let lang :=
    default (JS.nullish (cslLang (pluginSettings w)) "en-US")
      (JS.or_undefined (settings_lang settings)) in
  let style :=
    default (JS.nullish (cslStyleURL (pluginSettings w)) default_style_url)
      (JS.or_undefined (settings_style settings)) in
  out r = Ret SrcThis
  ∨ ∃ bc f,
      match JS.or_undefined (settings_bibliography settings) with
      | None =>
          bc = bibCache (manager w)
          ∧ f = match fuse (manager w) with
                | Some _ => Some GlobalFuse
                | None => None
                end
      | Some b =>
          ∃ bib, bibToCSL E b (pathToPandoc (pluginSettings w)) = Ret bib
                 ∧ bc = entries_by_id bib ∧ f = Some (OwnFuse bib)
      end
      ∧ out r
        = match buildEngine E lang (langCache (manager w')) style
                  (styleCache (manager w')) bc with
          | Ret e => Ret (SrcScoped bc f e)
          | Throw err => Throw err
          end.
Proof.
  intros r w' lang style. subst r w'.
  unfold loadScopedEngine. msimpl.
  set (style0 := JS.nullish _ default_style_url) in *.
  set (lang0 := JS.nullish _ "en-US") in *.
  set (f0 := match fuse (manager w) with
             | Some _ => Some GlobalFuse
             | None => None
             end).
  pose proof (style_step_frame w settings [settings_lang settings] style0 w
                (scope_frame_refl w)) as Hf1.
  pose proof (style_step_inr settings [settings_lang settings] style0 w) as Hs.
  pose proof (λ s, proj1 (steps_inl settings [settings_lang settings] style0
                            lang0 ∅ None w s)) as Hi1.
  destruct (proj1 (steps_return settings [settings_lang settings] style0
                     lang0 ∅ None) w) as [a1' Hr1].
  mcase (style_step E settings [settings_lang settings] style0 w)
    as a1 e1 w1 t1 H1; [|done].
  cbn [out post] in *. clear Hr1 a1'.
  destruct a1 as [this|[langs1 style1]]; msimpl;
    [left; by rewrite (Hi1 this eq_refl)|].
  specialize (Hs _ _ eq_refl). subst style1. clear Hi1.
  pose proof (lang_step_frame w settings langs1 lang0 w1 Hf1) as Hf2.
  pose proof (lang_step_inr settings langs1 lang0 w1) as Hl.
  pose proof (λ s, proj1 (proj2 (steps_inl settings langs1 style0
                                   lang0 ∅ None w1 s))) as Hi2.
  destruct (proj1 (proj2 (steps_return settings langs1 style0 lang0 ∅ None))
              w1) as [a2' Hr2].
  mcase (lang_step E settings langs1 lang0 w1) as a2 e2 w2 t2 H2; [|done].
  cbn [out post] in *. clear Hr2 a2'.
  destruct a2 as [this|lang1]; msimpl; [left; by rewrite (Hi2 this eq_refl)|].
  specialize (Hl _ eq_refl). subst lang1. clear Hi2.
  pose proof (bib_step_post settings (bibCache (manager w)) f0 w2) as Hp3.
  pose proof (bib_step_inr settings (bibCache (manager w)) f0 w2) as Hb.
  pose proof (λ s, proj2 (proj2 (steps_inl settings langs1 style0 lang0
                                   (bibCache (manager w)) f0 w2 s))) as Hi3.
  destruct (proj2 (proj2 (steps_return settings langs1 style0 lang0
                            (bibCache (manager w)) f0)) w2) as [a3' Hr3].
  mcase (bib_step E settings (bibCache (manager w)) f0 w2)
    as a3 e3 w3 t3 H3; [|done].
  cbn [out post] in *. clear Hr3 a3'.
  destruct a3 as [this|[bc3 f3]]; msimpl; [left; by rewrite (Hi3 this eq_refl)|].
  subst w3. specialize (Hb _ _ eq_refl).
  right. exists bc3, f3. split.
  { destruct Hf2 as (_ & _ & _ & _ & Hps & _). rewrite <- Hps. exact Hb. }
  subst lang style. unfold bind, lift.
  destruct (buildEngine E _ _ _ _ bc3) as [e|err] eqn:Hbuild;
    cbn [out post]; by rewrite Hbuild.
Qed.

(** X6.  When [loadScopedEngine] returns a scope of its own, the engine of
    the scope is the one the constructor gave for the lang of the document,
    or else the lang of the plugin, or else en-US; for the style of the
    document, or else the style URL of the plugin, or else the default
    style, read from the style cache as it is after the loading; and on the
    lookup of the scope.  That lookup and the index are the global ones when
    the document names no bibliography, and those of the converted file,
    with an index of the scope's own, when it names one.  When
    [loadScopedEngine] throws, it is the constructor of the engine that has
    thrown, for that lang, that style and such a lookup. *)
Theorem scoped_source_shape settings w :
  let r := loadScopedEngine E (Some settings) w in
  let w' := post r in
  let lang :=
    default (JS.nullish (cslLang (pluginSettings w)) "en-US")
      (JS.or_undefined (settings_lang settings)) in
  let style :=
    default (JS.nullish (cslStyleURL (pluginSettings w)) default_style_url)
      (JS.or_undefined (settings_style settings)) in
  let lookup_of bc f :=
    match JS.or_undefined (settings_bibliography settings) with
    | None =>
        bc = bibCache (manager w)
        ∧ f = match fuse (manager w) with
              | Some _ => Some GlobalFuse
              | None => None
              end
    | Some b =>
        ∃ bib, bibToCSL E b (pathToPandoc (pluginSettings w)) = Ret bib
               ∧ bc = entries_by_id bib ∧ f = Some (OwnFuse bib)
    end in
  (∀ bc f e,
     out r = Ret (SrcScoped bc f e) →
     buildEngine E lang (langCache (manager w')) style
       (styleCache (manager w')) bc = Ret e
     ∧ lookup_of bc f)
  ∧ (∀ err,
       out r = Throw err →
       ∃ bc f,
         lookup_of bc f
         ∧ buildEngine E lang (langCache (manager w')) style
             (styleCache (manager w')) bc = Throw err).
Proof.
  intros r w' lang style lookup_of.
  destruct (loadScopedEngine_out settings w) as [Hthis|(bc & f & Hl & Hout)].
  { fold r in Hthis. split.
    - intros bc f e. by rewrite Hthis.
    - intros err. by rewrite Hthis. }
  cbv zeta in Hout. fold r w' lang style in Hout. split.
  - intros bc' f' e Hr. rewrite Hr in Hout.
    destruct (buildEngine E lang _ style _ bc) as [e'|err] eqn:Hb; [|done].
    injection Hout as -> -> ->. by split.
  - intros err Hr. rewrite Hr in Hout. exists bc, f. split; [exact Hl|].
    destruct (buildEngine E lang _ style _ bc) as [e'|err']; [done|].
    congruence.
Qed.

Lemma entries_by_id_snoc bib x :
  entries_by_id (bib ++ [x]) = <[entry_id x := x]> (entries_by_id bib).
Proof. unfold entries_by_id. by rewrite fold_left_app. Qed.

Lemma entries_by_id_lookup bib k :
  entries_by_id bib !! k
  = last (filter (λ entry, entry_id entry = k) bib).
Proof.
  induction bib as [|x bib IH] using rev_ind; [done|].
  rewrite entries_by_id_snoc, filter_app, filter_cons, filter_nil.
  destruct (decide (entry_id x = k)) as [<-|Hne].
  - rewrite lookup_insert_eq. by rewrite last_snoc.
  - rewrite lookup_insert_ne by done. by rewrite app_nil_r.
Qed.

(** X7.  The lookup that [loadScopedEngine] builds from the bibliography
    file of a document gives, for an id, the last entry of the file with
    that id, and nothing for an id that no entry has; the index of the
    scope is built over all entries of the file. *)
Theorem scoped_lookup_keeps_last_entry b w bc f :
  out (bibBlock E b w) = Ret (bc, f) →
  ∃ bib,
    bibToCSL E b (pathToPandoc (pluginSettings w)) = Ret bib
    ∧ f = Some bib
    ∧ ∀ k, bc !! k = last (filter (λ entry, entry_id entry = k) bib).
Proof.
  rewrite bibBlock_eq. cbn [out].
  destruct (bibToCSL E b (pathToPandoc (pluginSettings w))) as [bib|e];
    [|done].
  intros [= <- <-]. exists bib. split_and!; [done..|].
  intros k. apply entries_by_id_lookup.
Qed.

End scope_more.

(** ** What the methods leave alone *)

Section frame_facts.
Variable E : Env.

Lemma after_calls_nil e : after_calls [] e = e.
Proof. unfold after_calls, with_calls. rewrite app_nil_r. by destruct e. Qed.

Lemma after_calls_record calls c e :
  record_call c (after_calls calls e) = after_calls (calls ++ [c]) e.
Proof. unfold after_calls, with_calls, record_call. cbn. by rewrite app_assoc. Qed.

Lemma global_frame_refl w : global_frame w w.
Proof.
  split_and!; try done. exists []. destruct (engine (manager w)); [|done].
  cbn. by rewrite after_calls_nil.
Qed.

Lemma global_frame_scope w0 w w' :
  global_frame w0 w → scope_frame w w' → caches_grow w w' → global_frame w0 w'.
Proof.
  intros (Hb & Hf & Hp & Hm & [Hs Hl] & calls & He)
         (_ & Hb' & Hf' & He' & Hp' & Hm' & _) [Hs' Hl'].
  split_and!; try congruence.
  - split; etrans; done.
  - exists calls. congruence.
Qed.

Lemma global_frame_loadScopedEngine w0 s :
  preserves (global_frame w0) (loadScopedEngine E s).
Proof.
  intros w Hw. eapply global_frame_scope; [done| |].
  - apply loadScopedEngine_frame, scope_frame_refl.
  - apply loadScopedEngine_grows, caches_grow_refl.
Qed.

Lemma global_frame_get w0 file : preserves (global_frame w0) (fileCache_get file).
Proof. intros w Hw. rewrite fileCache_get_eq. exact Hw. Qed.

Lemma global_frame_set w0 file d :
  preserves (global_frame w0) (fileCache_set file d).
Proof. intros w Hw. exact Hw. Qed.

Lemma global_frame_share w0 file s :
  preserves (global_frame w0) (fileCache_share_source file s).
Proof. intros w Hw. exact Hw. Qed.

Lemma global_frame_parse w0 html :
  preserves (global_frame w0) (parseFromString E html).
Proof. intros w Hw. exact Hw. Qed.

Lemma global_frame_engine_called w0 call s :
  preserves (global_frame w0) (engine_called call s).
Proof.
  intros w Hw. rewrite engine_called_eq. cbn [post].
  destruct s as [|b f e]; [|exact Hw]. cbn [called].
  destruct Hw as (Hb & Hf & Hp & Hm & Hg & calls & He).
  split_and!; try done. exists (calls ++ [call])%list.
  cbn [manager set_manager engine set_engine]. rewrite He.
  destruct (engine (manager w0)) as [e|]; [|done]. cbn.
  by rewrite after_calls_record.
Qed.

Lemma global_frame_commit w0 file c a s :
  preserves (global_frame w0) (commit_source file c a s).
Proof.
  pose proof (global_frame_share w0). unfold commit_source. mstructure.
Qed.

(** X8.  A call of [getReferenceList] leaves the global lookup and index,
    the plugin settings and the metadata as they are; the style and locale
    caches keep every document they held; and the global engine is the one
    it was, with the calls it has received in the pass. *)
Theorem getReferenceList_keeps_global_scope file content w :
  global_frame w (post (getReferenceList E file content w)).
Proof.
  assert (preserves (global_frame w) (getReferenceList E file content)) as Hp.
  { pose proof (global_frame_get w). pose proof (global_frame_set w).
    pose proof (global_frame_share w). pose proof (global_frame_parse w).
    pose proof (global_frame_engine_called w).
    pose proof (global_frame_loadScopedEngine w).
    pose proof (global_frame_commit w).
    unfold getReferenceList, pass_scope, select_source, setNull, cite,
      source_makeBibliography, source_engine, source_bibCache, dispatchResult.
    mstructure. }
  apply Hp, global_frame_refl.
Qed.

Lemma same_entries_refl w : same_entries w w.
Proof. by split_and!. Qed.

Lemma same_entries_get w0 file : preserves (same_entries w0) (fileCache_get file).
Proof.
  intros w (Hpeek & Hrest). rewrite fileCache_get_eq. cbn [post].
  split; [|exact Hrest]. intros f. unfold touch.
  cbn [manager set_manager fileCache set_fileCache].
  by rewrite peek_get.
Qed.

Lemma same_entries_parse w0 html :
  preserves (same_entries w0) (parseFromString E html).
Proof. intros w Hw. exact Hw. Qed.

Lemma same_entries_queries file x w :
  same_entries w (post (getNoteForNoteIndex E file x w))
  ∧ same_entries w (post (getBibForCiteKey E file x w))
  ∧ same_entries w (post (getResolution file x w))
  ∧ same_entries w (post (getCacheForPath file w)).
Proof.
  pose proof (same_entries_get w). pose proof (same_entries_parse w).
  pose proof (same_entries_refl w) as Hw.
  split_and!.
  - assert (preserves (same_entries w) (getNoteForNoteIndex E file x)) as Hp
      by (unfold getNoteForNoteIndex; mstructure).
    by apply Hp.
  - assert (preserves (same_entries w) (getBibForCiteKey E file x)) as Hp
      by (unfold getBibForCiteKey; mstructure).
    by apply Hp.
  - assert (preserves (same_entries w) (getResolution file x)) as Hp
      by (unfold getResolution; mstructure).
    by apply Hp.
  - by apply (same_entries_get w file w).
Qed.

(** X9.  The queries [getNoteForNoteIndex], [getBibForCiteKey],
    [getResolution] and [getCacheForPath] change no entry of the resolution
    cache and nothing else in the manager but the order of use of the
    entries: after each of them, every file has the entry it had, and the
    document caches, the lookup, the index and the engine are the same. *)
Theorem queries_keep_entries file x w :
  same_entries w (post (getNoteForNoteIndex E file x w))
  ∧ same_entries w (post (getBibForCiteKey E file x w))
  ∧ same_entries w (post (getResolution file x w))
  ∧ same_entries w (post (getCacheForPath file w)).
Proof. apply same_entries_queries. Qed.

End frame_facts.

(** ** What a pass delivers, and the resolution cache over runs *)

Section pass_more.
Variable E : Env.

Lemma silent_last t f d f' d' :
  silent t → EvDispatch f' d' ∈ (t ++ [EvDispatch f d])%list →
  f' = f ∧ d' = d.
Proof.
  intros Ht [Hin|Hin]%elem_of_app; [by apply Ht in Hin|].
  apply list_elem_of_singleton in Hin. by injection Hin.
Qed.

(** X10.  A pass delivers at most one result, as its last event; the
    result is for the file of the pass, and the pass returns the
    bibliography of the result it delivers. *)
Theorem delivered_result_is_returned file content w f d :
  let r := getReferenceList E file content w in
  EvDispatch f d ∈ trace r →
  f = file
  ∧ out r = Ret (bib d)
  ∧ ∃ t, trace r = (t ++ [EvDispatch file d])%list ∧ silent t.
Proof.
  intros r Hin.
  destruct (pass_summary E file content w)
    as [[_ Hr]|[(_ & d0 & t & Ht & Hs & Ho & _)
               |[(_ & d0 & s & _ & _ & _ & Hs & _)|(_ & e & _ & Hs & _)]]];
    fold r in Hr || fold r in Ht, Ho || fold r in Hs.
  - rewrite Hr in Hin. by apply elem_of_nil in Hin.
  - rewrite Ht in Hin. destruct (silent_last _ _ _ _ _ Hs Hin) as [-> ->].
    split_and!; [done|done|]. by exists t.
  - by apply Hs in Hin.
  - by apply Hs in Hin.
Qed.

Lemma getResolution_out file key w :
  out (getResolution file key w)
  = Ret match LRU.peek file (fileCache (manager w)) with
        | Some d => (bool_decide (key ∈ resolvedKeys d),
                     bool_decide (key ∈ unresolvedKeys d))
        | None => (false, false)
        end.
Proof.
  unfold getResolution. mstep fileCache_get_eq.
  by destruct (LRU.peek file (fileCache (manager w))).
Qed.

(** X11.  A pass over a text with citations that delivers nothing leaves
    the answers of [getResolution] as they were, for every key, also for a
    key that only the new text cites.  Such a pass has thrown, or it is a
    pass over a file whose cached entry agrees with the declared settings:
    then it returns the bibliography of that entry and leaves the entry as
    it is, but for its source, which is the source of the entry after the
    rendering call of the pass. *)
Theorem suppressed_pass_keeps_entry file content w :
  let r := getReferenceList E file content w in
  processed_of E content ≠ [] →
  silent (trace r) →
  (∀ key, out (getResolution file key (post r))
          = out (getResolution file key w))
  ∧ ((∃ e, out r = Throw e)
     ∨ ∃ d s,
         LRU.peek file (fileCache (manager w)) = Some d
         ∧ getScopedSettings w file = Ret s
         ∧ settings_agree s d
         ∧ out r = Ret (bib d)
         ∧ LRU.peek file (fileCache (manager (post r)))
           = Some (with_source
                     (called_source
                        (CallCite (pass_partition E file content w).1)
                        (source d))
                     d)).
Proof.
  intros r Hp Hsilent.
  destruct (pass_summary E file content w)
    as [[Hnil _]|[(_ & d0 & t & Ht & _)
                 |[(_ & d & s & Hd & Hset & Ha & _ & Ho & Hc)
                  |(_ & e & He & _ & Hc)]]];
    [done| | |].
  { fold r in Ht. exfalso. apply (Hsilent file d0). rewrite Ht.
    apply elem_of_app. right. by left. }
  - fold r in Ho, Hc.
    set (src := called_source _ (source d)) in *.
    assert (LRU.peek file (fileCache (manager (post r)))
            = Some (with_source src d)) as Hpeek.
    { by rewrite Hc, peek_update_eq, peek_get, Hd. }
    split.
    + intros key. by rewrite !getResolution_out, Hpeek, Hd.
    + right. by exists d, s.
  - fold r in He, Hc. split; [|left; by exists e].
    intros key. rewrite !getResolution_out.
    destruct Hc as [-> |[src ->]].
    + by rewrite peek_get.
    + rewrite peek_update_eq, peek_get.
      by destruct (LRU.peek file (fileCache (manager w))).
Qed.

(** X12.  A pass over a file changes the entry of no other file: what is
    cached for another file after the pass is what was cached for it
    before (the entry of another file may be evicted, never replaced). *)
Theorem pass_leaves_other_files file content w f d :
  let r := getReferenceList E file content w in
  f ≠ file →
  LRU.peek f (fileCache (manager (post r))) = Some d →
  LRU.peek f (fileCache (manager w)) = Some d.
Proof.
  intros r Hf. subst r.
  destruct (pass_summary E file content w)
    as [[_ Hr]|[(_ & d0 & t & _ & _ & _ & Hc & _)
               |[(_ & d0 & s & _ & _ & _ & _ & _ & Hc)|(_ & e & _ & _ & Hc)]]].
  - rewrite Hr. cbn [post]. done.
  - rewrite Hc. intros [[? _]|[_ H]]%peek_set_cases; [done|].
    by rewrite peek_get in H.
  - rewrite Hc, peek_update_ne by done. by rewrite peek_get.
  - destruct Hc as [-> |[src ->]].
    + by rewrite peek_get.
    + rewrite peek_update_ne by done. by rewrite peek_get.
Qed.

Lemma cache_sound_same w w' : same_entries w w' → cache_sound w → cache_sound w'.
Proof. intros [Hpeek _] Hw f d. rewrite Hpeek. apply Hw. Qed.

Lemma cache_sound_getReferenceList file content w :
  cache_sound w → cache_sound (post (getReferenceList E file content w)).
Proof.
  intros Hw f d.
  assert (∀ src,
            LRU.peek f
              (LRU.update file (with_source src)
                 (LRU.get file (fileCache (manager w))).2) = Some d →
            resolvedKeys d ## unresolvedKeys d) as Hupdate.
  { intros src. destruct (decide (file = f)) as [<-|Hne].
    - rewrite peek_update_eq, peek_get.
      destruct (LRU.peek file (fileCache (manager w))) as [d0|] eqn:Hd0;
        [|done].
      intros [= <-].
      cbn [with_source resolvedKeys unresolvedKeys]. by apply (Hw file d0).
    - rewrite peek_update_ne by done. rewrite peek_get. apply Hw. }
  destruct (pass_summary E file content w)
    as [[_ Hr]|[(_ & d0 & t & _ & _ & _ & Hc & Hdisj)
               |[(_ & d0 & s & _ & _ & _ & _ & _ & Hc)|(_ & e & _ & _ & Hc)]]].
  - rewrite Hr. apply Hw.
  - rewrite Hc. intros [[_ ->]|[_ H]]%peek_set_cases; [done|].
    rewrite peek_get in H. by apply (Hw f).
  - rewrite Hc. apply Hupdate.
  - destruct Hc as [-> |[src ->]]; [|apply Hupdate].
    rewrite peek_get. apply Hw.
Qed.

Lemma cache_sound_step op w : cache_sound w → cache_sound (step E op w).
Proof.
  intros Hw.
  destruct op as [file content|file index|file key|file key|file|loaded|file fm];
    cbn [step].
  - by apply cache_sound_getReferenceList.
  - eapply cache_sound_same; [|done]. apply (same_entries_queries E file index w).
  - eapply cache_sound_same; [|done]. apply (same_entries_queries E file key w).
  - eapply cache_sound_same; [|done]. apply (same_entries_queries E file key w).
  - eapply cache_sound_same; [|done].
    apply (same_entries_queries E file EmptyString w).
  - intros f d Hd. done.
  - exact Hw.
Qed.

Lemma cache_sound_run ops w : cache_sound w → cache_sound (run E ops w).
Proof.
  revert w. induction ops as [|op ops IH]; intros w Hw; [done|].
  cbn [run fold_left]. apply IH. by apply cache_sound_step.
Qed.

(** X13.  After every run of calls on a new manager, [getResolution] never
    answers that a key is both resolved and unresolved. *)
Theorem resolution_never_both ops w file key :
  manager w = newBibManager →
  out (getResolution file key (run E ops w)) ≠ Ret (true, true).
Proof.
  intros Hnew. rewrite getResolution_out.
  assert (cache_sound (run E ops w)) as Hs.
  { apply cache_sound_run. intros f d. by rewrite Hnew. }
  destruct (LRU.peek file _) as [d|] eqn:Hd; [|done].
  intros [= H1%bool_decide_eq_true H2%bool_decide_eq_true].
  by apply (Hs file d Hd key).
Qed.

End pass_more.

(** ** The queries *)

Section query_more.
Variable E : Env.

(** X14.  After a pass with a usable engine that delivers a result,
    [getResolution] answers for every non-empty key cited in the text
    according to the lookup of the scope of the pass: resolved and not
    unresolved when the lookup has the key, unresolved and not resolved
    when it does not. *)
Theorem resolution_follows_lookup file content w d key :
  let r := getReferenceList E file content w in
  EvDispatch file d ∈ trace r →
  0 < LRU.max (fileCache (manager w)) →
  is_Some (pass_engine E file w) →
  key ≠ EmptyString → key ∈ cited_ids (processed_of E content) →
  out (getResolution file key (post r))
  = Ret (bool_decide (is_Some (pass_bibCache E file w !! key)),
         bool_decide (pass_bibCache E file w !! key = None)).
Proof.
  intros r Hd Hmax Heng Hne Hcited. subst r.
  destruct (dispatched_cases E file content w file d Hd)
    as (src & Hsrc & _ & _ & Hpeek & Hsets).
  assert (∃ c s, out (pass_scope E file w) = Ret (c, s, src))
    as (c & s & Hs).
  { unfold pass_source in Hsrc.
    destruct (out (pass_scope E file w)) as [[[c s] src']|e]; [|done].
    injection Hsrc as ->. by exists c, s. }
  destruct (pass_observers E file w _ _ src Hs) as (_ & He & Hbc).
  rewrite He in Heng. rewrite Hbc.
  set (bc := bibCache_of src (post (pass_scope E file w))) in *.
  destruct Hsets as [(Hnone & _)|(_ & Hres & Hunres)].
  { rewrite Hnone in Heng. by destruct Heng. }
  pose proof (filter_groups_spec bc (processed_of E content)
                (partition_keys bc (collect_keys (processed_of E content))))
    as (_ & Hsound & _).
  specialize (Hsound (partition_keys_sound _ _)).
  pose proof (pass_sets_spec bc (processed_of E content)) as (_ & Hcover & _).
  cbv zeta in Hcover. destruct Hsound as [Hr Hu].
  rewrite <- Hres in Hr, Hcover. rewrite <- Hunres in Hu, Hcover.
  assert (key ∈ resolvedKeys d ∪ unresolvedKeys d) as Hin.
  { apply Hcover. by apply elem_of_collect_keys. }
  rewrite getResolution_out, (Hpeek Hmax). f_equal.
  assert (∀ P Q `{Decision P, Decision Q}, (P ↔ Q) → bool_decide P = bool_decide Q)
    as Hbd by (intros; by apply bool_decide_ext).
  f_equal; apply Hbd.
  - split; [apply Hr|]. intros Hsome.
    apply elem_of_union in Hin as [Hin|Hin]; [done|].
    apply Hu in Hin. rewrite Hin in Hsome. by destruct Hsome.
  - split; [apply Hu|]. intros Hnone.
    apply elem_of_union in Hin as [Hin|Hin]; [|done].
    apply Hr in Hin. rewrite Hnone in Hin. by destruct Hin.
Qed.

(** X15.  The entry that [setNull] stores has no settings, so it never
    agrees with the settings of a file that declares some: a pass over a
    text with citations, for a file with scoped settings whose cached entry
    has null settings, builds the scope again with [loadScopedEngine]. *)
Theorem null_entry_is_rebuilt file content w d s :
  processed_of E content ≠ [] →
  LRU.peek file (fileCache (manager w)) = Some d →
  settings d = None →
  getScopedSettings w file = Ret (Some s) →
  EvLoadScopedEngine (Some s) ∈ trace (getReferenceList E file content w).
Proof.
  intros Hp Hd Hnull Hs.
  assert (¬ settings_agree (Some s) d) as Hdis.
  { intros (Hb & Hst & Hl). rewrite Hnull in Hb, Hst, Hl. cbn in Hb, Hst, Hl.
    destruct (scoped_settings_fields w file s Hs) as (_ & _ & _ & Hsome).
    rewrite Hb, Hst, Hl in Hsome.
    destruct Hsome as [[? ?]|[[? ?]|[? ?]]]; done. }
  pose proof (pass_scope_build E file w (Some s) Hs) as Hscope.
  cbv zeta in Hscope.
  destruct (pass_trace E file content w Hp) as (t & -> & _).
  rewrite Hscope by (right; by exists d). cbn [trace].
  destruct (loadScopedEngine_trace_head E (Some s) (touch file w)) as [t' ->].
  apply elem_of_app. left. by left.
Qed.

Lemma find_none_iff {A} (p : A → bool) l :
  find p l = None ↔ ∀ x, x ∈ l → p x = false.
Proof.
  induction l as [|y l IH]; cbn [find].
  - split; [|done]. by intros _ x Hx%elem_of_nil.
  - destruct (p y) eqn:Hy.
    + split; [done|]. intros H. specialize (H y). rewrite Hy in H.
      discriminate H. by left.
    + rewrite IH. split.
      * intros H x [->|Hx]%elem_of_cons; [done|by apply H].
      * intros H x Hx. apply H. by right.
Qed.

(** X16.  [getNoteForNoteIndex] throws exactly when the file is cached and
    no cached citation of the file carries the note index that the argument
    parses to, as the double that [parseInt] returns; so it throws for every
    cached file when the argument parses to NaN or to an infinity. *)
Theorem getNoteForNoteIndex_throws_iff file index w :
  ((∃ e, out (getNoteForNoteIndex E file index w) = Throw e)
   ↔ ∃ d, LRU.peek file (fileCache (manager w)) = Some d
          ∧ ∀ c, c ∈ fc_citations d → ¬ note_index_matches index c)
  ∧ ((∀ z, JS.parseInt index ≠ JS.Int z) →
     is_Some (LRU.peek file (fileCache (manager w))) →
     ∃ e, out (getNoteForNoteIndex E file index w) = Throw e).
Proof.
  assert ((∃ e, out (getNoteForNoteIndex E file index w) = Throw e)
          ↔ ∃ d, LRU.peek file (fileCache (manager w)) = Some d
                 ∧ ∀ c, c ∈ fc_citations d → ¬ note_index_matches index c)
    as Hiff.
  { unfold getNoteForNoteIndex. mstep fileCache_get_eq.
    destruct (LRU.peek file (fileCache (manager w))) as [d|] eqn:Hd.
    2:{ split; [by intros [e He]|by intros (d & Hd' & _)]. }
    set (p := λ c, match rc_noteIndex c with
                   | Some a => JS.strict_eq a (JS.parseInt index)
                   | None => false
                   end).
    assert (∀ c, p c = false ↔ ¬ note_index_matches index c) as Hp.
    { intros c. subst p. unfold note_index_matches, JS.strict_eq. cbn beta.
      destruct (rc_noteIndex c) as [a|], (JS.parseInt index) as [| |b].
      - split; [|done]. by intros _ (a' & _ & ?).
      - split; [|done]. by intros _ (a' & _ & ?).
      - rewrite bool_decide_eq_false. split.
        + intros Hne (a' & [= <-] & [= <-]). done.
        + intros H ->. apply H. by exists b.
      - split; [|done]. by intros _ (a' & ? & _).
      - split; [|done]. by intros _ (a' & ? & _).
      - split; [|done]. by intros _ (a' & ? & _). }
    destruct (find p (fc_citations d)) as [c|] eqn:Hfind.
    - split.
      + intros [e He]. exfalso. revert He.
        destruct (negb (JS.truthy_opt (rc_note c))); [done|].
        unfold parseFromString. msimpl. done.
      + intros (d' & [= <-] & Hall). exfalso.
        apply find_some in Hfind as [Hin Hpc].
        apply list_elem_of_In in Hin. apply Hall, Hp in Hin. congruence.
    - split; [|by eexists]. intros _. exists d. split; [done|].
      intros c Hc. apply Hp. by apply (proj1 (find_none_iff p _) Hfind). }
  split; [exact Hiff|].
  intros Hnan [d Hd]. apply Hiff. exists d. split; [done|].
  intros c _ (a & _ & Ha). by apply (Hnan a).
Qed.

(** X17.  [getBibForCiteKey] returns a node exactly when the file is
    cached, the key is one of the keys cited in it, the entry map of the
    file has a non-empty markup for the key, and the parsed markup has a
    child; the node is then the first child, a new node.  In every other
    case it returns null. *)
Theorem getBibForCiteKey_returns_node_iff file key w n :
  out (getBibForCiteKey E file key w) = Ret (Some n)
  ↔ ∃ d html h,
      LRU.peek file (fileCache (manager w)) = Some d
      ∧ key ∈ keys d
      ∧ citeBibMap d !! key = Some html
      ∧ html ≠ EmptyString
      ∧ head (bodyChildNodes E html) = Some h
      ∧ n = {| node_ref := nextNode w; node_html := h |}.
Proof.
  unfold getBibForCiteKey. mstep fileCache_get_eq.
  destruct (LRU.peek file (fileCache (manager w))) as [d|] eqn:Hd.
  2:{ split; [done|]. by intros (d & html & h & ? & _). }
  case_bool_decide as Hk.
  2:{ split; [done|]. intros (d' & html & h & [= <-] & ? & _). done. }
  destruct (citeBibMap d !! key) as [html|] eqn:Hm.
  2:{ split; [done|]. intros (d' & html & h & [= <-] & _ & ? & _).
      congruence. }
  destruct (JS.truthy html) eqn:Ht.
  2:{ split; [done|]. intros (d' & html' & h & [= <-] & _ & Hm' & Hne & _).
      assert (html' = html) as -> by congruence. by destruct html. }
  unfold parseFromString. msimpl.
  change (nextNode (touch file w)) with (nextNode w).
  destruct (bodyChildNodes E html) as [|h hs] eqn:Hb; cbn [imap head].
  - split; [done|]. intros (d' & html' & h & [= <-] & _ & Hm' & _ & Hh & _).
    assert (html' = html) as -> by congruence. rewrite Hb in Hh. done.
  - rewrite Nat.add_0_r. split.
    + intros [= <-]. exists d, html, h. rewrite Hb.
      split_and!; try done. by destruct html.
    + intros (d' & html' & h' & [= <-] & _ & Hm' & _ & Hh & ->).
      assert (html' = html) as -> by congruence.
      rewrite Hb in Hh. by injection Hh as ->.
Qed.


End query_more.

(** ** The bibliography entries by cite key *)

Section bib_map.

Lemma imap_pair_snoc {A} (l : list A) x :
  imap pair (l ++ [x]) = (imap pair l ++ [(length l, x)])%list.
Proof. rewrite imap_app. cbn. by rewrite Nat.add_0_r. Qed.

(** X19.  The map from cite keys to bibliography entries that a pass
    fills from [entry_ids] gives, for a key, the entry at the position of
    the last id list that starts with the key, and nothing when no id list
    starts with it or when the engine gave no entry at that position. *)
Theorem fill_citeBibMap_lookup ids entries k :
  fill_citeBibMap (Some ids) entries !! k
  = match last (filter (λ ie, head ie.2 = Some k) (imap pair ids)) with
    | Some ie => entries !! ie.1
    | None => None
    end.
Proof.
  unfold fill_citeBibMap.
  induction ids as [|x ids IH] using rev_ind; [done|].
  rewrite imap_pair_snoc, fold_left_app, filter_app. cbn [fold_left snd fst].
  rewrite filter_cons, filter_nil. cbn [snd].
  destruct x as [|k' rest]; cbn [head].
  { rewrite decide_False by done. by rewrite app_nil_r. }
  destruct (decide (Some k' = Some k)) as [[= ->]|Hne].
  - rewrite last_snoc. cbn [fst].
    destruct (entries !! length ids) as [html|].
    + by rewrite lookup_insert_eq.
    + by rewrite lookup_delete_eq.
  - rewrite app_nil_r. assert (k' ≠ k) by congruence.
    destruct (entries !! length ids) as [html|].
    + by rewrite lookup_insert_ne.
    + by rewrite lookup_delete_ne.
Qed.

End bib_map.

(** ** The citations of a section *)

Section section_properties.
Variable getCache : string → option CachedMetadata.

(** X20.  [getCitationsForSection] throws exactly when the file is cached
    and the metadata cache has no metadata for its path: the metadata is
    read without a test for null. *)
Theorem getCitationsForSection_throws_iff file lineStart lineEnd w :
  (∃ e, out (getCitationsForSection getCache file lineStart lineEnd w) = Throw e)
  ↔ is_Some (LRU.peek file (fileCache (manager w))) ∧ getCache file = None.
Proof.
  unfold getCitationsForSection. mstep fileCache_get_eq.
  destruct (LRU.peek file (fileCache (manager w))) as [d|].
  2:{ split; [by intros [e He]|]. by intros [[? ?] _]. }
  destruct (getCache file) as [mc|].
  - split; [|by intros [_ ?]]. intros [e He].
    by destruct (match sections mc with Some _ => _ | None => _ end).
  - split; [|by eexists]. intros _. split; [by eexists|done].
Qed.

Lemma section_citations file lineStart lineEnd w cs :
  out (getCitationsForSection getCache file lineStart lineEnd w) = Ret cs →
  match LRU.peek file (fileCache (manager w)),
        section_of getCache file lineStart lineEnd with
  | Some d, Some s =>
      cs `sublist_of` fc_citations d
      ∧ ∀ c, c ∈ cs
             ↔ c ∈ fc_citations d
               ∧ loc_offset (pos_start s) ≤ rc_from c
               ∧ rc_to c ≤ loc_offset (pos_end s)
  | _, _ => cs = []
  end.
Proof.
  unfold getCitationsForSection, section_of. mstep fileCache_get_eq.
  destruct (LRU.peek file (fileCache (manager w))) as [d|].
  2:{ by intros [= <-]. }
  destruct (getCache file) as [mc|]; [|done].
  destruct (match sections mc with Some _ => _ | None => _ end) as [s|].
  2:{ by intros [= <-]. }
  intros [= <-]. split; [apply sublist_filter|].
  intros c. rewrite list_elem_of_filter. unfold within. tauto.
Qed.

(** X21.  When [getCitationsForSection] returns, it returns no citation
    for a file that is not cached or that has no section with the given
    first and last line; otherwise it returns, in their order, the cached
    citations of the file that start at or after the start offset of the
    first such section and end at or before its end offset. *)
Theorem getCitationsForSection_spec file lineStart lineEnd w cs :
  out (getCitationsForSection getCache file lineStart lineEnd w) = Ret cs →
  match LRU.peek file (fileCache (manager w)),
        section_of getCache file lineStart lineEnd with
  | Some d, Some s =>
      cs `sublist_of` fc_citations d
      ∧ ∀ c, c ∈ cs
             ↔ c ∈ fc_citations d
               ∧ loc_offset (pos_start s) ≤ rc_from c
               ∧ rc_to c ≤ loc_offset (pos_end s)
  | _, _ => cs = []
  end.
Proof. apply section_citations. Qed.

(** A citation of positive length is never returned for two sections that
    do not overlap. *)
Lemma sections_share_no_citation file w l1 l1' l2 l2' s1 s2 cs1 cs2 c :
  section_of getCache file l1 l1' = Some s1 →
  section_of getCache file l2 l2' = Some s2 →
  loc_offset (pos_end s1) ≤ loc_offset (pos_start s2) →
  out (getCitationsForSection getCache file l1 l1' w) = Ret cs1 →
  out (getCitationsForSection getCache file l2 l2' w) = Ret cs2 →
  rc_from c < rc_to c →
  ¬ (c ∈ cs1 ∧ c ∈ cs2).
Proof.
  intros Hs1 Hs2 Hdisj H1 H2 Hc [Hc1 Hc2].
  pose proof (section_citations file l1 l1' w cs1 H1) as Hspec1.
  pose proof (section_citations file l2 l2' w cs2 H2) as Hspec2.
  rewrite Hs1 in Hspec1. rewrite Hs2 in Hspec2.
  destruct (LRU.peek file (fileCache (manager w))) as [d|].
  2:{ subst cs1. by apply elem_of_nil in Hc1. }
  destruct Hspec1 as [_ Hin1]. destruct Hspec2 as [_ Hin2].
  apply Hin1 in Hc1 as (_ & _ & Hto). apply Hin2 in Hc2 as (_ & Hfrom & _).
  lia.
Qed.

End section_properties.

(** ** The resolution result in the editor *)

Section editor_field.
Variable E : Env.

Lemma dispatched_to_cons file ev t :
  dispatched_to file (ev :: t)
  = (match ev with
     | EvDispatch f result =>
         if decide (f = file) then [[SetCiteKeyCache (Some result)]] else []
     | _ => []
     end ++ dispatched_to file t)%list.
Proof.
  unfold dispatched_to. destruct ev; try done. simpl.
  by destruct (decide (file0 = file)).
Qed.

Lemma dispatched_to_silent file t : silent t → dispatched_to file t = [].
Proof.
  induction t as [|ev t IH]; intros Ht; [done|].
  rewrite dispatched_to_cons, IH.
  2:{ intros f d Hin. apply (Ht f d). by right. }
  destruct ev; try done. exfalso. eapply Ht. by left.
Qed.

Lemma dispatched_to_app file t1 t2 :
  dispatched_to file (t1 ++ t2)
  = (dispatched_to file t1 ++ dispatched_to file t2)%list.
Proof. apply omap_app. Qed.

(** X22.  The state field of an editor follows the resolution cache: when
    a pass over a file delivers a result, the field of an editor of that
    file holds afterwards the entry that the cache holds for the file; when
    the pass delivers nothing the field is unchanged; and the field of an
    editor of another file is never changed by the pass. *)
Theorem editor_holds_delivered_entry file content w state f :
  let r := getReferenceList E file content w in
  (f ≠ file → editor_state f state (trace r) = state)
  ∧ (silent (trace r) → editor_state file state (trace r) = state)
  ∧ (¬ silent (trace r) → 0 < LRU.max (fileCache (manager w)) →
     editor_state file state (trace r)
     = LRU.peek file (fileCache (manager (post r)))).
Proof.
  intros r. subst r. unfold editor_state.
  assert (silent (trace (getReferenceList E file content w)) →
          (f ≠ file →
           fold_left citeKeyCacheField_update
             (dispatched_to f (trace (getReferenceList E file content w)))
             state
           = state)
          ∧ (silent (trace (getReferenceList E file content w)) →
             fold_left citeKeyCacheField_update
               (dispatched_to file (trace (getReferenceList E file content w)))
               state
             = state)
          ∧ (¬ silent (trace (getReferenceList E file content w)) →
             0 < LRU.max (fileCache (manager w)) →
             fold_left citeKeyCacheField_update
               (dispatched_to file (trace (getReferenceList E file content w)))
               state
             = LRU.peek file
                 (fileCache
                    (manager (post (getReferenceList E file content w))))))
    as Hquiet.
  { intros Hs. rewrite !dispatched_to_silent by done. split_and!; [done|done|].
    intros Hns. by destruct Hns. }
  destruct (pass_summary E file content w)
    as [[_ Hr]|[(_ & d & t & Ht & Hs & _ & Hc & _)
               |[(_ & d & s & _ & _ & _ & Hs & _)|(_ & e & _ & Hs & _)]]];
    [| |by apply Hquiet..].
  - rewrite Hr. cbn [trace post]. split_and!; [done|done|].
    intros Hns. exfalso. apply Hns. by intros ? ? ?%elem_of_nil.
  - rewrite Ht, !dispatched_to_app, !(dispatched_to_silent _ t) by done.
    rewrite !dispatched_to_cons. cbn [app dispatched_to omap].
    split_and!.
    + intros Hf. by rewrite decide_False.
    + intros Hsil. exfalso. apply (Hsil file d). apply elem_of_app. right.
      by left.
    + intros _ Hmax. rewrite decide_True by done. cbn.
      rewrite Hc. symmetry. apply peek_set_eq. by rewrite max_get.
Qed.

End editor_field.

(** ** The decorations *)

Section decoration_properties.
Variable E : Env.
Variable type_name : SegmentType → string.

Lemma and_then_ret {A B} (o : outcome A) (f : A → outcome B) b :
  and_then o f = Ret b → ∃ a, o = Ret a ∧ f a = Ret b.
Proof. destruct o as [a|e]; [|done]. intros H. by exists a. Qed.

Lemma for_each_elem {A} (f : A → outcome (list Added)) l ds x :
  for_each f l = Ret ds → x ∈ ds →
  ∃ a da, a ∈ l ∧ f a = Ret da ∧ x ∈ da.
Proof.
  revert ds. induction l as [|a l IH]; intros ds; cbn [for_each].
  { intros [= <-] Hx. by apply elem_of_nil in Hx. }
  intros (da & Ha & (dl & Hl & [= <-])%and_then_ret)%and_then_ret
         [Hx|Hx]%elem_of_app.
  - exists a, da. split_and!; [by left|done..].
  - destruct (IH dl Hl Hx) as (a' & da' & Hin & Hf & Hx').
    exists a', da'. split_and!; [by right|done..].
Qed.

Lemma part_deco_shape v from part next ds s e deco :
  part_deco type_name v from part next = Ret ds → (s, e, deco) ∈ ds →
  s = from + seg_from part ∧ e = from + seg_to part
  ∧ ∃ cls attrs, deco = DecoMark cls attrs.
Proof.
  unfold part_deco.
  destruct (seg_type part); try destruct (obsPath v) as [p|err]; cbn [and_then];
    try done;
    intros [= <-] [= -> -> ->]%list_elem_of_singleton;
    (split_and!; [done|done|by eexists _, _]).
Qed.

Lemma parts_decos_elem v from parts ds x :
  parts_decos type_name v from parts = Ret ds → x ∈ ds →
  ∃ part next d,
    part ∈ parts
    ∧ ignored (nodeProps v (from + seg_from part)) = false
    ∧ part_deco type_name v from part next = Ret d ∧ x ∈ d.
Proof.
  revert ds. induction parts as [|part rest IH]; intros ds; cbn [parts_decos].
  { intros [= <-] Hx. by apply elem_of_nil in Hx. }
  destruct (ignored _) eqn:Hi.
  { intros [= <-] Hx. by apply elem_of_nil in Hx. }
  intros (d & Hd & (dr & Hr & [= <-])%and_then_ret)%and_then_ret
         [Hx|Hx]%elem_of_app.
  - exists part, (head rest), d. split_and!; [by left|done..].
  - destruct (IH dr Hr Hx) as (part' & next & d' & Hin & ? & ? & ?).
    exists part', next, d'. split_and!; [by right|done..].
Qed.

(** X23.  Every decoration that [mkDeco] adds comes from a match of a
    visible range.  A replacing widget is added only in live preview, for a
    cached rendered citation whose segments agree with the match in type
    and value, when every selection range passes the test, and it spans
    from the start of the first segment to the end of the last one, as the
    parser gives them for the text of the range.  A mark is added for a
    segment of the match that does not lie in an ignored node, and it spans
    the segment shifted by the start of the visible range. *)
Theorem mkDeco_decorations v ds s e deco :
  mkDeco E type_name v = Ret ds → (s, e, deco) ∈ ds →
  ∃ r m,
    r ∈ visibleRanges v ∧ m ∈ getCitationSegments E (sliceDoc v r)
    ∧ match deco with
      | DecoReplace c p =>
          isLivePreview v = true
          ∧ (∃ cache, citekeyCache v = Some cache ∧ c ∈ fc_citations cache)
          ∧ onlyValType (rc_data c) = onlyValType m
          ∧ (∃ first lst, head m = Some first ∧ last m = Some lst
                          ∧ s = seg_from first ∧ e = seg_to lst)
          ∧ Forall (λ sel, clear_of s e sel = true) (selection_ranges v)
      | DecoMark _ _ =>
          ∃ part, part ∈ m
                  ∧ s = range_from r + seg_from part
                  ∧ e = range_from r + seg_to part
                  ∧ ignored (nodeProps v s) = false
      end.
Proof.
  unfold mkDeco. intros Hds Hx.
  destruct (for_each_elem _ _ _ _ Hds Hx) as (r & dr & Hr & Hdr & Hx1).
  cbv zeta in Hdr.
  destruct (for_each_elem _ _ _ _ Hdr Hx1) as (m & dm & Hm & Hdm & Hx2).
  exists r, m. split_and!; [done..|].
  assert (parts_decos type_name v (range_from r) m = Ret dm →
          match deco with
          | DecoReplace _ _ => False
          | DecoMark _ _ =>
              ∃ part, part ∈ m ∧ s = range_from r + seg_from part
                      ∧ e = range_from r + seg_to part
                      ∧ ignored (nodeProps v s) = false
          end) as Hparts.
  { intros Hp.
    destruct (parts_decos_elem _ _ _ _ _ Hp Hx2)
      as (part & next & d & Hin & Hi & Hd & Hxd).
    destruct (part_deco_shape _ _ _ _ _ _ _ _ Hd Hxd)
      as (-> & -> & cls & attrs & ->).
    by exists part. }
  unfold match_decos in Hdm.
  destruct (rendered_for v m) as [c|] eqn:Hrend.
  2:{ specialize (Hparts Hdm). by destruct deco. }
  destruct (head m) as [first|] eqn:Hfirst; [|done].
  destruct (last m) as [lst|] eqn:Hlast; [|done].
  destruct (forallb _ _) eqn:Hsel.
  2:{ specialize (Hparts Hdm). by destruct deco. }
  apply and_then_ret in Hdm as (p & Hp & [= <-]).
  apply list_elem_of_singleton in Hx2. injection Hx2 as -> -> ->.
  unfold citeDeco. unfold rendered_for in Hrend.
  destruct (isLivePreview v); [|done].
  destruct (citekeyCache v) as [cache|]; [|done].
  apply find_some in Hrend as [Hin Heq%bool_decide_eq_true].
  split_and!; [done| |done| |].
  - exists cache. split; [done|]. by apply list_elem_of_In.
  - by exists first, lst.
  - apply Forall_forall. intros sel Hsel'. rewrite forallb_forall in Hsel.
    apply Hsel. by apply list_elem_of_In.
Qed.

(** X24.  For a match from [start] to [end_] and a selection range, both
    with their ends in order, the test of [mkDeco] on the selection range
    holds exactly when the two are disjoint: the selection ends before the
    match starts, or starts after it ends. *)
Theorem clear_of_iff_disjoint start end_ r :
  start ≤ end_ → range_from r ≤ range_to r →
  clear_of start end_ r = true ↔ range_to r < start ∨ end_ < range_from r.
Proof.
  intros Hse Hr. unfold clear_of.
  rewrite andb_true_iff, !negb_true_iff, orb_false_iff, !andb_false_iff,
    !Nat.leb_gt. lia.
Qed.

End decoration_properties.

(** ** The bibliography from Zotero *)

Section loader_properties.
Variable E : Env.

Lemma fetch_groups_spec getZBib port groups bib w :
  fetch_groups getZBib port groups bib w
  = {| out := Ret (app bib <$> all_entries getZBib port groups);
       post := w;
       trace := trace (fetch_groups getZBib port groups bib w) |}.
Proof.
  revert bib. induction groups as [|g groups IH]; intros bib;
    cbn [fetch_groups all_entries].
  { cbn. by rewrite app_nil_r. }
  unfold group_entries.
  destruct (getZBib port (group_id g)) as [[[|entry entries]|]|e];
    [done| |done|done].
  rewrite IH at 1. f_equal. f_equal.
  destruct (all_entries getZBib port groups) as [ls|]; [|done]. cbn.
  by rewrite <- app_assoc.
Qed.

Lemma all_entries_fail getZBib port groups g :
  g ∈ groups → group_entries getZBib port g = None →
  all_entries getZBib port groups = None.
Proof.
  intros Hg Hfail. induction groups as [|g0 groups IH];
    [by apply elem_of_nil in Hg|].
  cbn [all_entries]. apply elem_of_cons in Hg as [<-|Hg].
  - by rewrite Hfail.
  - rewrite (IH Hg). by destruct (group_entries getZBib port g0).
Qed.

Lemma load_groups_fails getZBib S fromCache groups w :
  fromCache = false ∨ bibCache (manager w) = ∅ →
  all_entries getZBib (zoteroPort S) groups = None →
  ∃ t, load_groups getZBib S fromCache groups w
       = {| out := Ret false; post := w; trace := t |}.
Proof.
  intros Hload Hnone. unfold load_groups. msimpl.
  assert ((negb fromCache || bool_decide (bibCache (manager w) = ∅))%bool
          = true) as ->.
  { destruct Hload as [-> | ->]; [done|]. rewrite bool_decide_true by done.
    apply orb_true_r. }
  erewrite bind_run by apply fetch_groups_spec. rewrite Hnone. by eexists.
Qed.

Lemma load_groups_succeeds getZBib S fromCache groups w bib :
  fromCache = false ∨ bibCache (manager w) = ∅ →
  all_entries getZBib (zoteroPort S) groups = Some bib →
  ∃ t, load_groups getZBib S fromCache groups w
       = {| out := Ret true;
            post := set_manager
                      (set_fuse (Some bib)
                         (set_bibCache (entries_by_id bib) (manager w))) w;
            trace := t |}.
Proof.
  intros Hload Hsome. unfold load_groups. msimpl.
  assert ((negb fromCache || bool_decide (bibCache (manager w) = ∅))%bool
          = true) as ->.
  { destruct Hload as [-> | ->]; [done|]. rewrite bool_decide_true by done.
    apply orb_true_r. }
  erewrite bind_run by apply fetch_groups_spec. rewrite Hsome. by eexists.
Qed.

Lemma load_groups_cached getZBib S groups w :
  bibCache (manager w) ≠ ∅ →
  load_groups getZBib S true groups w
  = {| out := Ret true; post := w; trace := [] |}.
Proof.
  intros Hne. unfold load_groups. msimpl.
  by rewrite bool_decide_false.
Qed.

Lemma getLangAndStyle_frame w0 lang style :
  preserves (scope_frame w0) (getLangAndStyle E lang style).
Proof.
  pose proof (loadStyles_frame E). pose proof (loadLangs_frame E).
  unfold getLangAndStyle. mstructure.
Qed.

(** What the second part does: it throws what [getLangAndStyle] or the
    constructor of the engine throws, and leaves the manager as
    [getLangAndStyle] left it but for the engine, which is new when the
    style is cached under its URL and the constructor returns. *)
Lemma load_style_and_engine_cases S w :
  let style := JS.nullish (cslStyleURL (pluginSettings w)) default_style_url in
  let lang := JS.nullish (cslLang (pluginSettings w)) "en-US" in
  let sr := {| style_id := JS.or_else (cslStylePath S) (Some style);
               explicitPath := cslStylePath S |} in
  let r1 := getLangAndStyle E lang sr w in
  let w1 := post r1 in
  let m1 := manager w1 in
  let r := load_style_and_engine E S w in
  match out r1 with
  | Throw err => out r = Throw err ∧ post r = w1
  | Ret resolved =>
      match styleCache m1 !! style with
      | None => out r = Ret resolved ∧ post r = w1
      | Some _ =>
          match buildEngine E lang (langCache m1) style (styleCache m1)
                  (bibCache m1) with
          | Ret e =>
              out r = Ret resolved
              ∧ post r = set_manager (set_engine (Some e) m1) w1
          | Throw err => out r = Throw err ∧ post r = w1
          end
      end
  end.
Proof.
  intros style lang sr r1 w1 m1 r. subst r. unfold load_style_and_engine.
  msimpl. fold style lang sr. subst m1 w1 r1.
  destruct (getLangAndStyle E lang sr w) as [[resolved|err] w1 t1] eqn:Hrun;
    cbn [out post].
  2:{ by rewrite (bind_throws _ _ _ _ _ _ Hrun). }
  rewrite (bind_run _ _ _ _ _ _ Hrun). msimpl.
  destruct (styleCache (manager w1) !! style); msimpl; [|done].
  unfold bind, lift.
  by destruct (buildEngine E lang _ style _ _).
Qed.

Lemma load_style_and_engine_frame S w :
  let w' := post (load_style_and_engine E S w) in
  fileCache (manager w') = fileCache (manager w)
  ∧ bibCache (manager w') = bibCache (manager w)
  ∧ fuse (manager w') = fuse (manager w)
  ∧ pluginSettings w' = pluginSettings w.
Proof.
  intros w'. subst w'.
  pose proof (load_style_and_engine_cases S w) as Hcases. cbv zeta in Hcases.
  set (style := JS.nullish _ default_style_url) in *.
  set (lang := JS.nullish _ "en-US") in *.
  set (sr := {| style_id := _; explicitPath := _ |}) in *.
  pose proof (getLangAndStyle_frame w lang sr w (scope_frame_refl w))
    as (Hfc & Hbc & Hfu & _ & Hps & _).
  set (w1 := post (getLangAndStyle E lang sr w)) in *.
  destruct (out (getLangAndStyle E lang sr w)) as [resolved|err].
  2:{ destruct Hcases as [_ ->]. by rewrite Hfc, Hbc, Hfu, Hps. }
  destruct (styleCache (manager w1) !! style).
  2:{ destruct Hcases as [_ ->]. by rewrite Hfc, Hbc, Hfu, Hps. }
  destruct (buildEngine E lang _ style _ _); destruct Hcases as [_ ->];
    cbn [manager set_manager fileCache bibCache fuse set_engine pluginSettings];
    by rewrite Hfc, Hbc, Hfu, Hps.
Qed.

(** X25.  [loadGlobalZBib] does nothing when no Zotero group is
    configured.  When it has to fetch (it is not asked to use the cache, or
    the global lookup is empty) and some group fails or gives no entry, it
    leaves the whole state as it was: the lookup, the index and the engine
    are replaced for all groups or not at all. *)
Theorem zotero_load_is_all_or_nothing getZBib S fromCache w :
  let r := loadGlobalZBib E getZBib S fromCache w in
  ((zoteroGroups S = None ∨ zoteroGroups S = Some []) →
   r = {| out := Ret false; post := w; trace := [] |})
  ∧ ∀ groups g,
      zoteroGroups S = Some groups →
      fromCache = false ∨ bibCache (manager w) = ∅ →
      g ∈ groups →
      group_entries getZBib (zoteroPort S) g = None →
      out r = Ret false ∧ post r = w.
Proof.
  intros r. subst r. unfold loadGlobalZBib. split.
  - by intros [-> | ->].
  - intros groups g -> Hload Hg Hfail.
    destruct groups as [|g0 groups0] eqn:Hgroups; [by apply elem_of_nil in Hg|].
    rewrite <- Hgroups in *. clear Hgroups g0 groups0.
    destruct (load_groups_fails getZBib S fromCache groups w Hload
                (all_entries_fail _ _ _ g Hg Hfail)) as [t Hrun].
    rewrite (bind_run _ _ _ _ _ _ Hrun). done.
Qed.

(** X26.  When [loadGlobalZBib] has to fetch and every group gives
    entries, the global lookup becomes the lookup of the entries of all
    groups in order (a later entry replacing an earlier one with the same
    id) and the index of the manager holds them; the resolution cache is
    left alone, so a cached scope that shares the index of the manager
    searches the new entries from then on.  When the call returns, the
    engine is the one the constructor gave on that lookup if the style
    cache has the style under its URL after the loading, and is left as it
    was otherwise; when the call throws, which it does when the read of
    the locales of the style or the constructor of the engine throws, the
    engine is left as it was. *)
Theorem zotero_load_indexes_all_groups getZBib S fromCache w groups bib :
  zoteroGroups S = Some groups → groups ≠ [] →
  fromCache = false ∨ bibCache (manager w) = ∅ →
  all_entries getZBib (zoteroPort S) groups = Some bib →
  let r := loadGlobalZBib E getZBib S fromCache w in
  let m := manager (post r) in
  let style := JS.nullish (cslStyleURL (pluginSettings w)) default_style_url in
  let lang := JS.nullish (cslLang (pluginSettings w)) "en-US" in
  bibCache m = entries_by_id bib
  ∧ fuse m = Some bib
  ∧ fileCache m = fileCache (manager w)
  ∧ (∀ file d bc e,
       LRU.peek file (fileCache m) = Some d →
       source d = SrcScoped bc (Some GlobalFuse) e →
       fuse_data m (Some GlobalFuse) = Some bib)
  ∧ match out r with
    | Ret _ =>
        match styleCache m !! style with
        | Some _ =>
            ∃ e, buildEngine E lang (langCache m) style (styleCache m)
                   (entries_by_id bib) = Ret e
                 ∧ engine m = Some e
        | None => engine m = engine (manager w)
        end
    | Throw _ => engine m = engine (manager w)
    end.
Proof.
  intros Hgroups Hne Hload Hsome r m style lang. subst m r.
  unfold loadGlobalZBib. rewrite Hgroups.
  destruct groups as [|g0 groups0] eqn:Hg; [done|].
  rewrite <- Hg in *. clear Hg g0 groups0 Hne.
  destruct (load_groups_succeeds getZBib S fromCache groups w bib Hload Hsome)
    as [t Hrun].
  rewrite (bind_run _ _ _ _ _ _ Hrun). cbv iota.
  set (w0 := set_manager _ w) in *.
  pose proof (load_style_and_engine_cases S w0) as Hcases.
  pose proof (load_style_and_engine_frame S w0) as (Hfc' & Hbc' & Hfu' & _).
  cbv zeta in Hcases, Hfc', Hbc', Hfu'.
  change (pluginSettings w0) with (pluginSettings w) in Hcases.
  fold style lang in Hcases.
  set (sr := {| style_id := _; explicitPath := _ |}) in *.
  pose proof (getLangAndStyle_frame w0 lang sr w0 (scope_frame_refl w0))
    as (_ & Hbc & _ & Heng & _).
  set (w1 := post (getLangAndStyle E lang sr w0)) in *.
  assert (∀ r2 : Result bool,
            post match r2 with
                 | {| out := o; post := w2; trace := t2 |} =>
                     {| out := o; post := w2; trace := (t ++ t2)%list |}
                 end = post r2
            ∧ out match r2 with
                  | {| out := o; post := w2; trace := t2 |} =>
                      {| out := o; post := w2; trace := (t ++ t2)%list |}
                  end = out r2) as Hr2 by (by intros []).
  destruct (Hr2 (load_style_and_engine E S w0)) as [-> ->].
  set (r := load_style_and_engine E S w0) in *.
  assert (fuse (manager (post r)) = Some bib) as Hfuse by (by rewrite Hfu').
  split_and!.
  - by rewrite Hbc'.
  - exact Hfuse.
  - by rewrite Hfc'.
  - intros file d bc e _ _. exact Hfuse.
  - destruct (out (getLangAndStyle E lang sr w0)) as [resolved|err].
    2:{ destruct Hcases as [-> ->]. by rewrite Heng. }
    destruct (styleCache (manager w1) !! style) as [doc|] eqn:Hdoc.
    2:{ destruct Hcases as [-> ->]. by rewrite Hdoc, Heng. }
    destruct (buildEngine E lang (langCache (manager w1)) style
                (styleCache (manager w1)) (bibCache (manager w1)))
      as [e|err] eqn:Hbuild; destruct Hcases as [-> ->].
    + cbn [manager set_manager styleCache langCache engine set_engine].
      rewrite Hdoc. exists e. split; [|done]. by rewrite <- Hbuild, Hbc.
    + by rewrite Heng.
Qed.

(** X27.  Asked to use the cache while the global lookup is not empty,
    [loadGlobalZBib] does not depend on what Zotero would answer, and it
    leaves the global lookup and index as they are. *)
Theorem zotero_cached_bibliography_is_reused getZBib getZBib' S w :
  bibCache (manager w) ≠ ∅ →
  loadGlobalZBib E getZBib S true w = loadGlobalZBib E getZBib' S true w
  ∧ bibCache (manager (post (loadGlobalZBib E getZBib S true w)))
    = bibCache (manager w)
  ∧ fuse (manager (post (loadGlobalZBib E getZBib S true w)))
    = fuse (manager w).
Proof.
  intros Hne. unfold loadGlobalZBib.
  destruct (zoteroGroups S) as [[|g groups]|]; [done| |done].
  rewrite !(bind_run _ _ _ _ _ _ (load_groups_cached _ S (g :: groups) w Hne)).
  cbv iota. split; [done|].
  pose proof (load_style_and_engine_frame S w) as (_ & Hbc & Hfu & _).
  cbv zeta in Hbc, Hfu.
  assert (post match load_style_and_engine E S w with
               | {| out := o; post := w2; trace := t2 |} =>
                   {| out := o; post := w2; trace := ([] ++ t2)%list |}
               end = post (load_style_and_engine E S w)) as ->
    by (by destruct (load_style_and_engine E S w)).
  by rewrite Hbc, Hfu.
Qed.

Lemma loadStyles_other_key k styles :
  Forall (λ sr, style_key (style_id sr) (explicitPath sr) ≠ Some k) styles →
  preserves (λ w, styleCache (manager w) !! k = None) (loadStyles E styles).
Proof.
  induction 1 as [|sr styles Hsr _ IH]; intros w Hw; cbn [loadStyles]; [done|].
  destruct (negb _ && negb _)%bool; [by apply IH|]. msimpl.
  destruct (style_key (style_id sr) (explicitPath sr)) as [k'|] eqn:Hk.
  - rewrite result_eta.
    destruct (styleCache (manager w) !! k') as [doc|]; [by apply IH|].
    unfold getCSLStyle. rewrite Hk. msimpl.
    destruct (fetchStyle E (style_id sr) (explicitPath sr)) as [doc|e];
      msimpl; [|done].
    set (w' := set_manager _ w).
    assert (styleCache (manager w') !! k = None) as Hw'.
    { subst w'. cbn [set_manager manager set_styleCache styleCache].
      rewrite lookup_insert_ne; [done|congruence]. }
    pose proof (post_bind_ret (loadStyles E styles) (λ res, doc :: res) w')
      as Hpost.
    destruct ((let* res := loadStyles E styles in ret (doc :: res)) w')
      as [o1 w1 t1].
    cbn [post] in *. rewrite Hpost. by apply IH.
  - unfold getCSLStyle. rewrite Hk. msimpl.
    destruct (fetchStyle E (style_id sr) (explicitPath sr)) as [doc|e];
      msimpl; [|done].
    pose proof (post_bind_ret (loadStyles E styles) (λ res, doc :: res) w)
      as Hpost.
    destruct ((let* res := loadStyles E styles in ret (doc :: res)) w)
      as [o1 w1 t1].
    cbn [post] in *. rewrite Hpost. by apply IH.
Qed.

Lemma loadLangs_styleCache k langs :
  preserves (λ w, styleCache (manager w) !! k = None) (loadLangs E langs).
Proof.
  induction langs as [|lang langs IH]; cbn [loadLangs];
    [apply preserves_ret|].
  unfold getCSLLocale. mstructure. intros w Hw. exact Hw.
Qed.

Lemma getLangAndStyle_other_key k lang sr :
  style_key (style_id sr) (explicitPath sr) ≠ Some k →
  preserves (λ w, styleCache (manager w) !! k = None)
    (getLangAndStyle E lang sr).
Proof.
  intros Hk.
  assert (preserves (λ w, styleCache (manager w) !! k = None)
            (loadStyles E [sr])).
  { apply loadStyles_other_key. by repeat constructor. }
  pose proof (loadLangs_styleCache k).
  unfold getLangAndStyle. mstructure.
Qed.

(** X28.  With a style path in the settings, [loadGlobalZBib] loads the
    style under that path, and tests the style cache under the style URL
    before it builds the engine: when the path is not the URL and the cache
    has nothing under the URL, the global engine is left as it was
    ([getCSLStyle] keeps the document it reads under the path). *)
Theorem local_style_builds_no_engine getZBib S fromCache w p :
  let style := JS.nullish (cslStyleURL (pluginSettings w)) default_style_url in
  cslStylePath S = Some p → p ≠ EmptyString → p ≠ style →
  styleCache (manager w) !! style = None →
  engine (manager (post (loadGlobalZBib E getZBib S fromCache w)))
  = engine (manager w).
Proof.
  intros style Hp Hne Hps Hnone. unfold loadGlobalZBib.
  destruct (zoteroGroups S) as [[|g groups]|]; [done| |done].
  assert (∀ w0 : World,
            pluginSettings w0 = pluginSettings w →
            styleCache (manager w0) !! style = None →
            engine (manager (post (load_style_and_engine E S w0)))
            = engine (manager w0)) as Hsecond.
  { intros w0 Hset Hw0.
    pose proof (load_style_and_engine_cases S w0) as Hcases.
    cbv zeta in Hcases. rewrite Hset in Hcases. fold style in Hcases.
    set (lang := JS.nullish _ "en-US") in *.
    set (sr := {| style_id := _; explicitPath := _ |}) in *.
    pose proof (getLangAndStyle_frame w0 lang sr w0 (scope_frame_refl w0))
      as (_ & _ & _ & Heng & _).
    rewrite (getLangAndStyle_other_key style lang sr) in Hcases; [| |done].
    2:{ subst sr. cbn [style_id explicitPath]. rewrite Hp. cbn. congruence. }
    destruct (out (getLangAndStyle E lang sr w0));
      destruct Hcases as [_ ->]; done. }
  set (w1 := post (load_groups getZBib S fromCache (g :: groups) w)).
  assert (engine (manager w1) = engine (manager w)
          ∧ pluginSettings w1 = pluginSettings w
          ∧ styleCache (manager w1) = styleCache (manager w)) as (He & Hs & Hc).
  { subst w1. unfold load_groups. msimpl.
    destruct (negb fromCache || _)%bool; [|done].
    erewrite bind_run by apply fetch_groups_spec.
    by destruct (all_entries getZBib (zoteroPort S) (g :: groups)). }
  destruct (load_groups getZBib S fromCache (g :: groups) w)
    as [[[]|e] w1' t1] eqn:Hrun; cbn [post] in w1; subst w1.
  - rewrite (bind_run _ _ _ _ _ _ Hrun). cbv iota.
    specialize (Hsecond w1' Hs). rewrite Hc in Hsecond.
    specialize (Hsecond Hnone). rewrite <- He.
    by destruct (load_style_and_engine E S w1').
  - rewrite (bind_run _ _ _ _ _ _ Hrun). done.
  - rewrite (bind_throws _ _ _ _ _ _ Hrun). done.
Qed.

End loader_properties.

(** ** Further runs on the small vault *)

Lemma getScopedSettings_fields_are_clean_witness :
  clean (settings_style Demo.padded_style)
  ∧ clean (settings_lang Demo.padded_style)
  ∧ clean (settings_bibliography Demo.padded_style)
  ∧ (is_Some (settings_style Demo.padded_style)
     ∨ is_Some (settings_lang Demo.padded_style)
     ∨ is_Some (settings_bibliography Demo.padded_style)).
Proof.
  apply (getScopedSettings_fields_are_clean Demo.with_padded_style "a.md").
  reflexivity.
Defined.

Lemma getScopedSettings_null_iff_blank_witness :
  getScopedSettings (Demo.world Demo.loaded (Demo.csl_frontmatter Demo.nbsp))
    "a.md" = Ret None
  ∧ ∃ e, getScopedSettings
           (Demo.world Demo.loaded (Demo.bibliography_frontmatter FmOther))
           "a.md" = Throw e.
Proof.
  split.
  - apply (proj1 (getScopedSettings_null_iff_blank
                    (Demo.world Demo.loaded (Demo.csl_frontmatter Demo.nbsp))
                    "a.md")).
    cbn. repeat split; intros v Hv; try discriminate Hv.
    injection Hv as <-. eexists. split; reflexivity.
  - destruct (proj2 (getScopedSettings_null_iff_blank
                       (Demo.world Demo.loaded
                          (Demo.bibliography_frontmatter FmOther)) "a.md")
                _ eq_refl) as [Hthrows _].
    apply Hthrows. reflexivity.
Defined.

Lemma normalizeLocales_sound_witness :
  (NoDup ["en-US"; "constructor"; "fr-FR"]
   ∧ Forall (known_locale Demo.env) ["en-US"; "constructor"; "fr-FR"]
   ∧ length ["en-US"; "constructor"; "fr-FR"] ≤ 3)
  ∧ ¬ ∃ l, normalizeLocales Demo.env ["toString-x"] = Ret l.
Proof.
  split.
  - apply (proj1 (normalizeLocales_sound Demo.env
                    ["en-GB"; "constructor"; "fr-FR-x"])).
    reflexivity.
  - intros H.
    apply (proj2 (normalizeLocales_sound Demo.env ["toString-x"])) in H.
    apply Forall_cons in H as [H _]. apply H. split; reflexivity.
Defined.

Lemma extractRawLocales_requested_witness :
  "en-US" ∈ ["en-US"; "fr-FR"] ∧ "fr-FR" ∈ ["en-US"; "fr-FR"].
Proof.
  destruct (extractRawLocales_requested Demo.env "<style/>" (Some "fr-FR")
              ["en-US"; "fr-FR"]) as [Hen Hin]; [reflexivity|reflexivity|].
  split; [exact Hen|].
  apply (Hin "fr-FR");
    [reflexivity|discriminate|discriminate|reflexivity|reflexivity].
Defined.

Lemma scoped_source_shape_witness :
  (∃ bib, bibToCSL Demo.env "refs.bib" "pandoc" = Ret bib
          ∧ entries_by_id [Demo.doe] = entries_by_id bib
          ∧ Some (OwnFuse [Demo.doe]) = Some (OwnFuse bib))
  ∧ ∃ bc f,
      (∃ bib, bibToCSL Demo.env "refs.bib" "pandoc" = Ret bib
              ∧ bc = entries_by_id bib ∧ f = Some (OwnFuse bib))
      ∧ buildEngine Demo.env "en-US" ∅ default_style_url ∅ bc
        = Throw "citeproc-js error: unable to parse XML input".
Proof.
  split.
  - refine (proj2 (proj1 (scoped_source_shape Demo.env Demo.own_bibliography
                            Demo.ready)
                     (entries_by_id [Demo.doe]) (Some (OwnFuse [Demo.doe]))
                     {| eng_items := entries_by_id [Demo.doe];
                        eng_style := "<style/>"; eng_lang := "en-US";
                        eng_wrap_url_and_doi := true; eng_calls := [] |} _)).
    vm_compute. reflexivity.
  - refine (proj2 (scoped_source_shape Demo.env Demo.own_bibliography
                     Demo.fresh)
              "citeproc-js error: unable to parse XML input" _).
    vm_compute. reflexivity.
Defined.

Lemma scoped_lookup_keeps_last_entry_witness :
  ∃ bib,
    bibToCSL Demo.env "refs.bib" (pathToPandoc (pluginSettings Demo.ready))
    = Ret bib
    ∧ Some [Demo.doe] = Some bib
    ∧ ∀ k, entries_by_id [Demo.doe] !! k
           = last (filter (λ entry, entry_id entry = k) bib).
Proof.
  apply (scoped_lookup_keeps_last_entry Demo.env "refs.bib" Demo.ready).
  vm_compute. reflexivity.
Defined.

Lemma delivered_result_is_returned_witness :
  let r := getReferenceList Demo.env "a.md" "@smith99" Demo.ready in
  let d := Demo.entry_of "a.md" (post r) in
  "a.md" = "a.md"
  ∧ out r = Ret (bib d)
  ∧ ∃ t, trace r = (t ++ [EvDispatch "a.md" d])%list ∧ silent t.
Proof.
  intros r d.
  apply (delivered_result_is_returned Demo.env "a.md" "@smith99" Demo.ready
           "a.md" d).
  in_trace.
Defined.

Lemma suppressed_pass_keeps_entry_witness :
  let content := "@smith99 @unknown" in
  let r := getReferenceList Demo.env "a.md" content Demo.after_a in
  (∀ key, out (getResolution "a.md" key (post r))
          = out (getResolution "a.md" key Demo.after_a))
  ∧ ((∃ e, out r = Throw e)
     ∨ ∃ d s,
         LRU.peek "a.md" (fileCache (manager Demo.after_a)) = Some d
         ∧ getScopedSettings Demo.after_a "a.md" = Ret s
         ∧ settings_agree s d
         ∧ out r = Ret (bib d)
         ∧ LRU.peek "a.md" (fileCache (manager (post r)))
           = Some (with_source
                     (called_source
                        (CallCite
                           (pass_partition Demo.env "a.md" content
                              Demo.after_a).1)
                        (source d))
                     d)).
Proof.
  apply (suppressed_pass_keeps_entry Demo.env "a.md" "@smith99 @unknown"
           Demo.after_a).
  - intros H. vm_compute in H. discriminate H.
  - intros f d Hin. apply list_elem_of_In in Hin. vm_compute in Hin.
    destruct Hin as [Hin|[]]. discriminate Hin.
Defined.

Lemma pass_leaves_other_files_witness :
  let r := getReferenceList Demo.env "a.md" "@smith99" Demo.after_b in
  LRU.peek "b.md" (fileCache (manager Demo.after_b))
  = Some (Demo.entry_of "b.md" (post r)).
Proof.
  intros r.
  apply (pass_leaves_other_files Demo.env "a.md" "@smith99" Demo.after_b).
  - discriminate.
  - vm_compute. reflexivity.
Defined.

Lemma resolution_never_both_witness :
  out (getResolution "f3" "smith99" (run Demo.env Demo.ten_passes Demo.fresh))
  ≠ Ret (true, true).
Proof.
  apply (resolution_never_both Demo.env Demo.ten_passes Demo.fresh).
  reflexivity.
Defined.

Lemma resolution_follows_lookup_witness :
  let r := getReferenceList Demo.env "a.md" "@smith99 @doe2000" Demo.ready in
  out (getResolution "a.md" "doe2000" (post r))
  = Ret (bool_decide
           (is_Some (pass_bibCache Demo.env "a.md" Demo.ready !! "doe2000")),
         bool_decide (pass_bibCache Demo.env "a.md" Demo.ready !! "doe2000"
                      = None)).
Proof.
  intros r.
  apply (resolution_follows_lookup Demo.env "a.md" "@smith99 @doe2000"
           Demo.ready (Demo.entry_of "a.md" (post r))).
  - in_trace.
  - vm_compute. lia.
  - eexists. vm_compute. reflexivity.
  - discriminate.
  - apply list_elem_of_In. vm_compute. right. left. reflexivity.
Defined.

Lemma null_entry_is_rebuilt_witness :
  EvLoadScopedEngine (Some Demo.missing_style)
  ∈ trace (getReferenceList Demo.env "a.md" "@smith99" Demo.after_null_pass).
Proof.
  apply (null_entry_is_rebuilt Demo.env "a.md" "@smith99" Demo.after_null_pass
           (Demo.entry_of "a.md" Demo.after_null_pass)).
  - intros H. vm_compute in H. discriminate H.
  - vm_compute. reflexivity.
  - vm_compute. reflexivity.
  - vm_compute. reflexivity.
Defined.

Lemma getCitationsForSection_spec_witness :
  match LRU.peek "a.md" (fileCache (manager Demo.after_a)),
        section_of Demo.one_section "a.md" 0 0 with
  | Some d, Some s =>
      fc_citations (Demo.entry_of "a.md" Demo.after_a)
        `sublist_of` fc_citations d
      ∧ ∀ c, c ∈ fc_citations (Demo.entry_of "a.md" Demo.after_a)
             ↔ c ∈ fc_citations d
               ∧ loc_offset (pos_start s) ≤ rc_from c
               ∧ rc_to c ≤ loc_offset (pos_end s)
  | _, _ => fc_citations (Demo.entry_of "a.md" Demo.after_a) = []
  end.
Proof.
  apply (getCitationsForSection_spec Demo.one_section "a.md" 0 0 Demo.after_a).
  vm_compute. reflexivity.
Defined.

Lemma mkDeco_decorations_witness :
  ∃ r m,
    r ∈ visibleRanges Demo.source_view
    ∧ m ∈ getCitationSegments Demo.env (sliceDoc Demo.source_view r)
    ∧ ∃ part, part ∈ m
              ∧ 0 = range_from r + seg_from part
              ∧ 0 = range_from r + seg_to part
              ∧ ignored (nodeProps Demo.source_view 0) = false.
Proof.
  apply (mkDeco_decorations Demo.env Demo.type_name Demo.source_view
           Demo.source_decorations 0 0
           (DecoMark "cm-pandoc-citation-formatting at" [])).
  - vm_compute. reflexivity.
  - apply list_elem_of_In. vm_compute. left. reflexivity.
Defined.

Lemma clear_of_iff_disjoint_witness :
  clear_of 3 5 {| range_from := 7; range_to := 9 |} = true ↔ 9 < 3 ∨ 5 < 7.
Proof.
  apply (clear_of_iff_disjoint 3 5 {| range_from := 7; range_to := 9 |});
    cbn; lia.
Defined.

Lemma getNoteForNoteIndex_throws_iff_witness :
  ∃ e, out (getNoteForNoteIndex Demo.env "a.md" "x" Demo.after_a) = Throw e.
Proof.
  apply (proj2 (getNoteForNoteIndex_throws_iff Demo.env "a.md" "x"
                  Demo.after_a)).
  - intros z H. vm_compute in H. discriminate H.
  - vm_compute. eexists. reflexivity.
Defined.

Lemma zotero_load_indexes_all_groups_witness :
  let r :=
    loadGlobalZBib Demo.env Demo.zotero Demo.group_one false Demo.fresh in
  let m := manager (post r) in
  bibCache m = entries_by_id [Demo.smith]
  ∧ fuse m = Some [Demo.smith]
  ∧ fileCache m = fileCache (manager Demo.fresh)
  ∧ (∀ file d bc e,
       LRU.peek file (fileCache m) = Some d →
       source d = SrcScoped bc (Some GlobalFuse) e →
       fuse_data m (Some GlobalFuse) = Some [Demo.smith])
  ∧ match out r with
    | Ret _ =>
        match styleCache m !! default_style_url with
        | Some _ =>
            ∃ e, buildEngine Demo.env "en-US" (langCache m) default_style_url
                   (styleCache m) (entries_by_id [Demo.smith]) = Ret e
                 ∧ engine m = Some e
        | None => engine m = engine (manager Demo.fresh)
        end
    | Throw _ => engine m = engine (manager Demo.fresh)
    end.
Proof.
  apply (zotero_load_indexes_all_groups Demo.env Demo.zotero Demo.group_one
           false Demo.fresh [ {| group_id := "1" |} ] [Demo.smith]).
  - reflexivity.
  - discriminate.
  - left. reflexivity.
  - reflexivity.
Defined.

Lemma zotero_cached_bibliography_is_reused_witness :
  loadGlobalZBib Demo.env Demo.zotero Demo.group_one true Demo.ready
  = loadGlobalZBib Demo.env (λ _ _, Throw "Zotero is not running")
      Demo.group_one true Demo.ready
  ∧ bibCache (manager (post (loadGlobalZBib Demo.env Demo.zotero
                               Demo.group_one true Demo.ready)))
    = bibCache (manager Demo.ready)
  ∧ fuse (manager (post (loadGlobalZBib Demo.env Demo.zotero Demo.group_one
                           true Demo.ready)))
    = fuse (manager Demo.ready).
Proof.
  apply (zotero_cached_bibliography_is_reused Demo.env Demo.zotero
           (λ _ _, Throw "Zotero is not running") Demo.group_one Demo.ready).
  intros H. apply (f_equal (λ m, m !! "smith99")) in H. vm_compute in H.
  discriminate H.
Defined.

Lemma local_style_builds_no_engine_witness :
  engine (manager (post (loadGlobalZBib Demo.env Demo.zotero
                           Demo.group_one_local_style false Demo.fresh)))
  = engine (manager Demo.fresh).
Proof.
  apply (local_style_builds_no_engine Demo.env Demo.zotero
           Demo.group_one_local_style false Demo.fresh "my.csl").
  - reflexivity.
  - discriminate.
  - discriminate.
  - reflexivity.
Defined.


Lemma editor_holds_delivered_entry_witness :
  let r := getReferenceList Demo.env "a.md" "@smith99" Demo.ready in
  editor_state "a.md" None (trace r)
  = LRU.peek "a.md" (fileCache (manager (post r))).
Proof.
  intros r.
  destruct (editor_holds_delivered_entry Demo.env "a.md" "@smith99" Demo.ready
              None "a.md") as (_ & _ & Hdelivered).
  apply Hdelivered.
  - intros Hs. apply (Hs "a.md" (Demo.entry_of "a.md" (post r))). in_trace.
  - vm_compute. lia.
Defined.

Lemma zotero_load_is_all_or_nothing_witness :
  let S := {| zoteroGroups := Some [ {| group_id := "2" |} ];
              zoteroPort := "23119"; cslStylePath := None |} in
  let r := loadGlobalZBib Demo.env Demo.zotero S false Demo.ready in
  out r = Ret false ∧ post r = Demo.ready.
Proof.
  intros S r.
  destruct (zotero_load_is_all_or_nothing Demo.env Demo.zotero S false
              Demo.ready) as [_ Hfails].
  apply (Hfails [ {| group_id := "2" |} ] {| group_id := "2" |}).
  - reflexivity.
  - left. reflexivity.
  - apply list_elem_of_here.
  - reflexivity.
Defined.
